(** * Split-step Fourier integration of the 2D Gross-Pitaevskii equation

    A shallow embedding of [gpe_2d_simulation.py].  The script sets up a
    periodic grid, a cosine-squared potential, a normalised Gaussian and the
    spectral wavenumbers, then runs a fixed number of Strang split steps
    (potential half step, kinetic step in Fourier space, potential half step,
    renormalisation) and takes the density of the final field.

    Number model.  A Python [int] is a [Z]; a finite IEEE double is idealised
    as a real number, a complex128 as a pair of reals, and rounding is not
    modelled.  What numpy does silently where Python would raise is kept:
    an array operation that divides by zero or takes the square root of a
    negative number yields inf/nan entries and goes on, so an array is either
    [Finite] (every entry a real or complex number) or [NonFinite] (it holds
    inf or nan entries).  Python-level scalar division by zero raises
    [ZeroDivisionError]; [np.linspace] with a negative count raises
    [ValueError].

    Range.  Overflow and underflow are not modelled either: in double
    precision Python's [sigma**2] raises [OverflowError] once the square
    exceeds the largest double, a quotient [Lx / Nx] of tiny magnitude
    rounds to zero, and [np.exp] returns 0 for arguments below about -745.
    Statements about which configurations get through setup are therefore
    made under explicit range conditions ([index_sized], [square_fits],
    [quotient_fits]); statements about the values of the field are
    statements of exact arithmetic and say so. *)

From Stdlib Require Import Reals Lra Lia List ZArith Bool.
Import ListNotations.
Open Scope R_scope.

(** ** Complex numbers (complex128, idealised) *)

Definition C : Type := (R * R)%type.

Definition Re (z : C) : R := fst z.
Definition Im (z : C) : R := snd z.
Definition RtoC (r : R) : C := (r, 0).
Definition C0 : C := (0, 0).
Definition Cone : C := (1, 0).
(** Python's [1j]. *)
Definition Ci : C := (0, 1).

Definition Cplus (z w : C) : C := (Re z + Re w, Im z + Im w).
Definition Copp (z : C) : C := (- Re z, - Im z).
Definition Cmult (z w : C) : C :=
  (Re z * Re w - Im z * Im w, Re z * Im w + Im z * Re w).
(** complex * float and complex / float, as numpy does them (componentwise). *)
Definition Cscale (z : C) (r : R) : C := (Re z * r, Im z * r).
Definition Cdivr (z : C) (r : R) : C := (Re z / r, Im z / r).
(** [np.abs] of a complex number. *)
Definition Cmod (z : C) : R := sqrt (Re z * Re z + Im z * Im z).
(** [np.exp] of a complex number. *)
Definition Cexp (z : C) : C := (exp (Re z) * cos (Im z), exp (Re z) * sin (Im z)).
(** [exp(i t)] for a real angle. *)
Definition cis (t : R) : C := (cos t, sin t).

Fixpoint Cpow (z : C) (n : nat) : C :=
  match n with
  | O => Cone
  | S k => Cmult z (Cpow z k)
  end.

(** ** Arrays *)

Definition matrix (A : Type) : Type := list (list A).

(** An array whose entries are all finite, or one that holds inf/nan. *)
Inductive np (A : Type) : Type :=
| Finite (v : A)
| NonFinite.
Arguments Finite {A} v.
Arguments NonFinite {A}.

Definition np_map {A B : Type} (f : A -> B) (w : np A) : np B :=
  match w with
  | Finite v => Finite (f v)
  | NonFinite => NonFinite
  end.

Definition np_bind {A B : Type} (w : np A) (f : A -> np B) : np B :=
  match w with
  | Finite v => f v
  | NonFinite => NonFinite
  end.

Fixpoint map2 {A B D : Type} (f : A -> B -> D) (l : list A) (m : list B) : list D :=
  match l, m with
  | u :: l', v :: m' => f u v :: map2 f l' m'
  | _, _ => []
  end.

(** Elementwise operations on 2D arrays of one shape. *)
Definition mmap {A B : Type} (f : A -> B) (m : matrix A) : matrix B :=
  map (map f) m.
Definition mmap2 {A B D : Type} (f : A -> B -> D) (m : matrix A) (n : matrix B) : matrix D :=
  map2 (map2 f) m n.

Definition get {A : Type} (d : A) (m : matrix A) (i j : nat) : A :=
  nth j (nth i m []) d.
Definition getR : matrix R -> nat -> nat -> R := get 0.
Definition getC : matrix C -> nat -> nat -> C := get C0.

(** [m.shape == (r, c)]. *)
Definition shape {A : Type} (m : matrix A) (r c : nat) : Prop :=
  length m = r /\ Forall (fun row => length row = c) m.

(** The array with entry [f i j] at [(i, j)]. *)
Definition build2 {A : Type} (r c : nat) (f : nat -> nat -> A) : matrix A :=
  map (fun i => map (fun j => f i j) (seq 0 c)) (seq 0 r).

Definition Rsum_list (l : list R) : R := fold_right Rplus 0 l.
(** [np.sum] of a real 2D array. *)
Definition np_sum (m : matrix R) : R := Rsum_list (map Rsum_list m).

(** [np.sqrt] of a float: nan (here [None]) below zero. *)
Definition np_sqrt (r : R) : option R :=
  if Rlt_dec r 0 then None else Some (sqrt r).

(** ** Errors *)

(** [ZeroDivisionError] and [ValueError] are what Python and numpy raise in
    this script.  [InvalidConfiguration] and [NumericalInstability] are the
    two errors of the specification's taxonomy; no statement of the script
    raises either. *)
Inductive exn : Type :=
| ZeroDivisionError
| ValueError
| InvalidConfiguration
| NumericalInstability.

Definition result (A : Type) : Type := (exn + A)%type.
Definition ret {A : Type} (v : A) : result A := inr v.
Definition raise {A : Type} (e : exn) : result A := inl e.
Definition bind {A B : Type} (m : result A) (k : A -> result B) : result B :=
  match m with
  | inl e => inl e
  | inr v => k v
  end.

Notation "x <- m ;; k" := (bind m (fun x => k))
  (at level 61, m at next level, right associativity).

(** Python's float / int. *)
Definition py_div (u : R) (n : Z) : result R :=
  if (n =? 0)%Z then raise ZeroDivisionError else ret (u / IZR n).

(** ** numpy routines the script calls *)

(** [np.arange(lo, hi, dtype=int)]. *)
Definition arange (lo hi : Z) : list Z :=
  map (fun i => (lo + Z.of_nat i)%Z) (seq 0 (Z.to_nat (hi - lo))).

Definition set_last {A : Type} (l : list A) (v : A) : list A :=
  removelast l ++ [v].

(** [np.linspace(start, stop, num)] with its default [endpoint=True]:
    [div = num - 1], [step = (stop - start) / div], entries
    [arange(0, num) * step + start], and the last entry overwritten with
    [stop] when [num > 1]. *)
Definition linspace (start stop : R) (num : Z) : result (list R) :=
  if (num <? 0)%Z then raise ValueError
  else
    let div := (num - 1)%Z in
    let delta := stop - start in
    let y := map (fun i => IZR i) (arange 0 num) in
    let y := if (0 <? div)%Z
             then map (fun v => v * (delta / IZR div) + start) y
             else map (fun v => v * delta + start) y in
    ret (if (1 <? num)%Z then set_last y stop else y).

(** [np.meshgrid(u, v, indexing='ij')]. *)
Definition meshgrid (u v : list R) : matrix R * matrix R :=
  (map (fun ui => map (fun _ => ui) v) u, map (fun _ => v) u).

(** [np.fft.fftfreq(n, d)]: [val = 1.0 / (n * d)] in Python floats, then the
    integers [0 .. N-1] with [N = (n-1)//2 + 1] followed by [-(n//2) .. -1],
    all times [val]. *)
Definition fftfreq (n : Z) (d : R) : result (list R) :=
  if Req_dec_T (IZR n * d) 0 then raise ZeroDivisionError
  else if (n <? 0)%Z then raise ValueError
  else
    let val := 1 / (IZR n * d) in
    let N := ((n - 1) / 2 + 1)%Z in
    let p1 := arange 0 N in
    let p2 := arange (- (n / 2)) 0 in
    ret (map (fun k => IZR k * val) (p1 ++ p2)).

(** *** The discrete Fourier transform *)

Fixpoint Csum (f : nat -> C) (n : nat) : C :=
  match n with
  | O => C0
  | S k => Cplus (Csum f k) (f k)
  end.

(** [exp(sgn * 2 pi i m k / n)]. *)
Definition twiddle (sgn : R) (n m k : nat) : C :=
  cis (sgn * (2 * PI * (INR m * INR k) / INR n)).

Definition dft (sgn : R) (n : nat) (f : nat -> C) (k : nat) : C :=
  Csum (fun m => Cmult (f m) (twiddle sgn n m k)) n.

(** [np.fft.fft] and [np.fft.ifft] of a 1D array: [A_k = sum_m a_m
    exp(-2 pi i m k / n)] and its inverse, which carries the [1/n]. *)
Definition fft (v : list C) : list C :=
  let n := length v in
  map (fun k => dft (-1) n (fun m => nth m v C0) k) (seq 0 n).
Definition ifft (v : list C) : list C :=
  let n := length v in
  map (fun k => Cdivr (dft 1 n (fun m => nth m v C0) k) (INR n)) (seq 0 n).

Definition ncols {A : Type} (m : matrix A) : nat := length (hd [] m).
Definition col {A : Type} (d : A) (j : nat) (m : matrix A) : list A :=
  map (fun row => nth j row d) m.
Definition transpose {A : Type} (d : A) (c : nat) (m : matrix A) : matrix A :=
  map (fun j => col d j m) (seq 0 c).

(** A 1D transform applied along the last axis (each row) and along the
    first axis (each column). *)
Definition along_axis1 (f : list C -> list C) (m : matrix C) : matrix C :=
  map f m.
Definition along_axis0 (f : list C -> list C) (m : matrix C) : matrix C :=
  transpose C0 (length m) (map f (transpose C0 (ncols m) m)).

(** [np.fft.fft2] and [np.fft.ifft2]: the 1D transform over the last axis,
    then over the first. *)
Definition fft2 (m : matrix C) : matrix C := along_axis0 fft (along_axis1 fft m).
Definition ifft2 (m : matrix C) : matrix C := along_axis0 ifft (along_axis1 ifft m).

(** ** The script *)

(** The module-level constants of lines 9-12, 20-24 and 33, as the
    configuration the specification takes them to be. *)
Record config : Type := {
  Nx : Z;
  Ny : Z;
  Lx : R;
  Ly : R;
  dt : R;
  g : R;
  V0 : R;
  a : R;
  sigma : R;
  steps : Z
}.

(** The values written in the script. *)
Definition default_config : config := {|
  Nx := 256;
  Ny := 256;
  Lx := 10;
  Ly := 10;
  dt := 2 / 10000;
  g := 1;
  V0 := 10;
  a := 2;
  sigma := 1;
  steps := 2000
|}.

(** Everything the script has computed when it reaches the time loop. *)
Record env : Type := {
  dx : R;
  dy : R;
  x : list R;
  y : list R;
  X : matrix R;
  Y : matrix R;
  V : np (matrix R);
  psi : np (matrix C);
  kx : list R;
  ky : list R;
  K2 : matrix R
}.

(** [np.abs(psi)**2]. *)
Definition abs2 (p : matrix C) : matrix R :=
  mmap (fun r => r ^ 2) (mmap Cmod p).

(** Lines 28-30: [Vx = np.cos(np.pi * X / a)**2], [Vy] likewise,
    [V = V0 * (Vx + Vy)].  The division is an array division: with [a = 0]
    it yields inf/nan, and the cosine of those is nan. *)
Definition potential (c : config) (gX gY : matrix R) : np (matrix R) :=
  if Req_dec_T (a c) 0 then NonFinite
  else
    let Vx := mmap (fun v => cos (PI * v / a c) ^ 2) gX in
    let Vy := mmap (fun v => cos (PI * v / a c) ^ 2) gY in
    Finite (mmap (fun v => V0 c * v) (mmap2 Rplus Vx Vy)).

(** Lines 35 and 57-58: [norm = np.sqrt(np.sum(np.abs(psi)**2) * dx * dy)]. *)
Definition norm_of (hx hy : R) (p : matrix C) : option R :=
  np_sqrt (np_sum (abs2 p) * hx * hy).

(** [psi /= norm].  A nan norm, or a zero one, leaves nan/inf entries. *)
Definition normalize (hx hy : R) (w : np (matrix C)) : np (matrix C) :=
  np_bind w (fun p =>
    match norm_of hx hy p with
    | None => NonFinite
    | Some n => if Req_dec_T n 0 then NonFinite
                else Finite (mmap (fun z => Cdivr z n) p)
    end).

(** Whether a real array has an entry equal to zero. *)
Definition has_zero (m : matrix R) : bool :=
  existsb (existsb (fun v => if Req_dec_T v 0 then true else false)) m.

(** Line 34: [np.exp(-(X**2 + Y**2) / (2 * sigma**2)).astype(complex128)].
    With [sigma = 0] the array division gives -inf, whose exponential is 0,
    except at a grid point with [X = Y = 0], where it gives nan.  The
    exponential is the exact one: it never rounds to zero, and the square
    [sigma**2] never overflows (see the header on the range). *)
Definition gaussian (c : config) (gX gY : matrix R) : np (matrix C) :=
  let r2 := mmap2 Rplus (mmap (fun v => v ^ 2) gX) (mmap (fun v => v ^ 2) gY) in
  if Req_dec_T (2 * sigma c ^ 2) 0
  then if has_zero r2 then NonFinite else Finite (mmap (fun _ => C0) r2)
  else Finite (mmap (fun v => RtoC (exp (- v / (2 * sigma c ^ 2)))) r2).

(** Lines 9-41. *)
Definition setup (c : config) : result env :=
  hx <- py_div (Lx c) (Nx c) ;;
  hy <- py_div (Ly c) (Ny c) ;;
  gx <- linspace (- Lx c / 2) (Lx c / 2) (Nx c) ;;
  gy <- linspace (- Ly c / 2) (Ly c / 2) (Ny c) ;;
  let '(gX, gY) := meshgrid gx gy in
  let pot := potential c gX gY in
  let p0 := normalize hx hy (gaussian c gX gY) in
  fx <- fftfreq (Nx c) hx ;;
  fy <- fftfreq (Ny c) hy ;;
  let gkx := map (fun v => 2 * PI * v) fx in
  let gky := map (fun v => 2 * PI * v) fy in
  let '(KX, KY) := meshgrid gkx gky in
  let k2 := mmap2 Rplus (mmap (fun v => v ^ 2) KX) (mmap (fun v => v ^ 2) KY) in
  ret {| dx := hx; dy := hy; x := gx; y := gy; X := gX; Y := gY;
         V := pot; psi := p0; kx := gkx; ky := gky; K2 := k2 |}.

(** [np.exp(-1j * A * dt / 2)] for a real array [A]. *)
Definition phase (c : config) (A : matrix R) : matrix C :=
  mmap Cexp
    (mmap (fun z => Cdivr z 2)
       (mmap (fun z => Cscale z (dt c))
          (mmap (fun r => Cmult (Copp Ci) (RtoC r)) A))).

(** Lines 46 and 54:
    [psi *= np.exp(-1j * (V + g * np.abs(psi)**2) * dt / 2)]. *)
Definition half_step (c : config) (pot : np (matrix R)) (w : np (matrix C))
  : np (matrix C) :=
  np_bind pot (fun vv =>
  np_bind w (fun p =>
    let nl := mmap2 Rplus vv (mmap (fun r => g c * r) (abs2 p)) in
    Finite (mmap2 Cmult p (phase c nl)))).

(** Lines 49-51: [psi_k = fft2(psi)], [psi_k *= np.exp(-1j * K2 * dt / 2)],
    [psi = ifft2(psi_k)]. *)
Definition kinetic (c : config) (k2 : matrix R) (w : np (matrix C))
  : np (matrix C) :=
  np_map (fun p =>
    let psi_k := fft2 p in
    let psi_k := mmap2 Cmult psi_k (phase c k2) in
    ifft2 psi_k) w.

(** The field just before the renormalisation of lines 57-58. *)
Definition evolve (c : config) (e : env) (w : np (matrix C)) : np (matrix C) :=
  half_step c (V e) (kinetic c (K2 e) (half_step c (V e) w)).

(** One pass through the loop body, lines 46-58. *)
Definition step (c : config) (e : env) (w : np (matrix C)) : np (matrix C) :=
  normalize (dx e) (dy e) (evolve c e w).

(** [psi] after [t] passes. *)
Fixpoint psi_at (c : config) (e : env) (t : nat) : np (matrix C) :=
  match t with
  | O => psi e
  | S k => step c e (psi_at c e k)
  end.

(** Line 61. *)
Definition density (w : np (matrix C)) : np (matrix R) := np_map abs2 w.

(** Lines 9-61: [for _ in range(steps)] runs [max(steps, 0)] passes. *)
Definition run (c : config) : result (np (matrix R)) :=
  e <- setup c ;;
  ret (density (psi_at c e (Z.to_nat (steps c)))).

(** The field the renormalisation at the end of pass [t] divides, pass 0
    being the initialisation of lines 34-35. *)
Definition before_norm (c : config) (e : env) (t : nat) : np (matrix C) :=
  match t with
  | O => gaussian c (X e) (Y e)
  | S k => evolve c e (psi_at c e k)
  end.

(** The divisor of that renormalisation: [None] when the field or the
    square root is not finite. *)
Definition divisor (c : config) (e : env) (t : nat) : option R :=
  match before_norm c e t with
  | Finite p => norm_of (dx e) (dy e) p
  | NonFinite => None
  end.

(** [sum(|p|^2) * dx * dy]. *)
Definition l2 (hx hy : R) (p : matrix C) : R := np_sum (abs2 p) * hx * hy.

(** ** Notions used to state the properties *)

(** The integer that bin [i] of an [n]-point transform stands for. *)
Definition bin (n : Z) (i : nat) : Z :=
  if (Z.of_nat i <? (n - 1) / 2 + 1)%Z then Z.of_nat i else (Z.of_nat i - n)%Z.

(** The script's constants with a negative width for the Gaussian. *)
Definition negative_sigma_config : config := {|
  Nx := 256; Ny := 256; Lx := 10; Ly := 10; dt := 2 / 10000;
  g := 1; V0 := 10; a := 2; sigma := -1; steps := 2000
|}.

(** The potential as a function of continuous coordinates:
    [V0 (cos^2(pi u / a) + cos^2(pi v / a))]. *)
Definition V_at (c : config) (u v : R) : R :=
  V0 c * (cos (PI * u / a c) ^ 2 + cos (PI * v / a c) ^ 2).

(** The script's constants with a negative depth, and a period for which
    the grid corner is a maximum of both cosines. *)
Definition negative_V0_config : config := {|
  Nx := 256; Ny := 256; Lx := 10; Ly := 10; dt := 2 / 10000;
  g := 1; V0 := -1; a := 5; sigma := 1; steps := 2000
|}.

(** The index of the opposite frequency: [-l mod n]. *)
Definition neg (n l : nat) : nat := ((n - l) mod n)%nat.

(** [exp(2 pi i z / n)] for an integer [z]. *)
Definition W (n : nat) (z : Z) : C := cis (2 * PI * IZR z / INR n).

(** The script's constants with a zero width for the Gaussian. *)
Definition zero_sigma_config : config := {|
  Nx := 256; Ny := 256; Lx := 10; Ly := 10; dt := 2 / 10000;
  g := 1; V0 := 10; a := 2; sigma := 0; steps := 2000
|}.

(** The range in which the scalar operations of setup behave in double
    precision as they do in exact arithmetic: an array length that numpy can
    index, a square [v**2] below the overflow threshold (beyond it Python's
    [**] raises [OverflowError]), and a quotient [u / n] that is not so small
    that it rounds to zero. *)
Definition index_sized (n : Z) : Prop := (Z.abs n < 2 ^ 63)%Z.
Definition square_fits (v : R) : Prop := v ^ 2 <= 2 ^ 1023.
Definition quotient_fits (u : R) (n : Z) : Prop := / 2 ^ 1022 <= Rabs (u / IZR n).

(** The script's constants with the extent along [x] given as [-10]. *)
Definition negative_Lx_config : config := {|
  Nx := 256; Ny := 256; Lx := -10; Ly := 10; dt := 2 / 10000;
  g := 1; V0 := 10; a := 2; sigma := 1; steps := 2000
|}.

(** The script's constants with a zero period for the potential. *)
Definition zero_period_config : config := {|
  Nx := 256; Ny := 256; Lx := 10; Ly := 10; dt := 2 / 10000;
  g := 1; V0 := 10; a := 0; sigma := 1; steps := 2000
|}.

(** The half step in the specification's words: every entry of [p] times
    [exp(-i (V + g |p|^2) dt / 2)], the density being that of [p] itself. *)
Definition strang_half (c : config) (vv : matrix R) (p : matrix C) : matrix C :=
  build2 (length p) (ncols p) (fun i j =>
    Cmult (getC p i j)
          (cis (- (getR vv i j + g c * Cmod (getC p i j) ^ 2) * dt c / 2))).

(** The kinetic step in the specification's words: forward transform, every
    entry times [exp(-i K2 dt / 2)], inverse transform. *)
Definition strang_kinetic (c : config) (k2 : matrix R) (p : matrix C) : matrix C :=
  ifft2 (build2 (length p) (ncols p) (fun i j =>
    Cmult (getC (fft2 p) i j) (cis (- getR k2 i j * dt c / 2)))).

(** Invariance under the point reflection [(i, j) -> (r-1-i, s-1-j)]. *)
Definition symmetric {A : Type} (r s : nat) (F : nat -> nat -> A) : Prop :=
  forall i j, (i < r)%nat -> (j < s)%nat -> F (r - 1 - i)%nat (s - 1 - j)%nat = F i j.

(** Invariance under [(k, l) -> (-k mod r, -l mod s)]. *)
Definition even {A : Type} (r s : nat) (F : nat -> nat -> A) : Prop :=
  forall k l, (k < r)%nat -> (l < s)%nat -> F (neg r k) (neg s l) = F k l.

(** Entry [(i, j)] of the kinetic step, as sums over the entries of the
    field [P] and the multiplier [Mu]. *)
Definition kinetic_entry (r s : nat) (P Mu : nat -> nat -> C) (i j : nat) : C :=
  Cdivr (dft 1 r (fun k =>
           Cdivr (dft 1 s (fun l =>
                    Cmult (dft (-1) r (fun m => dft (-1) s (fun n => P m n) l) k)
                          (Mu k l)) j) (INR s)) i) (INR r).

(** Every entry of the array is zero. *)
Definition vanishes (r s : nat) (p : matrix C) : Prop :=
  forall i j, (i < r)%nat -> (j < s)%nat -> getC p i j = C0.

(** Complex conjugate. *)
Definition Cconj (z : C) : C := (Re z, - Im z).

(** [f 0 + ... + f (n-1)] for real terms. *)
Fixpoint Rsum (f : nat -> R) (n : nat) : R :=
  match n with
  | O => 0
  | S k => Rsum f k + f k
  end.

(** A mirror of an axis of [n] points, applied or not: the index
    [n-1-i] in space, the opposite bin in frequency, and the factor the
    transform picks up in bin [k]. *)
Definition flip (b : bool) (n i : nat) : nat := if b then (n - 1 - i)%nat else i.
Definition flip_bin (b : bool) (n k : nat) : nat := if b then neg n k else k.
Definition flip_factor (b : bool) (n k : nat) : C :=
  if b then W n (- Z.of_nat k) else Cone.

(** Invariance of a 2D array under the mirrors chosen by [mx] and [my]. *)
Definition mirrored {A : Type} (mx my : bool) (r s : nat) (F : nat -> nat -> A) : Prop :=
  forall i j, (i < r)%nat -> (j < s)%nat -> F (flip mx r i) (flip my s j) = F i j.

(** The script's constants with a zero time step; with no interaction and
    no potential; with no pass of the loop; and with a single grid point
    along [x]. *)
Definition zero_dt_config : config := {|
  Nx := 256; Ny := 256; Lx := 10; Ly := 10; dt := 0;
  g := 1; V0 := 10; a := 2; sigma := 1; steps := 2000
|}.
Definition free_config : config := {|
  Nx := 256; Ny := 256; Lx := 10; Ly := 10; dt := 2 / 10000;
  g := 0; V0 := 0; a := 2; sigma := 1; steps := 2000
|}.
Definition no_steps_config : config := {|
  Nx := 256; Ny := 256; Lx := 10; Ly := 10; dt := 2 / 10000;
  g := 1; V0 := 10; a := 2; sigma := 1; steps := -3
|}.
Definition one_column_config : config := {|
  Nx := 1; Ny := 256; Lx := 10; Ly := 10; dt := 2 / 10000;
  g := 1; V0 := 10; a := 2; sigma := 1; steps := 2000
|}.

(** The same configuration run backwards in time. *)
Definition reversed (c : config) : config := {|
  Nx := Nx c; Ny := Ny c; Lx := Lx c; Ly := Ly c; dt := - dt c;
  g := g c; V0 := V0 c; a := a c; sigma := sigma c; steps := steps c
|}.

(** Invariance of a square array under the exchange of its two indices. *)
Definition exchanged {A : Type} (r : nat) (F : nat -> nat -> A) : Prop :=
  forall i j, (i < r)%nat -> (j < r)%nat -> F j i = F i j.

(** * Properties *)

(** ** Lists and 2D arrays *)

Lemma length_map2 {A B D : Type} (f : A -> B -> D) (l : list A) (m : list B) :
  length (map2 f l m) = Nat.min (length l) (length m).
Proof.
  revert m; induction l as [|u l IH]; intros [|v m]; simpl; auto.
Qed.

Lemma nth_map2 {A B D : Type} (f : A -> B -> D) (da : A) (db : B) (dd : D) (l : list A) (m : list B) (i : nat) :
  (i < length l)%nat -> (i < length m)%nat ->
  nth i (map2 f l m) dd = f (nth i l da) (nth i m db).
Proof.
  revert m i; induction l as [|u l IH]; intros [|v m] [|i]; simpl; intros; try lia; auto.
  apply IH; lia.
Qed.

Lemma nth_map_in {A B : Type} (f : A -> B) (da : A) (db : B) (l : list A) (i : nat) :
  (i < length l)%nat -> nth i (map f l) db = f (nth i l da).
Proof.
  revert i; induction l as [|u l IH]; intros [|i]; simpl; intros; try lia; auto.
  apply IH; lia.
Qed.

Lemma nth_tabulate {A : Type} (f : nat -> A) (d : A) (n i : nat) :
  (i < n)%nat -> nth i (map f (seq 0 n)) d = f i.
Proof.
  intros Hi. rewrite (nth_map_in f 0%nat d) by (rewrite length_seq; lia).
  rewrite seq_nth by lia. reflexivity.
Qed.

Lemma shape_row {A : Type} (m : matrix A) (r c i : nat) :
  shape m r c -> (i < r)%nat -> length (nth i m []) = c.
Proof.
  intros [Hr Hc] Hi. rewrite Forall_forall in Hc. apply Hc, nth_In. lia.
Qed.

Lemma shape_build2 {A : Type} (r c : nat) (f : nat -> nat -> A) : shape (build2 r c f) r c.
Proof.
  split.
  - unfold build2. now rewrite length_map, length_seq.
  - apply Forall_forall. intros row Hin. unfold build2 in Hin.
    apply in_map_iff in Hin. destruct Hin as [i [<- _]].
    now rewrite length_map, length_seq.
Qed.

Lemma get_build2 {A : Type} (d : A) (r c : nat) (f : nat -> nat -> A) (i j : nat) :
  (i < r)%nat -> (j < c)%nat -> get d (build2 r c f) i j = f i j.
Proof.
  intros Hi Hj. unfold get, build2.
  rewrite (nth_tabulate _ [] r i Hi). now apply nth_tabulate.
Qed.

Lemma shape_mmap {A B : Type} (f : A -> B) (m : matrix A) (r c : nat) :
  shape m r c -> shape (mmap f m) r c.
Proof.
  intros [Hr Hc]. split.
  - unfold mmap. now rewrite length_map.
  - unfold mmap. apply Forall_forall. intros row Hin.
    apply in_map_iff in Hin. destruct Hin as [row' [<- Hin]].
    rewrite length_map. rewrite Forall_forall in Hc. auto.
Qed.

Lemma get_mmap {A B : Type} (f : A -> B) (da : A) (db : B) (m : matrix A) (r c i j : nat) :
  shape m r c -> (i < r)%nat -> (j < c)%nat ->
  get db (mmap f m) i j = f (get da m i j).
Proof.
  intros Hs Hi Hj. unfold get, mmap.
  rewrite (nth_map_in (map f) [] []) by (destruct Hs; lia).
  apply nth_map_in. rewrite (shape_row m r c); auto.
Qed.

Lemma shape_mmap2 {A B D : Type} (f : A -> B -> D) (m : matrix A) (n : matrix B) (r c : nat) :
  shape m r c -> shape n r c -> shape (mmap2 f m n) r c.
Proof.
  intros [Hr Hc] [Hr' Hc']. unfold mmap2. split.
  - rewrite length_map2. lia.
  - clear Hr Hr'. revert n Hc'.
    induction m as [|u m IH]; intros [|v n] Hn; simpl; auto.
    inversion Hc; inversion Hn; subst. constructor.
    + rewrite length_map2. lia.
    + apply IH; auto.
Qed.

Lemma get_mmap2 {A B D : Type} (f : A -> B -> D) (da : A) (db : B) (dd : D)
      (m : matrix A) (n : matrix B) (r c i j : nat) :
  shape m r c -> shape n r c -> (i < r)%nat -> (j < c)%nat ->
  get dd (mmap2 f m n) i j = f (get da m i j) (get db n i j).
Proof.
  intros Hm Hn Hi Hj. unfold get, mmap2.
  rewrite (nth_map2 (map2 f) [] [] []) by (destruct Hm, Hn; lia).
  apply nth_map2.
  - rewrite (shape_row m r c); auto.
  - rewrite (shape_row n r c); auto.
Qed.

(** Two arrays of one shape with equal entries are equal. *)
Lemma matrix_ext {A : Type} (d : A) (m n : matrix A) (r c : nat) :
  shape m r c -> shape n r c ->
  (forall i j, (i < r)%nat -> (j < c)%nat -> get d m i j = get d n i j) ->
  m = n.
Proof.
  intros Hm Hn Heq.
  apply (nth_ext m n [] []).
  - destruct Hm, Hn; lia.
  - intros i Hi. destruct Hm as [Hr Hc]. rewrite Hr in Hi.
    apply (nth_ext _ _ d d).
    + rewrite (shape_row m r c), (shape_row n r c); auto. now split.
    + intros j Hj. rewrite (shape_row m r c) in Hj; auto; [|now split].
      apply (Heq i j Hi Hj).
Qed.

Lemma shape_meshgrid (u v : list R) :
  shape (fst (meshgrid u v)) (length u) (length v) /\
  shape (snd (meshgrid u v)) (length u) (length v).
Proof.
  unfold meshgrid; simpl. split; split; try now rewrite length_map.
  - apply Forall_forall. intros row Hin. apply in_map_iff in Hin.
    destruct Hin as [ui [<- _]]. now rewrite length_map.
  - apply Forall_forall. intros row Hin. apply in_map_iff in Hin.
    destruct Hin as [ui [<- _]]. reflexivity.
Qed.

Lemma get_meshgrid (u v : list R) (i j : nat) :
  (i < length u)%nat -> (j < length v)%nat ->
  getR (fst (meshgrid u v)) i j = nth i u 0 /\
  getR (snd (meshgrid u v)) i j = nth j v 0.
Proof.
  intros Hi Hj. unfold getR, get, meshgrid; simpl. split.
  - rewrite (nth_map_in _ 0 []) by auto.
    rewrite (nth_map_in _ 0 0) by auto. reflexivity.
  - rewrite (nth_map_in _ 0 []) by auto. reflexivity.
Qed.

(** ** The error monad *)

Lemma bind_inr {A B : Type} (m : result A) (k : A -> result B) (v : B) :
  bind m k = inr v -> exists u, m = inr u /\ k u = inr v.
Proof.
  destruct m as [e|u]; simpl; [discriminate|]. intros H. now exists u.
Qed.

Lemma py_div_inr (u : R) (n : Z) (q : R) :
  py_div u n = inr q -> n <> 0%Z /\ q = u / IZR n.
Proof.
  unfold py_div. destruct (Z.eqb_spec n 0); [discriminate|].
  intros H; inversion H; auto.
Qed.

(** ** [arange] and [linspace] *)

Lemma length_arange (lo hi : Z) : length (arange lo hi) = Z.to_nat (hi - lo).
Proof. unfold arange. now rewrite length_map, length_seq. Qed.

Lemma nth_arange (lo hi : Z) (i : nat) :
  (i < Z.to_nat (hi - lo))%nat -> nth i (arange lo hi) 0%Z = (lo + Z.of_nat i)%Z.
Proof. intros Hi. unfold arange. now rewrite nth_tabulate. Qed.

Lemma length_set_last {A : Type} (l : list A) (v : A) :
  l <> [] -> length (set_last l v) = length l.
Proof.
  intros Hl. unfold set_last. rewrite length_app; simpl.
  destruct l as [|u l]; [congruence|].
  rewrite removelast_firstn_len, length_firstn. simpl. lia.
Qed.

Lemma nth_set_last {A : Type} (l : list A) (v d : A) (i : nat) :
  (i < length l)%nat ->
  nth i (set_last l v) d = if (S i =? length l)%nat then v else nth i l d.
Proof.
  unfold set_last. revert i. induction l as [|u l IH]; intros i Hi; simpl in Hi; [lia|].
  destruct l as [|u' l].
  - destruct i; [reflexivity | simpl in Hi; lia].
  - destruct i as [|i].
    + reflexivity.
    + change (nth i (removelast (u' :: l) ++ [v]) d =
              if (S i =? length (u' :: l))%nat then v else nth i (u' :: l) d).
      apply IH. simpl in *; lia.
Qed.

Lemma linspace_inr (start stop : R) (num : Z) (l : list R) :
  linspace start stop num = inr l ->
  (0 <= num)%Z /\ length l = Z.to_nat num.
Proof.
  unfold linspace. destruct (Z.ltb_spec num 0) as [Hneg|Hpos]; [discriminate|].
  intros Heq; inversion Heq; clear Heq. split; [lia|].
  assert (Hlen : forall f : R -> R,
             length (map f (map (fun i => IZR i) (arange 0 num))) = Z.to_nat num).
  { intros f. rewrite !length_map, length_arange. f_equal; lia. }
  destruct (Z.ltb_spec 1 num) as [H1|H1].
  - rewrite length_set_last.
    + destruct (0 <? num - 1)%Z; apply Hlen.
    + intros Hnil. apply (f_equal (@length R)) in Hnil. simpl in Hnil.
      destruct (0 <? num - 1)%Z; rewrite Hlen in Hnil; lia.
  - destruct (0 <? num - 1)%Z; apply Hlen.
Qed.

(** With at least two points, the grid runs from [start] to [stop] inclusive
    in steps of [(stop - start) / (num - 1)]. *)
Lemma linspace_nth (start stop : R) (num : Z) (l : list R) (i : nat) :
  (1 < num)%Z -> linspace start stop num = inr l -> (i < Z.to_nat num)%nat ->
  nth i l 0 = start + INR i * ((stop - start) / IZR (num - 1)).
Proof.
  intros H1 H Hi. unfold linspace in H.
  destruct (Z.ltb_spec num 0); [lia|].
  destruct (Z.ltb_spec 0 (num - 1)); [|lia].
  destruct (Z.ltb_spec 1 num); [|lia].
  inversion H; clear H.
  assert (Hlen : length (map (fun v => v * ((stop - start) / IZR (num - 1)) + start)
                   (map (fun i => IZR i) (arange 0 num))) = Z.to_nat num).
  { rewrite !length_map, length_arange. f_equal; lia. }
  rewrite nth_set_last by lia. rewrite Hlen.
  destruct (Nat.eqb_spec (S i) (Z.to_nat num)) as [Hlast|Hlast].
  - assert (Hi' : INR i = IZR (num - 1)).
    { rewrite INR_IZR_INZ. f_equal. lia. }
    rewrite Hi'. field. apply not_0_IZR. lia.
  - rewrite (nth_map_in _ 0 0) by (rewrite length_map, length_arange; lia).
    rewrite (nth_map_in _ 0%Z 0) by (rewrite length_arange; lia).
    rewrite nth_arange by lia. rewrite INR_IZR_INZ. simpl. lra.
Qed.

Lemma linspace_ok (start stop : R) (num : Z) :
  (0 <= num)%Z -> exists l, linspace start stop num = inr l.
Proof.
  intros Hnum. unfold linspace. destruct (Z.ltb_spec num 0); [lia|].
  eexists. reflexivity.
Qed.

Lemma linspace_one (start stop : R) : linspace start stop 1 = inr [start].
Proof.
  unfold linspace. simpl. unfold ret. do 2 f_equal. ring.
Qed.

(** ** [fftfreq] *)

Lemma fftfreq_inr (n : Z) (d : R) (l : list R) :
  fftfreq n d = inr l ->
  IZR n * d <> 0 /\ (0 < n)%Z /\ length l = Z.to_nat n /\
  forall i, (i < Z.to_nat n)%nat -> nth i l 0 = IZR (bin n i) * (1 / (IZR n * d)).
Proof.
  unfold fftfreq. destruct (Req_dec_T (IZR n * d) 0) as [Hz|Hz]; [discriminate|].
  destruct (Z.ltb_spec n 0) as [Hneg|Hpos]; [discriminate|].
  intros Heq; inversion Heq; clear Heq.
  assert (Hn : (0 < n)%Z).
  { destruct (Z.eq_dec n 0) as [->|]; [|lia]. exfalso. apply Hz. simpl. lra. }
  assert (Hlen : length (arange 0 ((n - 1) / 2 + 1) ++ arange (- (n / 2)) 0) = Z.to_nat n).
  { rewrite length_app, !length_arange. Z.div_mod_to_equations. lia. }
  repeat split; auto.
  - now rewrite length_map.
  - intros i Hi. rewrite (nth_map_in _ 0%Z 0) by lia. f_equal. f_equal.
    unfold bin. destruct (Z.ltb_spec (Z.of_nat i) ((n - 1) / 2 + 1)) as [Hlo|Hhi].
    + rewrite app_nth1 by (rewrite length_arange; lia).
      rewrite nth_arange by lia. lia.
    + rewrite app_nth2 by (rewrite length_arange; lia).
      rewrite length_arange. rewrite nth_arange.
      * Z.div_mod_to_equations. lia.
      * Z.div_mod_to_equations. lia.
Qed.

Lemma fftfreq_ok (n : Z) (d : R) :
  (0 < n)%Z -> d <> 0 -> exists l, fftfreq n d = inr l.
Proof.
  intros Hn Hd. unfold fftfreq.
  destruct (Req_dec_T (IZR n * d) 0) as [Hz|Hz].
  - exfalso. apply Rmult_integral in Hz. destruct Hz as [Hz|Hz]; [|auto].
    apply eq_IZR_R0 in Hz. lia.
  - destruct (Z.ltb_spec n 0); [lia|]. eexists; reflexivity.
Qed.

(** ** What [setup] has computed when it returns *)

Lemma setup_inr (c : config) (e : env) :
  setup c = inr e ->
  (0 < Nx c)%Z /\ (0 < Ny c)%Z /\ Lx c <> 0 /\ Ly c <> 0 /\
  dx e = Lx c / IZR (Nx c) /\ dy e = Ly c / IZR (Ny c) /\
  linspace (- Lx c / 2) (Lx c / 2) (Nx c) = inr (x e) /\
  linspace (- Ly c / 2) (Ly c / 2) (Ny c) = inr (y e) /\
  X e = fst (meshgrid (x e) (y e)) /\ Y e = snd (meshgrid (x e) (y e)) /\
  V e = potential c (X e) (Y e) /\
  psi e = normalize (dx e) (dy e) (gaussian c (X e) (Y e)) /\
  (exists fx, fftfreq (Nx c) (dx e) = inr fx /\ kx e = map (fun v => 2 * PI * v) fx) /\
  (exists fy, fftfreq (Ny c) (dy e) = inr fy /\ ky e = map (fun v => 2 * PI * v) fy) /\
  K2 e = mmap2 Rplus (mmap (fun v => v ^ 2) (fst (meshgrid (kx e) (ky e))))
                     (mmap (fun v => v ^ 2) (snd (meshgrid (kx e) (ky e)))).
Proof.
  unfold setup. intros H.
  apply bind_inr in H. destruct H as [hx [Hhx H]].
  apply bind_inr in H. destruct H as [hy [Hhy H]].
  apply bind_inr in H. destruct H as [gx [Hgx H]].
  apply bind_inr in H. destruct H as [gy [Hgy H]].
  cbv beta iota zeta in H. unfold meshgrid at 1 in H. cbv beta iota zeta in H.
  apply bind_inr in H. destruct H as [fx [Hfx H]].
  apply bind_inr in H. destruct H as [fy [Hfy H]].
  inversion H; subst e; clear H; cbn [dx dy x y X Y V psi kx ky K2].
  apply py_div_inr in Hhx. destruct Hhx as [Hnx ->].
  apply py_div_inr in Hhy. destruct Hhy as [Hny ->].
  destruct (fftfreq_inr _ _ _ Hfx) as [Hzx [Hpx _]].
  destruct (fftfreq_inr _ _ _ Hfy) as [Hzy [Hpy _]].
  assert (HLx : Lx c <> 0).
  { intros H0. apply Hzx. rewrite H0. unfold Rdiv. ring. }
  assert (HLy : Ly c <> 0).
  { intros H0. apply Hzy. rewrite H0. unfold Rdiv. ring. }
  repeat split; auto.
  - exists fx; auto.
  - exists fy; auto.
Qed.

Lemma setup_ok (c : config) :
  (0 < Nx c)%Z -> (0 < Ny c)%Z -> Lx c <> 0 -> Ly c <> 0 ->
  exists e, setup c = inr e.
Proof.
  intros Hnx Hny HLx HLy. unfold setup.
  unfold py_div. destruct (Z.eqb_spec (Nx c) 0); [lia|].
  destruct (Z.eqb_spec (Ny c) 0); [lia|]. unfold ret at 1 2. cbn [bind].
  destruct (linspace_ok (- Lx c / 2) (Lx c / 2) (Nx c)) as [gx ->]; [lia|].
  destruct (linspace_ok (- Ly c / 2) (Ly c / 2) (Ny c)) as [gy ->]; [lia|].
  cbn [bind]. unfold meshgrid at 1. cbv beta iota zeta.
  destruct (fftfreq_ok (Nx c) (Lx c / IZR (Nx c))) as [fx ->]; [lia| |].
  { intros H0. apply HLx. apply (Rmult_eq_reg_r (/ IZR (Nx c))).
    - unfold Rdiv in H0. rewrite H0. ring.
    - apply Rinv_neq_0_compat, not_0_IZR. lia. }
  destruct (fftfreq_ok (Ny c) (Ly c / IZR (Ny c))) as [fy ->]; [lia| |].
  { intros H0. apply HLy. apply (Rmult_eq_reg_r (/ IZR (Ny c))).
    - unfold Rdiv in H0. rewrite H0. ring.
    - apply Rinv_neq_0_compat, not_0_IZR. lia. }
  cbn [bind]. eexists. reflexivity.
Qed.

(** ** Complex arithmetic *)

Ltac cunfold :=
  unfold Cdivr, Cscale, Cmult, Cplus, Copp, RtoC, Ci, C0, Cone, cis, Re, Im in *;
  cbn [fst snd] in *.

(** Closes a ring identity between complex numbers part by part. *)
Ltac cring :=
  intros; cunfold; apply injective_projections; cbn [fst snd]; ring.

Lemma Cplus_comm (z w : C) : Cplus z w = Cplus w z.
Proof. cring. Qed.
Lemma Cplus_assoc (z w u : C) : Cplus z (Cplus w u) = Cplus (Cplus z w) u.
Proof. cring. Qed.
Lemma Cplus_0_l (z : C) : Cplus C0 z = z.
Proof. cring. Qed.
Lemma Cplus_0_r (z : C) : Cplus z C0 = z.
Proof. cring. Qed.
Lemma Cmult_comm (z w : C) : Cmult z w = Cmult w z.
Proof. cring. Qed.
Lemma Cmult_assoc (z w u : C) : Cmult z (Cmult w u) = Cmult (Cmult z w) u.
Proof. cring. Qed.
Lemma Cmult_1_l (z : C) : Cmult Cone z = z.
Proof. cring. Qed.
Lemma Cmult_1_r (z : C) : Cmult z Cone = z.
Proof. cring. Qed.
Lemma Cmult_0_l (z : C) : Cmult C0 z = C0.
Proof. cring. Qed.
Lemma Cmult_0_r (z : C) : Cmult z C0 = C0.
Proof. cring. Qed.
Lemma Cmult_plus_distr_l (z w u : C) :
  Cmult z (Cplus w u) = Cplus (Cmult z w) (Cmult z u).
Proof. cring. Qed.
Lemma Cmult_plus_distr_r (z w u : C) :
  Cmult (Cplus z w) u = Cplus (Cmult z u) (Cmult w u).
Proof. cring. Qed.

Lemma Cdivr_plus (z w : C) (r : R) : Cdivr (Cplus z w) r = Cplus (Cdivr z r) (Cdivr w r).
Proof. destruct z, w. cunfold. unfold Rdiv. f_equal; ring. Qed.
Lemma Cdivr_mult_l (z w : C) (r : R) : Cdivr (Cmult z w) r = Cmult (Cdivr z r) w.
Proof. destruct z, w. cunfold. unfold Rdiv. f_equal; ring. Qed.
Lemma Cdivr_mult_r (z w : C) (r : R) : Cdivr (Cmult z w) r = Cmult z (Cdivr w r).
Proof. destruct z, w. cunfold. unfold Rdiv. f_equal; ring. Qed.
Lemma Cdivr_0 (r : R) : Cdivr C0 r = C0.
Proof. cunfold. unfold Rdiv. f_equal; ring. Qed.

(** [np.abs(z)**2] is [re^2 + im^2]. *)
Lemma Cmod_sqr (z : C) : Cmod z ^ 2 = Re z * Re z + Im z * Im z.
Proof.
  unfold Cmod. simpl. rewrite Rmult_1_r. apply sqrt_sqrt. nra.
Qed.

Lemma Cmod_sqr_nonneg (z : C) : 0 <= Cmod z ^ 2.
Proof. rewrite Cmod_sqr. nra. Qed.

Lemma Cmod_sqr_mult (z w : C) : Cmod (Cmult z w) ^ 2 = Cmod z ^ 2 * Cmod w ^ 2.
Proof. rewrite !Cmod_sqr. destruct z, w. cunfold. ring. Qed.

Lemma Cmod_sqr_divr (z : C) (r : R) :
  r <> 0 -> Cmod (Cdivr z r) ^ 2 = Cmod z ^ 2 / r ^ 2.
Proof. intros Hr. rewrite !Cmod_sqr. destruct z. cunfold. now field. Qed.

Lemma Cmod_sqr_cis (t : R) : Cmod (cis t) ^ 2 = 1.
Proof.
  rewrite Cmod_sqr. cunfold. generalize (sin2_cos2 t). unfold Rsqr. lra.
Qed.

(** ** Sums over arrays *)

Lemma Rsum_list_scale (k : R) (l : list R) :
  Rsum_list (map (fun v => k * v) l) = k * Rsum_list l.
Proof. induction l as [|u l IH]; simpl; [ring | rewrite IH; ring]. Qed.

Lemma np_sum_scale (k : R) (m : matrix R) :
  np_sum (mmap (fun v => k * v) m) = k * np_sum m.
Proof.
  induction m as [|row m IH]; [unfold np_sum; simpl; ring|].
  change (Rsum_list (map (fun v => k * v) row) + np_sum (mmap (fun v => k * v) m)
          = k * (Rsum_list row + np_sum m)).
  rewrite Rsum_list_scale, IH. ring.
Qed.

Lemma Rsum_list_nonneg (l : list R) :
  (forall v, In v l -> 0 <= v) -> 0 <= Rsum_list l.
Proof.
  induction l as [|u l IH]; simpl; intros H; [lra|].
  assert (0 <= u) by (apply H; auto). assert (0 <= Rsum_list l) by (apply IH; auto). lra.
Qed.

Lemma Rsum_list_pos (l : list R) :
  l <> [] -> (forall v, In v l -> 0 < v) -> 0 < Rsum_list l.
Proof.
  intros Hne H. destruct l as [|u l]; [congruence|]. simpl.
  assert (0 < u) by (apply H; simpl; auto).
  assert (0 <= Rsum_list l).
  { apply Rsum_list_nonneg. intros v Hv. apply Rlt_le, H. simpl; auto. }
  lra.
Qed.

Lemma np_sum_nonneg (m : matrix R) :
  (forall row, In row m -> forall v, In v row -> 0 <= v) -> 0 <= np_sum m.
Proof.
  intros H. apply Rsum_list_nonneg. intros s Hs. apply in_map_iff in Hs.
  destruct Hs as [row [<- Hrow]]. apply Rsum_list_nonneg. eauto.
Qed.

Lemma np_sum_pos (m : matrix R) :
  m <> [] -> (forall row, In row m -> row <> [] /\ forall v, In v row -> 0 < v) ->
  0 < np_sum m.
Proof.
  intros Hne H. apply Rsum_list_pos.
  - destruct m; [congruence | discriminate].
  - intros s Hs. apply in_map_iff in Hs. destruct Hs as [row [<- Hrow]].
    destruct (H row Hrow). now apply Rsum_list_pos.
Qed.

Lemma in_mmap {A B : Type} (f : A -> B) (m : matrix A) (row : list B) :
  In row (mmap f m) -> exists row', In row' m /\ row = map f row'.
Proof.
  unfold mmap. intros H. apply in_map_iff in H. destruct H as [row' [<- H]]. eauto.
Qed.

Lemma abs2_nonneg (p : matrix C) : 0 <= np_sum (abs2 p).
Proof.
  apply np_sum_nonneg. intros row Hrow v Hv. unfold abs2 in Hrow.
  apply in_mmap in Hrow. destruct Hrow as [r1 [Hr1 ->]].
  apply in_mmap in Hr1. destruct Hr1 as [r2 [_ ->]].
  rewrite map_map in Hv. apply in_map_iff in Hv. destruct Hv as [z [<- _]].
  apply Cmod_sqr_nonneg.
Qed.

Lemma abs2_divr (p : matrix C) (n : R) :
  n <> 0 ->
  abs2 (mmap (fun z => Cdivr z n) p) = mmap (fun v => / n ^ 2 * v) (abs2 p).
Proof.
  intros Hn. unfold abs2, mmap. rewrite !map_map. apply map_ext. intros row.
  rewrite !map_map. apply map_ext. intros z.
  rewrite Cmod_sqr_divr by auto. unfold Rdiv. ring.
Qed.

(** ** Renormalisation *)

Lemma norm_of_Some (hx hy : R) (p : matrix C) (n : R) :
  norm_of hx hy p = Some n -> 0 <= l2 hx hy p /\ n = sqrt (l2 hx hy p).
Proof.
  unfold norm_of, np_sqrt, l2. destruct (Rlt_dec _ 0) as [Hlt|Hge]; [discriminate|].
  intros H; inversion H. split; [lra | reflexivity].
Qed.

(** Dividing by a nonzero norm leaves a field of unit norm. *)
Lemma normalize_unit (hx hy : R) (p : matrix C) (n : R) :
  norm_of hx hy p = Some n -> n <> 0 ->
  normalize hx hy (Finite p) = Finite (mmap (fun z => Cdivr z n) p) /\
  l2 hx hy (mmap (fun z => Cdivr z n) p) = 1.
Proof.
  intros Hn Hn0. split.
  - unfold normalize; simpl. rewrite Hn. destruct (Req_dec_T n 0); [contradiction | reflexivity].
  - destruct (norm_of_Some _ _ _ _ Hn) as [Hpos Heq].
    unfold l2 in *. rewrite abs2_divr by auto. rewrite np_sum_scale.
    assert (Hsq : n ^ 2 = np_sum (abs2 p) * hx * hy).
    { rewrite Heq. simpl. rewrite Rmult_1_r. now apply sqrt_sqrt. }
    assert (Hn2 : n ^ 2 <> 0) by (apply pow_nonzero; auto).
    rewrite <- Hsq in *.
    replace (/ n ^ 2 * np_sum (abs2 p) * hx * hy)
      with (/ n ^ 2 * (np_sum (abs2 p) * hx * hy)) by ring.
    rewrite <- Hsq. now field.
Qed.

Lemma normalize_Finite (hx hy : R) (w : np (matrix C)) (q : matrix C) :
  normalize hx hy w = Finite q ->
  exists p n, w = Finite p /\ norm_of hx hy p = Some n /\ n <> 0 /\
              q = mmap (fun z => Cdivr z n) p.
Proof.
  destruct w as [p|]; simpl; [|discriminate].
  destruct (norm_of hx hy p) as [n|] eqn:Hn; [|discriminate].
  destruct (Req_dec_T n 0); [discriminate|].
  intros H; inversion H. exists p, n. auto.
Qed.

Lemma np_sum_pos_shape (m : matrix R) (r c : nat) :
  shape m r c -> (0 < r)%nat -> (0 < c)%nat ->
  (forall row, In row m -> forall v, In v row -> 0 < v) ->
  0 < np_sum m.
Proof.
  intros [Hr Hc] Hrpos Hcpos H. apply np_sum_pos.
  - intros ->. simpl in Hr. lia.
  - intros row Hrow. split; [|eauto].
    rewrite Forall_forall in Hc. specialize (Hc row Hrow).
    intros ->. simpl in Hc. lia.
Qed.

(** ** The grid that [setup] builds *)

Lemma setup_shapes (c : config) (e : env) :
  setup c = inr e ->
  length (x e) = Z.to_nat (Nx c) /\ length (y e) = Z.to_nat (Ny c) /\
  shape (X e) (Z.to_nat (Nx c)) (Z.to_nat (Ny c)) /\
  shape (Y e) (Z.to_nat (Nx c)) (Z.to_nat (Ny c)) /\
  length (kx e) = Z.to_nat (Nx c) /\ length (ky e) = Z.to_nat (Ny c) /\
  shape (K2 e) (Z.to_nat (Nx c)) (Z.to_nat (Ny c)).
Proof.
  intros H. apply setup_inr in H.
  destruct H as (_ & _ & _ & _ & _ & _ & Hx & Hy & HX & HY & _ & _ & Hkx & Hky & HK2).
  apply linspace_inr in Hx. destruct Hx as [_ Hx].
  apply linspace_inr in Hy. destruct Hy as [_ Hy].
  destruct Hkx as [fx [Hfx Hkx]]. destruct Hky as [fy [Hfy Hky]].
  apply fftfreq_inr in Hfx. destruct Hfx as (_ & _ & Hfx & _).
  apply fftfreq_inr in Hfy. destruct Hfy as (_ & _ & Hfy & _).
  assert (Lkx : length (kx e) = Z.to_nat (Nx c)) by (rewrite Hkx, length_map; auto).
  assert (Lky : length (ky e) = Z.to_nat (Ny c)) by (rewrite Hky, length_map; auto).
  destruct (shape_meshgrid (x e) (y e)) as [S1 S2]. rewrite Hx, Hy in S1, S2.
  destruct (shape_meshgrid (kx e) (ky e)) as [S3 S4]. rewrite Lkx, Lky in S3, S4.
  repeat split; try assumption; try (rewrite HX; apply S1); try (rewrite HY; apply S2).
  - rewrite HK2. destruct (shape_mmap2 Rplus
      (mmap (fun v => v ^ 2) (fst (meshgrid (kx e) (ky e))))
      (mmap (fun v => v ^ 2) (snd (meshgrid (kx e) (ky e))))
      (Z.to_nat (Nx c)) (Z.to_nat (Ny c))); auto using shape_mmap.
  - rewrite HK2. destruct (shape_mmap2 Rplus
      (mmap (fun v => v ^ 2) (fst (meshgrid (kx e) (ky e))))
      (mmap (fun v => v ^ 2) (snd (meshgrid (kx e) (ky e))))
      (Z.to_nat (Nx c)) (Z.to_nat (Ny c))); auto using shape_mmap.
Qed.

(** ** The initial Gaussian *)

Lemma gaussian_Finite (c : config) (gX gY : matrix R) :
  sigma c <> 0 ->
  gaussian c gX gY =
  Finite (mmap (fun v => RtoC (exp (- v / (2 * sigma c ^ 2))))
            (mmap2 Rplus (mmap (fun v => v ^ 2) gX) (mmap (fun v => v ^ 2) gY))).
Proof.
  intros Hs. unfold gaussian. cbv zeta.
  destruct (Req_dec_T (2 * sigma c ^ 2) 0) as [Hz|Hz]; [|reflexivity].
  exfalso. assert (sigma c ^ 2 = 0) by lra. apply Hs. nra.
Qed.

Lemma abs2_exp_pos {A : Type} (f : A -> R) (m : matrix A) (row : list R) (v : R) :
  In row (abs2 (mmap (fun u => RtoC (exp (f u))) m)) -> In v row -> 0 < v.
Proof.
  intros Hrow Hv. unfold abs2 in Hrow.
  apply in_mmap in Hrow. destruct Hrow as [r1 [Hr1 ->]].
  apply in_mmap in Hr1. destruct Hr1 as [r2 [Hr2 ->]].
  apply in_mmap in Hr2. destruct Hr2 as [r3 [_ ->]].
  rewrite !map_map in Hv. apply in_map_iff in Hv. destruct Hv as [u [<- _]].
  rewrite Cmod_sqr. cunfold. generalize (exp_pos (f u)). nra.
Qed.

Lemma gaussian_sum_pos (c : config) (e : env) :
  setup c = inr e -> sigma c <> 0 ->
  exists p0,
    gaussian c (X e) (Y e) = Finite p0 /\
    shape p0 (Z.to_nat (Nx c)) (Z.to_nat (Ny c)) /\
    (forall i j, (i < Z.to_nat (Nx c))%nat -> (j < Z.to_nat (Ny c))%nat ->
       getC p0 i j =
       RtoC (exp (- (getR (X e) i j ^ 2 + getR (Y e) i j ^ 2) / (2 * sigma c ^ 2)))) /\
    0 < np_sum (abs2 p0).
Proof.
  intros Hset Hs.
  destruct (setup_shapes c e Hset) as (_ & _ & SX & SY & _).
  destruct (setup_inr c e Hset) as (Hnx & Hny & _).
  set (r2 := mmap2 Rplus (mmap (fun v => v ^ 2) (X e)) (mmap (fun v => v ^ 2) (Y e))).
  assert (Sr2 : shape r2 (Z.to_nat (Nx c)) (Z.to_nat (Ny c))).
  { apply shape_mmap2; apply shape_mmap; assumption. }
  set (p0 := mmap (fun v => RtoC (exp (- v / (2 * sigma c ^ 2)))) r2).
  assert (Sp0 : shape p0 (Z.to_nat (Nx c)) (Z.to_nat (Ny c))) by (apply shape_mmap; assumption).
  exists p0.
  split; [apply gaussian_Finite; assumption|].
  split; [assumption|]. split.
  - intros i j Hi Hj. unfold getC, p0.
    rewrite (get_mmap _ 0 C0 r2 _ _ i j Sr2 Hi Hj). unfold r2.
    rewrite (get_mmap2 Rplus 0 0 0 _ _ _ _ i j (shape_mmap _ _ _ _ SX) (shape_mmap _ _ _ _ SY) Hi Hj).
    rewrite (get_mmap _ 0 0 (X e) _ _ i j SX Hi Hj).
    rewrite (get_mmap _ 0 0 (Y e) _ _ i j SY Hi Hj). reflexivity.
  - apply (np_sum_pos_shape _ (Z.to_nat (Nx c)) (Z.to_nat (Ny c))); try lia.
    + unfold abs2. now do 2 apply shape_mmap.
    + intros row Hrow v Hv.
      apply (abs2_exp_pos (fun u => - u / (2 * sigma c ^ 2)) r2 row v Hrow Hv).
Qed.

Lemma gaussian_norm (c : config) (e : env) :
  setup c = inr e -> sigma c <> 0 -> 0 < dx e * dy e ->
  exists p0 n,
    gaussian c (X e) (Y e) = Finite p0 /\
    shape p0 (Z.to_nat (Nx c)) (Z.to_nat (Ny c)) /\
    (forall i j, (i < Z.to_nat (Nx c))%nat -> (j < Z.to_nat (Ny c))%nat ->
       getC p0 i j =
       RtoC (exp (- (getR (X e) i j ^ 2 + getR (Y e) i j ^ 2) / (2 * sigma c ^ 2)))) /\
    norm_of (dx e) (dy e) p0 = Some n /\ 0 < n.
Proof.
  intros Hset Hs Hd.
  destruct (gaussian_sum_pos c e Hset Hs) as (p0 & Hg & Sp0 & Hval & Hsum).
  assert (Hl2 : 0 < np_sum (abs2 p0) * dx e * dy e).
  { rewrite Rmult_assoc. apply Rmult_lt_0_compat; assumption. }
  exists p0, (sqrt (np_sum (abs2 p0) * dx e * dy e)).
  split; [assumption|]. split; [assumption|]. split; [assumption|]. split.
  - unfold norm_of, np_sqrt. destruct (Rlt_dec _ 0); [lra | reflexivity].
  - now apply sqrt_lt_R0.
Qed.

Lemma setup_steps_pos (c : config) (e : env) :
  setup c = inr e -> 0 < Lx c -> 0 < Ly c -> 0 < dx e /\ 0 < dy e.
Proof.
  intros Hset HLx HLy.
  destruct (setup_inr c e Hset) as (Hnx & Hny & _ & _ & -> & -> & _).
  split; apply Rdiv_lt_0_compat; auto; apply IZR_lt; lia.
Qed.

(** ** The normalisation invariant *)

Lemma psi_at_normalize (c : config) (e : env) (t : nat) :
  setup c = inr e ->
  psi_at c e t = normalize (dx e) (dy e) (before_norm c e t).
Proof.
  intros Hset. destruct t as [|k]; simpl.
  - now destruct (setup_inr c e Hset) as (_ & _ & _ & _ & _ & _ & _ & _ & _ & _ & _ & Hpsi & _).
  - reflexivity.
Qed.

(** C1.  At every step boundary [t] (pass 0 is the initialisation), if the
    divisor [norm = sqrt(sum |psi|^2 dx dy)] of the renormalisation that ends
    pass [t] is a nonzero number, the field left by that renormalisation is
    finite and its discrete L2 norm [sum |psi|^2 dx dy] equals 1. *)
Theorem unit_norm_at_every_step_boundary (c : config) (e : env) (t : nat) (n : R) :
  setup c = inr e -> divisor c e t = Some n -> n <> 0 ->
  exists p, psi_at c e t = Finite p /\ l2 (dx e) (dy e) p = 1.
Proof.
  intros Hset Hdiv Hn. rewrite (psi_at_normalize c e t Hset).
  unfold divisor in Hdiv. destruct (before_norm c e t) as [p0|]; [|discriminate].
  destruct (normalize_unit (dx e) (dy e) p0 n Hdiv Hn) as [Hnorm Hone].
  exists (mmap (fun z => Cdivr z n) p0). auto.
Qed.

Lemma default_setup : exists e, setup default_config = inr e.
Proof. apply setup_ok; simpl; try lia; lra. Qed.

(** ** Spacing and symmetry of the spatial grid *)

Lemma linspace_spacing (start stop : R) (num : Z) (l : list R) :
  (1 < num)%Z -> linspace start stop num = inr l ->
  nth 0 l 0 = start /\
  nth (Z.to_nat num - 1) l 0 = stop /\
  forall i, (S i < Z.to_nat num)%nat ->
    nth (S i) l 0 - nth i l 0 = (stop - start) / IZR (num - 1).
Proof.
  intros H1 Hl. assert (Hd : IZR (num - 1) <> 0) by (apply not_0_IZR; lia).
  repeat split.
  - rewrite (linspace_nth start stop num l 0 H1 Hl) by lia. simpl. lra.
  - rewrite (linspace_nth start stop num l _ H1 Hl) by lia.
    rewrite INR_IZR_INZ. replace (Z.of_nat (Z.to_nat num - 1)) with (num - 1)%Z by lia.
    now field.
  - intros i Hi.
    rewrite (linspace_nth start stop num l (S i) H1 Hl) by lia.
    rewrite (linspace_nth start stop num l i H1 Hl) by lia.
    rewrite S_INR. now field.
Qed.

(** A grid from [-h] to [h] is its own mirror image: entry [n-1-i] is minus
    entry [i] (with one point there is only [-h], and [i = n-1-i]). *)
Lemma linspace_reflect (h : R) (num : Z) (l : list R) (i : nat) :
  linspace (- h) h num = inr l -> (i < Z.to_nat num)%nat ->
  nth (Z.to_nat num - 1 - i) l 0 = - nth i l 0 \/
  nth (Z.to_nat num - 1 - i) l 0 = nth i l 0.
Proof.
  intros Hl Hi. destruct (Z_lt_le_dec 1 num) as [H1|H1].
  - left. assert (Hd : IZR (num - 1) <> 0) by (apply not_0_IZR; lia).
    rewrite (linspace_nth (- h) h num l _ H1 Hl) by lia.
    rewrite (linspace_nth (- h) h num l i H1 Hl) by lia.
    rewrite minus_INR by lia. rewrite minus_INR by lia.
    rewrite (INR_IZR_INZ (Z.to_nat num)). rewrite Z2Nat.id by lia.
    rewrite minus_IZR in *. simpl (INR 1). field. exact Hd.
  - right. f_equal. lia.
Qed.

(** C3 on the script's own constants: [x] has 256 entries from -5 to +5
    inclusive, 10/255 apart, while [dx] is 10/256. *)
Theorem default_grid_reaches_right_endpoint :
  exists e,
    setup default_config = inr e /\
    length (x e) = 256%nat /\
    nth 0 (x e) 0 = - (10 / 2) /\
    nth 255 (x e) 0 = 10 / 2 /\
    (forall i, (i < 255)%nat -> nth (S i) (x e) 0 - nth i (x e) 0 = 10 / 255) /\
    dx e = 10 / 256 /\
    dx e <> 10 / 255.
Proof.
  destruct default_setup as [e He]. exists e. split; [assumption|].
  destruct (setup_inr default_config e He) as (_ & _ & _ & _ & Hdx & _ & Hx & _).
  destruct (setup_shapes default_config e He) as (Hlen & _).
  simpl in Hdx, Hx.
  destruct (linspace_spacing (- (10) / 2) (10 / 2) 256 (x e)) as (H0 & Hlast & Hstep);
    [lia | assumption |].
  split; [exact Hlen|]. split; [rewrite H0; lra|]. split; [exact Hlast|].
  split; [|split].
  - intros i Hi. rewrite Hstep.
    + simpl. lra.
    + change (Z.to_nat 256) with 256%nat. lia.
  - rewrite Hdx. reflexivity.
  - rewrite Hdx. lra.
Qed.

(** ** Configurations the script rejects, and those it does not *)

Lemma run_setup_error (c : config) (err : exn) :
  setup c = inl err -> run c = inl err.
Proof. intros H. unfold run. now rewrite H. Qed.

Lemma run_setup_ok (c : config) (e : env) :
  setup c = inr e -> run c = inr (density (psi_at c e (Z.to_nat (steps c)))).
Proof. intros H. unfold run. now rewrite H. Qed.

Lemma fftfreq_zero_spacing (n : Z) : fftfreq n 0 = inl ZeroDivisionError.
Proof.
  unfold fftfreq. destruct (Req_dec_T (IZR n * 0) 0) as [Hz|Hz]; [reflexivity|].
  exfalso. apply Hz. ring.
Qed.

Lemma setup_raises (c : config) :
  ((Nx c = 0 \/ Ny c = 0)%Z -> setup c = inl ZeroDivisionError) /\
  ((Nx c <> 0 /\ Ny c <> 0 /\ (Nx c < 0 \/ Ny c < 0))%Z -> setup c = inl ValueError) /\
  ((0 < Nx c)%Z /\ (0 < Ny c)%Z /\ (Lx c = 0 \/ Ly c = 0) ->
   setup c = inl ZeroDivisionError).
Proof.
  unfold setup, py_div. repeat split.
  - intros [H|H].
    + rewrite H. reflexivity.
    + rewrite H. destruct (Nx c =? 0)%Z; reflexivity.
  - intros (Hx & Hy & Hneg).
    destruct (Z.eqb_spec (Nx c) 0); [contradiction|].
    destruct (Z.eqb_spec (Ny c) 0); [contradiction|].
    cbn [bind ret]. unfold linspace at 1.
    destruct (Z.ltb_spec (Nx c) 0) as [Hn|Hn]; [reflexivity|].
    cbn [bind ret]. unfold linspace.
    destruct (Z.ltb_spec (Ny c) 0) as [Hm|Hm]; [reflexivity | lia].
  - intros (Hx & Hy & Hzero).
    destruct (Z.eqb_spec (Nx c) 0); [lia|].
    destruct (Z.eqb_spec (Ny c) 0); [lia|].
    cbn [bind ret].
    destruct (linspace_ok (- Lx c / 2) (Lx c / 2) (Nx c)) as [gx ->]; [lia|].
    destruct (linspace_ok (- Ly c / 2) (Ly c / 2) (Ny c)) as [gy ->]; [lia|].
    cbn [bind]. unfold meshgrid at 1. cbv beta iota zeta.
    destruct (Req_dec_T (Lx c) 0) as [HLx|HLx].
    + rewrite HLx. replace (0 / IZR (Nx c)) with 0 by (unfold Rdiv; ring).
      now rewrite fftfreq_zero_spacing.
    + destruct Hzero as [HL|HL]; [contradiction|].
      destruct (fftfreq_ok (Nx c) (Lx c / IZR (Nx c))) as [fx ->]; [lia| |].
      { intros H0. apply HLx. apply (Rmult_eq_reg_r (/ IZR (Nx c))).
        - unfold Rdiv in H0. rewrite H0. ring.
        - apply Rinv_neq_0_compat, not_0_IZR. lia. }
      cbn [bind]. rewrite HL. replace (0 / IZR (Ny c)) with 0 by (unfold Rdiv; ring).
      now rewrite fftfreq_zero_spacing.
Qed.

Lemma quotient_fits_nonzero (u : R) (n : Z) : quotient_fits u n -> u <> 0.
Proof.
  unfold quotient_fits. intros H Hu. subst u.
  assert (Hp : 0 < / 2 ^ 1022) by (apply Rinv_0_lt_compat, pow_lt; lra).
  unfold Rdiv in H. rewrite Rmult_0_l, Rabs_R0 in H. lra.
Qed.

(** C4, as the script behaves.  With [Nx = 0], or with [Ny = 0] and an
    [Nx] of index size, the script stops in setup with [ZeroDivisionError]
    (the division of lines 13-14); with [Nx], [Ny] of index size, neither
    zero and one negative, it stops in setup with [ValueError] ([linspace]);
    with positive [Nx], [Ny] of index size, a [sigma] whose square does not
    overflow, and a zero [Lx] or [Ly], it stops in setup with
    [ZeroDivisionError] ([fftfreq]): in each case no pass of the time loop
    runs.  With positive [Nx], [Ny] of index size, a [sigma] whose square
    does not overflow, and [dx], [dy] that do not round to zero, setup
    succeeds whatever [a] is and whatever the sign of [sigma] is, and the
    program returns the density after all [steps] passes.  No configuration
    raises [InvalidConfiguration]. *)
Theorem setup_errors_are_python_errors (c : config) :
  ((Nx c = 0 \/ (Ny c = 0 /\ index_sized (Nx c)))%Z ->
   setup c = inl ZeroDivisionError /\ run c = inl ZeroDivisionError) /\
  (index_sized (Nx c) /\ index_sized (Ny c) /\
   (Nx c <> 0 /\ Ny c <> 0 /\ (Nx c < 0 \/ Ny c < 0))%Z ->
   setup c = inl ValueError /\ run c = inl ValueError) /\
  (index_sized (Nx c) /\ index_sized (Ny c) /\ square_fits (sigma c) /\
   (0 < Nx c)%Z /\ (0 < Ny c)%Z /\ (Lx c = 0 \/ Ly c = 0) ->
   setup c = inl ZeroDivisionError /\ run c = inl ZeroDivisionError) /\
  (index_sized (Nx c) /\ index_sized (Ny c) /\ square_fits (sigma c) /\
   (0 < Nx c)%Z /\ (0 < Ny c)%Z /\
   quotient_fits (Lx c) (Nx c) /\ quotient_fits (Ly c) (Ny c) ->
   exists e, setup c = inr e /\
             run c = inr (density (psi_at c e (Z.to_nat (steps c))))) /\
  setup c <> inl InvalidConfiguration /\ run c <> inl InvalidConfiguration.
Proof.
  destruct (setup_raises c) as (Hz & Hv & Hl).
  split; [|split; [|split; [|split]]].
  - intros H. assert (H' : (Nx c = 0 \/ Ny c = 0)%Z) by (destruct H as [H|[H _]]; auto).
    split; [|apply run_setup_error]; auto.
  - intros (_ & _ & H). split; [|apply run_setup_error]; auto.
  - intros (_ & _ & _ & Hx & Hy & H). split; [|apply run_setup_error]; auto.
  - intros (_ & _ & _ & Hx & Hy & Hqx & Hqy).
    assert (HLx := quotient_fits_nonzero _ _ Hqx).
    assert (HLy := quotient_fits_nonzero _ _ Hqy).
    destruct (setup_ok c Hx Hy HLx HLy) as [e He]. exists e.
    split; [assumption | now apply run_setup_ok].
  - assert (Hno : setup c <> inl InvalidConfiguration).
    { destruct (Z.eq_dec (Nx c) 0) as [Hx|Hx]; [rewrite Hz by auto; discriminate|].
      destruct (Z.eq_dec (Ny c) 0) as [Hy|Hy]; [rewrite Hz by auto; discriminate|].
      destruct (Z_lt_le_dec (Nx c) 0) as [Hxn|Hxp]; [rewrite Hv by auto; discriminate|].
      destruct (Z_lt_le_dec (Ny c) 0) as [Hyn|Hyp]; [rewrite Hv by auto; discriminate|].
      destruct (Req_dec_T (Lx c) 0) as [HLx|HLx];
        [rewrite Hl by (repeat split; auto; lia); discriminate|].
      destruct (Req_dec_T (Ly c) 0) as [HLy|HLy];
        [rewrite Hl by (repeat split; auto; lia); discriminate|].
      destruct (setup_ok c) as [e ->]; try lia; auto. discriminate. }
    split; [assumption|].
    unfold run. destruct (setup c) as [err|e]; simpl; [congruence | discriminate].
Qed.

(** The script's own constants lie in the range of the fourth case. *)
Lemma default_config_fits :
  index_sized (Nx default_config) /\ index_sized (Ny default_config) /\
  square_fits (sigma default_config) /\
  quotient_fits (Lx default_config) (Nx default_config) /\
  quotient_fits (Ly default_config) (Ny default_config).
Proof.
  assert (Hq : / 2 ^ 1022 <= Rabs (10 / 256)).
  { rewrite Rabs_pos_eq by lra.
    apply Rle_trans with (/ 2 ^ 5); [|simpl; lra].
    apply Rinv_le_contravar; [apply pow_lt; lra | apply Rle_pow; [lra | lia]]. }
  split; [|split; [|split; [|split]]].
  - unfold index_sized. simpl Nx. apply Z.ltb_lt. reflexivity.
  - unfold index_sized. simpl Ny. apply Z.ltb_lt. reflexivity.
  - unfold square_fits. simpl sigma. rewrite pow1. apply pow_R1_Rle. lra.
  - exact Hq.
  - exact Hq.
Qed.

(** C4 fails as stated: with [sigma = -1] and the script's other constants,
    setup raises nothing, the initial field is finite, and the program
    returns a density. *)
Lemma negative_sigma_is_accepted :
  sigma negative_sigma_config <= 0 /\
  exists e,
    setup negative_sigma_config = inr e /\
    (exists p, psi e = Finite p) /\
    run negative_sigma_config =
      inr (density (psi_at negative_sigma_config e 2000)) /\
    run negative_sigma_config <> inl InvalidConfiguration.
Proof.
  split; [simpl; lra|].
  destruct (setup_ok negative_sigma_config) as [e He]; simpl; try lia; try lra.
  exists e. split; [assumption|].
  destruct (setup_steps_pos negative_sigma_config e He) as [Hdx Hdy]; [simpl; lra | simpl; lra |].
  destruct (gaussian_norm negative_sigma_config e He) as (p0 & n & Hg & _ & _ & Hn & Hpos).
  { simpl; lra. }
  { now apply Rmult_lt_0_compat. }
  split; [|split].
  - exists (mmap (fun z => Cdivr z n) p0).
    change (psi e) with (psi_at negative_sigma_config e 0).
    rewrite (psi_at_normalize _ e 0 He). unfold before_norm. rewrite Hg.
    apply (normalize_unit (dx e) (dy e) p0 n Hn). lra.
  - now rewrite (run_setup_ok _ e He).
  - rewrite (run_setup_ok _ e He). discriminate.
Qed.

(** ** Wavenumbers *)

Lemma setup_kx (c : config) (e : env) :
  setup c = inr e ->
  (forall i, (i < Z.to_nat (Nx c))%nat ->
     nth i (kx e) 0 = 2 * PI * (IZR (bin (Nx c) i) * (1 / (IZR (Nx c) * dx e)))) /\
  (forall j, (j < Z.to_nat (Ny c))%nat ->
     nth j (ky e) 0 = 2 * PI * (IZR (bin (Ny c) j) * (1 / (IZR (Ny c) * dy e)))).
Proof.
  intros Hset.
  destruct (setup_inr c e Hset)
    as (_ & _ & _ & _ & _ & _ & _ & _ & _ & _ & _ & _ & Hkx & Hky & _).
  destruct Hkx as [fx [Hfx ->]]. destruct Hky as [fy [Hfy ->]].
  apply fftfreq_inr in Hfx. destruct Hfx as (_ & _ & Lfx & Nfx).
  apply fftfreq_inr in Hfy. destruct Hfy as (_ & _ & Lfy & Nfy).
  split; intros i Hi.
  - rewrite (nth_map_in _ 0 0) by lia. now rewrite Nfx.
  - rewrite (nth_map_in _ 0 0) by lia. now rewrite Nfy.
Qed.

Lemma setup_K2 (c : config) (e : env) (i j : nat) :
  setup c = inr e -> (i < Z.to_nat (Nx c))%nat -> (j < Z.to_nat (Ny c))%nat ->
  getR (K2 e) i j = nth i (kx e) 0 ^ 2 + nth j (ky e) 0 ^ 2.
Proof.
  intros Hset Hi Hj.
  destruct (setup_shapes c e Hset) as (_ & _ & _ & _ & Lkx & Lky & _).
  destruct (setup_inr c e Hset)
    as (_ & _ & _ & _ & _ & _ & _ & _ & _ & _ & _ & _ & _ & _ & HK2).
  destruct (shape_meshgrid (kx e) (ky e)) as [S1 S2]. rewrite Lkx, Lky in S1, S2.
  destruct (get_meshgrid (kx e) (ky e) i j) as [G1 G2]; [lia | lia |].
  rewrite HK2. unfold getR.
  rewrite (get_mmap2 Rplus 0 0 0 _ _ _ _ i j
             (shape_mmap _ _ _ _ S1) (shape_mmap _ _ _ _ S2) Hi Hj).
  rewrite (get_mmap _ 0 0 _ _ _ i j S1 Hi Hj).
  rewrite (get_mmap _ 0 0 _ _ _ i j S2 Hi Hj).
  unfold getR in G1, G2. now rewrite G1, G2.
Qed.

(** C6.  [kx] is [2 pi] times the FFT frequency layout for [Nx] samples of
    spacing [dx]: bin [i] holds [2 pi i / (Nx dx)] for [i] up to
    [(Nx - 1) div 2] (zero, then the positive frequencies in ascending order)
    and [2 pi (i - Nx) / (Nx dx)] after that (the negative frequencies, from
    [-(Nx div 2)] to [-1], magnitudes descending); likewise [ky]; and
    [K2[i][j] = kx[i]^2 + ky[j]^2], which is never negative. *)
Theorem wavenumbers_follow_fft_layout (c : config) (e : env) :
  setup c = inr e ->
  (forall i, (i < Z.to_nat (Nx c))%nat ->
     ((Z.of_nat i <= (Nx c - 1) / 2)%Z ->
      nth i (kx e) 0 = 2 * PI * (INR i / (IZR (Nx c) * dx e))) /\
     (((Nx c - 1) / 2 < Z.of_nat i)%Z ->
      nth i (kx e) 0 = 2 * PI * ((INR i - IZR (Nx c)) / (IZR (Nx c) * dx e)) /\
      (- (Nx c / 2) <= Z.of_nat i - Nx c <= -1)%Z)) /\
  (forall j, (j < Z.to_nat (Ny c))%nat ->
     ((Z.of_nat j <= (Ny c - 1) / 2)%Z ->
      nth j (ky e) 0 = 2 * PI * (INR j / (IZR (Ny c) * dy e))) /\
     (((Ny c - 1) / 2 < Z.of_nat j)%Z ->
      nth j (ky e) 0 = 2 * PI * ((INR j - IZR (Ny c)) / (IZR (Ny c) * dy e)) /\
      (- (Ny c / 2) <= Z.of_nat j - Ny c <= -1)%Z)) /\
  (forall i j, (i < Z.to_nat (Nx c))%nat -> (j < Z.to_nat (Ny c))%nat ->
     getR (K2 e) i j = nth i (kx e) 0 ^ 2 + nth j (ky e) 0 ^ 2 /\
     0 <= getR (K2 e) i j).
Proof.
  intros Hset. destruct (setup_kx c e Hset) as [Hkx Hky].
  destruct (setup_inr c e Hset) as (Hnx & Hny & _).
  assert (Hlayout : forall n i, (0 < n)%Z -> (i < Z.to_nat n)%nat ->
    ((Z.of_nat i <= (n - 1) / 2)%Z -> IZR (bin n i) = INR i) /\
    (((n - 1) / 2 < Z.of_nat i)%Z ->
       IZR (bin n i) = INR i - IZR n /\ (- (n / 2) <= Z.of_nat i - n <= -1)%Z)).
  { intros n i Hn Hi. unfold bin. split; intros Hb.
    - destruct (Z.ltb_spec (Z.of_nat i) ((n - 1) / 2 + 1)); [|lia].
      now rewrite INR_IZR_INZ.
    - destruct (Z.ltb_spec (Z.of_nat i) ((n - 1) / 2 + 1)); [lia|].
      split; [now rewrite minus_IZR, INR_IZR_INZ|].
      Z.div_mod_to_equations. lia. }
  split; [|split].
  - intros i Hi. destruct (Hlayout (Nx c) i Hnx Hi) as [Hlo Hhi]. split; intros Hb.
    + rewrite (Hkx i Hi), (Hlo Hb). unfold Rdiv. ring.
    + destruct (Hhi Hb) as [Hv Hr]. split; [|exact Hr].
      rewrite (Hkx i Hi), Hv. unfold Rdiv. ring.
  - intros j Hj. destruct (Hlayout (Ny c) j Hny Hj) as [Hlo Hhi]. split; intros Hb.
    + rewrite (Hky j Hj), (Hlo Hb). unfold Rdiv. ring.
    + destruct (Hhi Hb) as [Hv Hr]. split; [|exact Hr].
      rewrite (Hky j Hj), Hv. unfold Rdiv. ring.
  - intros i j Hi Hj. rewrite (setup_K2 c e i j Hset Hi Hj). split; [reflexivity|].
    generalize (pow2_ge_0 (nth i (kx e) 0)) (pow2_ge_0 (nth j (ky e) 0)). lra.
Qed.

Lemma wavenumbers_witness :
  exists e,
    setup default_config = inr e /\
    nth 0 (kx e) 0 = 2 * PI * (INR 0 / (256 * dx e)) /\
    nth 255 (kx e) 0 = 2 * PI * ((INR 255 - 256) / (256 * dx e)) /\
    getR (K2 e) 3 200 = nth 3 (kx e) 0 ^ 2 + nth 200 (ky e) 0 ^ 2.
Proof.
  destruct default_setup as [e He]. exists e. split; [assumption|].
  destruct (wavenumbers_follow_fft_layout default_config e He) as (Hkx & _ & HK2).
  split; [|split].
  - apply (Hkx 0%nat); [apply Nat.ltb_lt; reflexivity | apply Z.leb_le; reflexivity].
  - apply (Hkx 255%nat); [apply Nat.ltb_lt; reflexivity | apply Z.ltb_lt; reflexivity].
  - apply (HK2 3%nat 200%nat); apply Nat.ltb_lt; reflexivity.
Defined.

(** ** The potential *)

Lemma potential_entries (c : config) (e : env) :
  setup c = inr e -> a c <> 0 ->
  exists vv,
    V e = Finite vv /\
    shape vv (Z.to_nat (Nx c)) (Z.to_nat (Ny c)) /\
    forall i j, (i < Z.to_nat (Nx c))%nat -> (j < Z.to_nat (Ny c))%nat ->
      getR vv i j = V_at c (getR (X e) i j) (getR (Y e) i j).
Proof.
  intros Hset Ha.
  destruct (setup_shapes c e Hset) as (_ & _ & SX & SY & _).
  destruct (setup_inr c e Hset) as (_ & _ & _ & _ & _ & _ & _ & _ & _ & _ & HV & _).
  rewrite HV. unfold potential. destruct (Req_dec_T (a c) 0); [contradiction|].
  eexists. split; [reflexivity|].
  assert (Sx : shape (mmap (fun v => cos (PI * v / a c) ^ 2) (X e))
                 (Z.to_nat (Nx c)) (Z.to_nat (Ny c))) by now apply shape_mmap.
  assert (Sy : shape (mmap (fun v => cos (PI * v / a c) ^ 2) (Y e))
                 (Z.to_nat (Nx c)) (Z.to_nat (Ny c))) by now apply shape_mmap.
  split.
  - apply shape_mmap. now apply shape_mmap2.
  - intros i j Hi Hj. unfold getR, V_at.
    rewrite (get_mmap _ 0 0 _ _ _ i j (shape_mmap2 Rplus _ _ _ _ Sx Sy) Hi Hj).
    rewrite (get_mmap2 Rplus 0 0 0 _ _ _ _ i j Sx Sy Hi Hj).
    rewrite (get_mmap _ 0 0 _ _ _ i j SX Hi Hj).
    rewrite (get_mmap _ 0 0 _ _ _ i j SY Hi Hj). reflexivity.
Qed.

Lemma cos_sqr_shift (u p : R) :
  p <> 0 -> cos (PI * (u + p) / p) ^ 2 = cos (PI * u / p) ^ 2.
Proof.
  intros Hp. replace (PI * (u + p) / p) with (PI * u / p + PI) by now field.
  rewrite neg_cos. ring.
Qed.

Lemma V_at_nonneg (c : config) (u v : R) : 0 <= V0 c -> 0 <= V_at c u v.
Proof.
  intros H0. unfold V_at. apply Rmult_le_pos; [assumption|].
  generalize (pow2_ge_0 (cos (PI * u / a c))) (pow2_ge_0 (cos (PI * v / a c))). lra.
Qed.

(** C7, as the script behaves.  With [a <> 0], [V[i][j] = V0 (cos^2(pi
    X[i][j] / a) + cos^2(pi Y[i][j] / a))] at every grid point; as a function
    of continuous coordinates [V] has period [a] along each axis; and [V] is
    non-negative everywhere when [V0 >= 0]. *)
Theorem potential_is_periodic_cos_squared (c : config) (e : env) :
  setup c = inr e -> a c <> 0 ->
  exists vv,
    V e = Finite vv /\
    (forall i j, (i < Z.to_nat (Nx c))%nat -> (j < Z.to_nat (Ny c))%nat ->
       getR vv i j =
       V0 c * (cos (PI * getR (X e) i j / a c) ^ 2 + cos (PI * getR (Y e) i j / a c) ^ 2) /\
       getR vv i j = V_at c (getR (X e) i j) (getR (Y e) i j) /\
       (0 <= V0 c -> 0 <= getR vv i j)) /\
    (forall u v, V_at c (u + a c) v = V_at c u v /\ V_at c u (v + a c) = V_at c u v) /\
    (0 <= V0 c -> forall u v, 0 <= V_at c u v).
Proof.
  intros Hset Ha. destruct (potential_entries c e Hset Ha) as (vv & HV & _ & Hval).
  exists vv. split; [assumption|]. split; [|split].
  - intros i j Hi Hj. rewrite (Hval i j Hi Hj). repeat split.
    intros H0. now apply V_at_nonneg.
  - intros u v. unfold V_at. rewrite !cos_sqr_shift by assumption. split; reflexivity.
  - intros H0 u v. now apply V_at_nonneg.
Qed.

Lemma potential_witness :
  exists e vv,
    setup default_config = inr e /\ V e = Finite vv /\
    getR vv 0 0 = V_at default_config (getR (X e) 0 0) (getR (Y e) 0 0) /\
    0 <= getR vv 0 0 /\
    V_at default_config (1 + 2) 0 = V_at default_config 1 0.
Proof.
  destruct default_setup as [e He].
  assert (Ha : a default_config <> 0) by (simpl; lra).
  destruct (potential_is_periodic_cos_squared default_config e He Ha)
    as (vv & HV & Hval & Hper & _).
  exists e, vv. split; [assumption|]. split; [assumption|].
  destruct (Hval 0%nat 0%nat) as (_ & H1 & H2);
    [apply Nat.ltb_lt; reflexivity | apply Nat.ltb_lt; reflexivity |].
  split; [assumption|]. split; [apply H2; simpl; lra|].
  apply (Hper 1 0).
Defined.

(** C7 fails as stated: with [V0 = -1] and [a = 5] on the script's grid the
    potential at the corner [(0, 0)] is [-2]. *)
Lemma negative_V0_gives_negative_potential :
  exists e vv,
    setup negative_V0_config = inr e /\ V e = Finite vv /\
    getR vv 0 0 = -2 /\ getR vv 0 0 < 0.
Proof.
  destruct (setup_ok negative_V0_config) as [e He]; simpl; try lia; try lra.
  assert (Ha : a negative_V0_config <> 0) by (simpl; lra).
  destruct (potential_entries negative_V0_config e He Ha) as (vv & HV & _ & Hval).
  exists e, vv. split; [assumption|]. split; [assumption|].
  assert (Hcorner : getR vv 0 0 = -2).
  { rewrite Hval by (apply Nat.ltb_lt; reflexivity).
    destruct (setup_inr negative_V0_config e He)
      as (_ & _ & _ & _ & _ & _ & Hx & Hy & HX & HY & _).
    destruct (setup_shapes negative_V0_config e He) as (Lx' & Ly' & _).
    destruct (get_meshgrid (x e) (y e) 0 0) as [G1 G2];
      [rewrite Lx'; apply Nat.ltb_lt; reflexivity
      | rewrite Ly'; apply Nat.ltb_lt; reflexivity |].
    rewrite HX, HY, G1, G2.
    simpl in Hx, Hy.
    destruct (linspace_spacing (- (10) / 2) (10 / 2) 256 (x e)) as (Hx0 & _);
      [lia | assumption |].
    destruct (linspace_spacing (- (10) / 2) (10 / 2) 256 (y e)) as (Hy0 & _);
      [lia | assumption |].
    rewrite Hx0, Hy0. unfold V_at. simpl V0. simpl a.
    replace (PI * (- (10) / 2) / 5) with (- PI) by field.
    rewrite cos_neg, cos_PI. ring. }
  split; [assumption | lra].
Qed.

(** ** Finite sums of complex numbers *)

Lemma Csum_ext (f h : nat -> C) (n : nat) :
  (forall i, (i < n)%nat -> f i = h i) -> Csum f n = Csum h n.
Proof.
  induction n as [|n IH]; intros H; simpl; [reflexivity|].
  rewrite IH by (intros; apply H; lia). rewrite H by lia. reflexivity.
Qed.

Lemma Csum_plus (f h : nat -> C) (n : nat) :
  Csum (fun i => Cplus (f i) (h i)) n = Cplus (Csum f n) (Csum h n).
Proof.
  induction n as [|n IH]; simpl; [cring|]. rewrite IH. cring.
Qed.

Lemma Csum_mult_l (z : C) (f : nat -> C) (n : nat) :
  Csum (fun i => Cmult z (f i)) n = Cmult z (Csum f n).
Proof.
  induction n as [|n IH]; simpl; [cring|]. rewrite IH. cring.
Qed.

Lemma Csum_mult_r (z : C) (f : nat -> C) (n : nat) :
  Csum (fun i => Cmult (f i) z) n = Cmult (Csum f n) z.
Proof.
  induction n as [|n IH]; simpl; [cring|]. rewrite IH. cring.
Qed.

Lemma Csum_divr (r : R) (f : nat -> C) (n : nat) :
  Csum (fun i => Cdivr (f i) r) n = Cdivr (Csum f n) r.
Proof.
  induction n as [|n IH]; simpl; [now rewrite Cdivr_0|].
  now rewrite IH, Cdivr_plus.
Qed.

Lemma Csum_zero (n : nat) : Csum (fun _ => C0) n = C0.
Proof. induction n as [|n IH]; simpl; [reflexivity|]. rewrite IH. cring. Qed.

Lemma Csum_const (z : C) (n : nat) : Csum (fun _ => z) n = Cmult (RtoC (INR n)) z.
Proof.
  induction n as [|n IH]; [simpl; cring|].
  change (Csum (fun _ => z) (S n)) with (Cplus (Csum (fun _ => z) n) z).
  rewrite IH, S_INR. cring.
Qed.

Lemma Csum_swap (f : nat -> nat -> C) (n m : nat) :
  Csum (fun i => Csum (fun j => f i j) m) n = Csum (fun j => Csum (fun i => f i j) n) m.
Proof.
  induction n as [|n IH]; simpl.
  - now rewrite Csum_zero.
  - rewrite IH. now rewrite <- Csum_plus.
Qed.

(** A sum with a single nonzero term. *)
Lemma Csum_single (f : nat -> C) (n k : nat) :
  (k < n)%nat -> (forall i, (i < n)%nat -> i <> k -> f i = C0) -> Csum f n = f k.
Proof.
  induction n as [|n IH]; intros Hk H; [lia|]. simpl.
  destruct (Nat.eq_dec k n) as [->|Hne].
  - rewrite (Csum_ext f (fun _ => C0)) by (intros; apply H; lia).
    rewrite Csum_zero. cring.
  - rewrite IH by (try lia; intros; apply H; lia). rewrite (H n) by lia. cring.
Qed.

Lemma Csum_shift (f : nat -> C) (n : nat) :
  Csum f (S n) = Cplus (f 0%nat) (Csum (fun i => f (S i)) n).
Proof.
  induction n as [|n IH]; [simpl; cring|].
  change (Csum f (S (S n))) with (Cplus (Csum f (S n)) (f (S n))).
  rewrite IH. simpl. cring.
Qed.

(** Summing in the opposite order. *)
Lemma Csum_rev (f : nat -> C) (n : nat) :
  Csum (fun i => f (n - 1 - i)%nat) n = Csum f n.
Proof.
  induction n as [|n IH]; [reflexivity|].
  rewrite Csum_shift. simpl Csum at 2.
  replace (S n - 1 - 0)%nat with n by lia.
  rewrite <- IH, Cplus_comm. f_equal.
  apply Csum_ext. intros i Hi. f_equal. lia.
Qed.

Lemma neg_lt (n l : nat) : (0 < n)%nat -> (neg n l < n)%nat.
Proof. intros Hn. unfold neg. apply Nat.mod_upper_bound. lia. Qed.

Lemma neg_0 (n : nat) : neg n 0 = 0%nat.
Proof.
  unfold neg. destruct n as [|n]; [reflexivity|].
  rewrite Nat.sub_0_r. apply Nat.Div0.mod_same.
Qed.

Lemma neg_pos (n l : nat) : (0 < l)%nat -> (l < n)%nat -> neg n l = (n - l)%nat.
Proof. intros H0 Hl. unfold neg. apply Nat.mod_small. lia. Qed.

Lemma neg_neg (n l : nat) : (l < n)%nat -> neg n (neg n l) = l.
Proof.
  intros Hl. destruct l as [|l].
  - now rewrite !neg_0.
  - rewrite (neg_pos n (S l)) by lia. rewrite neg_pos by lia. lia.
Qed.

(** Summing over the opposite frequencies. *)
Lemma Csum_neg (f : nat -> C) (n : nat) :
  Csum (fun l => f (neg n l)) n = Csum f n.
Proof.
  destruct n as [|n]; [reflexivity|].
  rewrite !Csum_shift. rewrite neg_0. f_equal.
  rewrite <- (Csum_rev (fun i => f (S i)) n).
  apply Csum_ext. intros i Hi. rewrite neg_pos by lia. f_equal. lia.
Qed.

(** ** Roots of unity *)

Lemma cis_plus (s t : R) : cis (s + t) = Cmult (cis s) (cis t).
Proof. unfold cis. rewrite cos_plus, sin_plus. cring. Qed.

Lemma cis_0 : cis 0 = Cone.
Proof. unfold cis, Cone. now rewrite cos_0, sin_0. Qed.

Lemma cis_2PI_nat (k : nat) : cis (2 * PI * INR k) = Cone.
Proof.
  unfold cis, Cone. replace (2 * PI * INR k) with (0 + 2 * INR k * PI) by ring.
  now rewrite cos_period, sin_period, cos_0, sin_0.
Qed.

Lemma cis_2PI_Z (q : Z) : cis (2 * PI * IZR q) = Cone.
Proof.
  destruct (Z_le_gt_dec 0 q) as [Hq|Hq].
  - rewrite <- (Z2Nat.id q Hq), <- INR_IZR_INZ. apply cis_2PI_nat.
  - replace (2 * PI * IZR q) with (- (2 * PI * INR (Z.to_nat (- q)))).
    + generalize (cis_2PI_nat (Z.to_nat (- q))). unfold cis, Cone.
      rewrite cos_neg, sin_neg. intros H.
      assert (Hc := f_equal fst H). assert (Hs := f_equal snd H). simpl in Hc, Hs.
      rewrite Hc, Hs. f_equal. ring.
    + rewrite INR_IZR_INZ, Z2Nat.id by lia. rewrite opp_IZR. ring.
Qed.

Lemma W_0 (n : nat) : W n 0 = Cone.
Proof. unfold W. replace (2 * PI * 0 / INR n) with 0 by (unfold Rdiv; ring). apply cis_0. Qed.

Lemma W_plus (n : nat) (u v : Z) : W n (u + v) = Cmult (W n u) (W n v).
Proof.
  unfold W. rewrite <- cis_plus. f_equal. rewrite plus_IZR. unfold Rdiv. ring.
Qed.

Lemma W_period (n : nat) (q : Z) : (0 < n)%nat -> W n (Z.of_nat n * q) = Cone.
Proof.
  intros Hn. unfold W. rewrite mult_IZR, <- INR_IZR_INZ.
  replace (2 * PI * (INR n * IZR q) / INR n) with (2 * PI * IZR q).
  - apply cis_2PI_Z.
  - field. apply not_0_INR. lia.
Qed.

(** Exponents that agree modulo [n] give the same root. *)
Lemma W_congr (n : nat) (u v q : Z) :
  (0 < n)%nat -> (u = v + Z.of_nat n * q)%Z -> W n u = W n v.
Proof.
  intros Hn ->. rewrite W_plus, W_period by assumption. cring.
Qed.

Lemma W_pow (n : nat) (z : Z) (l : nat) : W n (Z.of_nat l * z) = Cpow (W n z) l.
Proof.
  induction l as [|l IH].
  - simpl. apply W_0.
  - replace (Z.of_nat (S l) * z)%Z with (z + Z.of_nat l * z)%Z by lia.
    rewrite W_plus, IH. reflexivity.
Qed.

Lemma twiddle_pos (n m k : nat) : twiddle 1 n m k = W n (Z.of_nat m * Z.of_nat k).
Proof.
  unfold twiddle, W. f_equal. rewrite mult_IZR, <- !INR_IZR_INZ. ring.
Qed.

Lemma twiddle_neg (n m k : nat) : twiddle (-1) n m k = W n (- (Z.of_nat m * Z.of_nat k)).
Proof.
  unfold twiddle, W. f_equal. rewrite opp_IZR, mult_IZR, <- !INR_IZR_INZ.
  unfold Rdiv. ring.
Qed.

(** A root [W n z] with [0 < |z| < n] is not 1. *)
Lemma W_neq_1 (n : nat) (z : Z) :
  (z <> 0)%Z -> (- Z.of_nat n < z < Z.of_nat n)%Z -> Re (W n z) <> 1.
Proof.
  intros Hz Hb. unfold W, cis, Re; simpl.
  assert (Hn : 0 < INR n) by (apply lt_0_INR; lia).
  set (t := PI * IZR z / INR n).
  replace (2 * PI * IZR z / INR n) with (2 * t) by (unfold t, Rdiv; ring).
  rewrite cos_2a_sin.
  assert (Hs : sin t <> 0).
  { assert (HP := PI_RGT_0).
    assert (Hzn : - INR n < IZR z < INR n).
    { rewrite INR_IZR_INZ, <- opp_IZR. split; apply IZR_lt; lia. }
    destruct (Z_lt_le_dec 0 z) as [Hpos|Hneg].
    - assert (0 < IZR z) by (apply IZR_lt; lia).
      assert (0 < sin t); [|lra].
      apply sin_gt_0.
      + unfold t. apply Rdiv_lt_0_compat; [|assumption]. apply Rmult_lt_0_compat; lra.
      + unfold t. apply (Rmult_lt_reg_r (INR n)); [assumption|].
        unfold Rdiv. rewrite Rmult_assoc, Rinv_l by lra. rewrite Rmult_1_r.
        apply Rmult_lt_compat_l; lra.
    - assert (IZR z < 0) by (apply IZR_lt; lia).
      assert (0 < sin (- t)); [|rewrite sin_neg in *; lra].
      apply sin_gt_0.
      + unfold t. replace (- (PI * IZR z / INR n)) with (PI * (- IZR z) / INR n)
          by (unfold Rdiv; ring).
        apply Rdiv_lt_0_compat; [|assumption]. apply Rmult_lt_0_compat; lra.
      + unfold t. apply (Rmult_lt_reg_r (INR n)); [assumption|].
        replace (- (PI * IZR z / INR n) * INR n) with (PI * (- IZR z)) by (field; lra).
        apply Rmult_lt_compat_l; lra. }
  assert (0 < sin t * sin t) by nra. lra.
Qed.

Lemma Cmult_integral (u v : C) : Cmult u v = C0 -> Re u <> 0 -> v = C0.
Proof.
  destruct u as [p q], v as [r s]. unfold Cmult, C0, Re, Im; simpl.
  intros H Hp.
  assert (H1 := f_equal fst H). assert (H2 := f_equal snd H). simpl in H1, H2.
  assert (Hn : 0 < p * p + q * q) by nra.
  assert (Hr : (p * p + q * q) * r = 0).
  { replace ((p * p + q * q) * r) with (p * (p * r - q * s) + q * (p * s + q * r)) by ring.
    rewrite H1, H2. ring. }
  assert (Hs : (p * p + q * q) * s = 0).
  { replace ((p * p + q * q) * s) with (p * (p * s + q * r) - q * (p * r - q * s)) by ring.
    rewrite H1, H2. ring. }
  apply Rmult_integral in Hr. apply Rmult_integral in Hs.
  f_equal; [destruct Hr | destruct Hs]; lra.
Qed.

Lemma Cpow_geometric (w : C) (n : nat) :
  Cmult (Cplus w (Copp Cone)) (Csum (Cpow w) n) = Cplus (Cpow w n) (Copp Cone).
Proof.
  induction n as [|n IH]; [simpl; cring|].
  change (Csum (Cpow w) (S n)) with (Cplus (Csum (Cpow w) n) (Cpow w n)).
  rewrite Cmult_plus_distr_l, IH. simpl. cring.
Qed.

(** Orthogonality of the characters of the cyclic group of order [n]. *)
Lemma W_orthogonal (n : nat) (z : Z) :
  (- Z.of_nat n < z < Z.of_nat n)%Z ->
  Csum (fun l => W n (Z.of_nat l * z)) n = if (z =? 0)%Z then RtoC (INR n) else C0.
Proof.
  intros Hb. destruct (Z.eqb_spec z 0) as [->|Hz].
  - rewrite (Csum_ext _ (fun _ => Cone)).
    + rewrite Csum_const. cring.
    + intros i _. rewrite Z.mul_0_r. apply W_0.
  - rewrite (Csum_ext _ (Cpow (W n z))) by (intros; apply W_pow).
    apply (Cmult_integral (Cplus (W n z) (Copp Cone))).
    + rewrite Cpow_geometric, <- W_pow, W_period by lia. cring.
    + generalize (W_neq_1 n z Hz Hb). unfold Cplus, Copp, Cone, Re; simpl. lra.
Qed.

(** ** The discrete Fourier transform and its inverse *)

Lemma dft_ext (s : R) (n : nat) (f h : nat -> C) (k : nat) :
  (forall m, (m < n)%nat -> f m = h m) -> dft s n f k = dft s n h k.
Proof.
  intros H. unfold dft. apply Csum_ext. intros m Hm. now rewrite H.
Qed.

Lemma dft_scale (s : R) (n : nat) (z : C) (f : nat -> C) (k : nat) :
  dft s n (fun m => Cmult z (f m)) k = Cmult z (dft s n f k).
Proof.
  unfold dft. rewrite <- Csum_mult_l. apply Csum_ext. intros m _.
  now rewrite Cmult_assoc.
Qed.

Lemma dft_divr (s : R) (n : nat) (r : R) (f : nat -> C) (k : nat) :
  dft s n (fun m => Cdivr (f m) r) k = Cdivr (dft s n f k) r.
Proof.
  unfold dft. rewrite <- Csum_divr. apply Csum_ext. intros m _.
  now rewrite Cdivr_mult_l.
Qed.

(** Transforms along different axes commute. *)
Lemma dft_swap (s t : R) (n m : nat) (f : nat -> nat -> C) (k l : nat) :
  dft s n (fun i => dft t m (fun j => f i j) l) k =
  dft t m (fun j => dft s n (fun i => f i j) k) l.
Proof.
  unfold dft.
  rewrite (Csum_ext _ (fun i => Csum (fun j =>
             Cmult (Cmult (f i j) (twiddle t m j l)) (twiddle s n i k)) m))
    by (intros; now rewrite Csum_mult_r).
  rewrite Csum_swap. apply Csum_ext. intros j _.
  rewrite <- Csum_mult_r. apply Csum_ext. intros i _. cring.
Qed.

(** The inverse transform undoes the forward one, up to the factor [n]. *)
Lemma dft_inverse (n : nat) (f : nat -> C) (k : nat) :
  (k < n)%nat -> dft 1 n (dft (-1) n f) k = Cmult (RtoC (INR n)) (f k).
Proof.
  intros Hk. unfold dft.
  rewrite (Csum_ext _ (fun l => Csum (fun m =>
             Cmult (f m) (W n (Z.of_nat l * (Z.of_nat k - Z.of_nat m)))) n)).
  - rewrite Csum_swap.
    rewrite (Csum_ext _ (fun m =>
               Cmult (f m) (if (Z.of_nat k - Z.of_nat m =? 0)%Z then RtoC (INR n) else C0))).
    + rewrite (Csum_single _ n k Hk).
      * rewrite Z.sub_diag. simpl. apply Cmult_comm.
      * intros i Hi Hne. destruct (Z.eqb_spec (Z.of_nat k - Z.of_nat i) 0); [lia|].
        apply Cmult_0_r.
    + intros m Hm. rewrite Csum_mult_l. f_equal. apply W_orthogonal. lia.
  - intros l Hl. rewrite <- Csum_mult_r. apply Csum_ext. intros m Hm.
    rewrite twiddle_neg, twiddle_pos, <- Cmult_assoc, <- W_plus. do 2 f_equal. lia.
Qed.

Lemma Cdivr_cancel (n : nat) (z : C) :
  (0 < n)%nat -> Cdivr (Cmult (RtoC (INR n)) z) (INR n) = z.
Proof.
  intros Hn. assert (INR n <> 0) by (apply not_0_INR; lia).
  cunfold. apply injective_projections; cbn [fst snd]; now field.
Qed.

(** *** 1D arrays *)

Lemma length_fft (v : list C) : length (fft v) = length v.
Proof. unfold fft. now rewrite length_map, length_seq. Qed.

Lemma length_ifft (v : list C) : length (ifft v) = length v.
Proof. unfold ifft. now rewrite length_map, length_seq. Qed.

Lemma nth_fft (v : list C) (k : nat) :
  (k < length v)%nat ->
  nth k (fft v) C0 = dft (-1) (length v) (fun m => nth m v C0) k.
Proof. intros Hk. unfold fft. now rewrite nth_tabulate. Qed.

Lemma nth_ifft (v : list C) (k : nat) :
  (k < length v)%nat ->
  nth k (ifft v) C0 =
  Cdivr (dft 1 (length v) (fun m => nth m v C0) k) (INR (length v)).
Proof. intros Hk. unfold ifft. now rewrite nth_tabulate. Qed.

Lemma ifft_fft (v : list C) : ifft (fft v) = v.
Proof.
  apply (nth_ext _ _ C0 C0).
  - now rewrite length_ifft, length_fft.
  - intros k Hk. rewrite length_ifft, length_fft in Hk.
    rewrite nth_ifft by (now rewrite length_fft). rewrite length_fft.
    rewrite (dft_ext 1 _ _ (dft (-1) (length v) (fun m => nth m v C0)))
      by (intros; now apply nth_fft).
    rewrite dft_inverse by assumption. apply Cdivr_cancel. lia.
Qed.

(** *** 2D arrays *)

Lemma shape_ncols {A : Type} (m : matrix A) (r c : nat) :
  shape m r c -> (0 < r)%nat -> ncols m = c.
Proof.
  intros [Hr Hc] Hpos. unfold ncols. destruct m as [|row m]; [simpl in Hr; lia|].
  simpl. now inversion Hc.
Qed.

Lemma shape_transpose {A : Type} (d : A) (m : matrix A) (c : nat) :
  shape (transpose d c m) c (length m).
Proof.
  unfold transpose, col. split.
  - now rewrite length_map, length_seq.
  - apply Forall_forall. intros row Hin. apply in_map_iff in Hin.
    destruct Hin as [j [<- _]]. now rewrite length_map.
Qed.

Lemma get_transpose {A : Type} (d : A) (m : matrix A) (c i j : nat) :
  (i < length m)%nat -> (j < c)%nat -> get d (transpose d c m) j i = get d m i j.
Proof.
  intros Hi Hj. unfold get, transpose, col.
  rewrite (nth_tabulate _ [] c j Hj).
  now rewrite (nth_map_in _ [] d) by assumption.
Qed.

Lemma shape_map_rows {A : Type} (f : list A -> list A) (m : matrix A) (r c : nat) :
  (forall v, length (f v) = length v) -> shape m r c -> shape (map f m) r c.
Proof.
  intros Hf [Hr Hc]. split; [now rewrite length_map|].
  apply Forall_forall. intros row Hin. apply in_map_iff in Hin.
  destruct Hin as [row' [<- Hin]]. rewrite Hf. rewrite Forall_forall in Hc. auto.
Qed.

Lemma shape_along_axis1 (f : list C -> list C) (m : matrix C) (r c : nat) :
  (forall v, length (f v) = length v) -> shape m r c -> shape (along_axis1 f m) r c.
Proof. apply shape_map_rows. Qed.

Lemma shape_along_axis0 (f : list C -> list C) (m : matrix C) (r c : nat) :
  (forall v, length (f v) = length v) -> shape m r c ->
  shape (along_axis0 f m) r c.
Proof.
  intros Hf Hm. destruct (Nat.eq_dec r 0) as [->|Hr0].
  { destruct Hm as [Hlen _]. unfold along_axis0. rewrite Hlen. split; [reflexivity|constructor]. }
  assert (Hr : (0 < r)%nat) by lia. unfold along_axis0.
  rewrite (shape_ncols m r c Hm Hr). destruct Hm as [Hlen Hrows]. rewrite Hlen.
  assert (Ht : shape (map f (transpose C0 c m)) c r).
  { apply shape_map_rows; [assumption|]. rewrite <- Hlen. apply shape_transpose. }
  destruct Ht as [Ht _].
  generalize (shape_transpose C0 (map f (transpose C0 c m)) r). now rewrite Ht.
Qed.

Lemma get_along_axis1 (f : list C -> list C) (m : matrix C) (r c i j : nat) :
  shape m r c -> (i < r)%nat ->
  getC (along_axis1 f m) i j = nth j (f (nth i m [])) C0.
Proof.
  intros [Hr _] Hi. unfold getC, get, along_axis1.
  now rewrite (nth_map_in f [] []) by lia.
Qed.

Lemma get_along_axis0 (f : list C -> list C) (m : matrix C) (r c i j : nat) :
  shape m r c -> (i < r)%nat -> (j < c)%nat ->
  getC (along_axis0 f m) i j = nth i (f (col C0 j m)) C0.
Proof.
  intros Hm Hi Hj. unfold along_axis0.
  rewrite (shape_ncols m r c Hm) by lia. destruct Hm as [Hlen _]. rewrite Hlen.
  unfold getC. rewrite get_transpose.
  - unfold get. rewrite (nth_map_in f [] []).
    + unfold transpose. now rewrite (nth_tabulate _ [] c j Hj).
    + unfold transpose. now rewrite length_map, length_seq.
  - unfold transpose. now rewrite !length_map, length_seq.
  - assumption.
Qed.

Lemma nth_col (m : matrix C) (r c i j : nat) :
  shape m r c -> (i < r)%nat -> nth i (col C0 j m) C0 = getC m i j.
Proof.
  intros [Hr _] Hi. unfold col, getC, get. now rewrite (nth_map_in _ [] C0) by lia.
Qed.

Lemma length_col (m : matrix C) (j : nat) : length (col C0 j m) = length m.
Proof. unfold col. now rewrite length_map. Qed.

Lemma shape_fft2 (p : matrix C) (r c : nat) : shape p r c -> shape (fft2 p) r c.
Proof.
  intros Hp. unfold fft2. apply shape_along_axis0; [apply length_fft|].
  apply shape_along_axis1; [apply length_fft | assumption].
Qed.

Lemma shape_ifft2 (p : matrix C) (r c : nat) : shape p r c -> shape (ifft2 p) r c.
Proof.
  intros Hp. unfold ifft2. apply shape_along_axis0; [apply length_ifft|].
  apply shape_along_axis1; [apply length_ifft | assumption].
Qed.

(** Entry [(k, l)] of [fft2 p] is the double sum over rows and columns. *)
Lemma get_fft2 (p : matrix C) (r c k l : nat) :
  shape p r c -> (k < r)%nat -> (l < c)%nat ->
  getC (fft2 p) k l =
  dft (-1) r (fun m => dft (-1) c (fun n => getC p m n) l) k.
Proof.
  intros Hp Hk Hl. unfold fft2.
  assert (HA : shape (along_axis1 fft p) r c)
    by (apply shape_along_axis1; [apply length_fft | assumption]).
  rewrite (get_along_axis0 fft _ r c k l HA Hk Hl).
  assert (Hlen : length (col C0 l (along_axis1 fft p)) = r)
    by (rewrite length_col; apply HA).
  rewrite nth_fft by lia. rewrite Hlen. apply dft_ext. intros m Hm.
  rewrite (nth_col _ r c m l HA Hm).
  rewrite (get_along_axis1 fft p r c m l Hp Hm).
  rewrite nth_fft by (rewrite (shape_row p r c m Hp Hm); assumption).
  now rewrite (shape_row p r c m Hp Hm).
Qed.

Lemma get_ifft2 (q : matrix C) (r c i j : nat) :
  shape q r c -> (i < r)%nat -> (j < c)%nat ->
  getC (ifft2 q) i j =
  Cdivr (dft 1 r (fun k => Cdivr (dft 1 c (fun l => getC q k l) j) (INR c)) i) (INR r).
Proof.
  intros Hq Hi Hj. unfold ifft2.
  assert (HA : shape (along_axis1 ifft q) r c)
    by (apply shape_along_axis1; [apply length_ifft | assumption]).
  rewrite (get_along_axis0 ifft _ r c i j HA Hi Hj).
  assert (Hlen : length (col C0 j (along_axis1 ifft q)) = r)
    by (rewrite length_col; apply HA).
  rewrite nth_ifft by lia. rewrite Hlen. f_equal. apply dft_ext. intros k Hk.
  rewrite (nth_col _ r c k j HA Hk).
  rewrite (get_along_axis1 ifft q r c k j Hq Hk).
  rewrite nth_ifft by (rewrite (shape_row q r c k Hq Hk); assumption).
  now rewrite (shape_row q r c k Hq Hk).
Qed.

(** [ifft2] undoes [fft2] on an array of any shape. *)
Lemma ifft2_fft2 (p : matrix C) (r c : nat) : shape p r c -> ifft2 (fft2 p) = p.
Proof.
  intros Hp. apply (matrix_ext C0 _ _ r c).
  - now apply shape_ifft2, shape_fft2.
  - assumption.
  - intros i j Hi Hj. change (getC (ifft2 (fft2 p)) i j = getC p i j).
    rewrite (get_ifft2 _ r c i j (shape_fft2 p r c Hp) Hi Hj).
    rewrite (dft_ext 1 r _ (dft (-1) r (fun m => getC p m j))).
    + rewrite dft_inverse by assumption. apply Cdivr_cancel. lia.
    + intros k Hk.
      rewrite (dft_ext 1 c _
                 (fun l => dft (-1) r (fun m => dft (-1) c (fun n => getC p m n) l) k))
        by (intros l Hl; now apply get_fft2).
      rewrite dft_swap. rewrite <- dft_divr. apply dft_ext. intros m Hm.
      rewrite dft_inverse by assumption. apply Cdivr_cancel. lia.
Qed.

(** ** Transform bins and wavenumbers *)

(** The transform's kernel in bin [k] is the plane wave of angular frequency
    [2 pi bin(k) / (n d)] sampled at the points [m d]. *)
Lemma twiddle_bin (n : Z) (d : R) (m k : nat) :
  (0 < n)%Z -> d <> 0 -> (k < Z.to_nat n)%nat ->
  twiddle (-1) (Z.to_nat n) m k =
    cis (- (2 * PI * (IZR (bin n k) * (1 / (IZR n * d))) * (INR m * d))) /\
  twiddle 1 (Z.to_nat n) m k =
    cis (2 * PI * (IZR (bin n k) * (1 / (IZR n * d))) * (INR m * d)).
Proof.
  intros Hn Hd Hk.
  assert (Hn0 : IZR n <> 0) by (apply not_0_IZR; lia).
  assert (HINR : INR (Z.to_nat n) = IZR n) by (rewrite INR_IZR_INZ, Z2Nat.id; [reflexivity | lia]).
  assert (Hq : exists q, (Z.of_nat k = bin n k + Z.of_nat (Z.to_nat n) * q)%Z).
  { unfold bin. destruct (Z.ltb_spec (Z.of_nat k) ((n - 1) / 2 + 1)).
    - exists 0%Z. lia.
    - exists 1%Z. lia. }
  destruct Hq as [q Hq]. split.
  - rewrite twiddle_neg.
    rewrite (W_congr _ _ (- (bin n k * Z.of_nat m)) (- (Z.of_nat m * q))) by nia.
    unfold W. f_equal. rewrite opp_IZR, mult_IZR, HINR, <- INR_IZR_INZ. now field.
  - rewrite twiddle_pos.
    rewrite (W_congr _ _ (bin n k * Z.of_nat m) (Z.of_nat m * q)) by nia.
    unfold W. f_equal. rewrite mult_IZR, HINR, <- INR_IZR_INZ. now field.
Qed.

Lemma twiddle_sym (sg : R) (n m k : nat) : twiddle sg n m k = twiddle sg n k m.
Proof. unfold twiddle. do 2 f_equal. unfold Rdiv. ring. Qed.

Lemma Cdivr_Cdivr (z : C) (u v : R) : Cdivr (Cdivr z u) v = Cdivr z (v * u).
Proof.
  destruct z as [zr zi]. cunfold. unfold Rdiv. rewrite Rinv_mult. f_equal; ring.
Qed.

(** Entry [(k, l)] of [fft2] is the sum of the samples against the plane
    wave whose angular frequencies are those of bins [k] and [l]. *)
Lemma fft2_plane_waves (n1 n2 : Z) (d1 d2 : R) (p : matrix C) (k l : nat) :
  (0 < n1)%Z -> (0 < n2)%Z -> d1 <> 0 -> d2 <> 0 ->
  shape p (Z.to_nat n1) (Z.to_nat n2) ->
  (k < Z.to_nat n1)%nat -> (l < Z.to_nat n2)%nat ->
  getC (fft2 p) k l =
    Csum (fun m => Csum (fun n =>
      Cmult (getC p m n)
            (cis (- (2 * PI * (IZR (bin n1 k) * (1 / (IZR n1 * d1))) * (INR m * d1) +
                     2 * PI * (IZR (bin n2 l) * (1 / (IZR n2 * d2))) * (INR n * d2)))))
      (Z.to_nat n2)) (Z.to_nat n1).
Proof.
  intros H1 H2 Hd1 Hd2 Hp Hk Hl.
  rewrite (get_fft2 p _ _ k l Hp Hk Hl). unfold dft.
  apply Csum_ext; intros m Hm. rewrite <- Csum_mult_r.
  apply Csum_ext; intros n Hn.
  destruct (twiddle_bin n1 d1 m k H1 Hd1 Hk) as [E1 _].
  destruct (twiddle_bin n2 d2 n l H2 Hd2 Hl) as [E2 _].
  rewrite E1, E2, <- Cmult_assoc, <- cis_plus. do 2 f_equal. ring.
Qed.

(** Entry [(i, j)] of [ifft2] is the sum of the coefficients against the
    conjugate plane waves, divided by the number of entries. *)
Lemma ifft2_plane_waves (n1 n2 : Z) (d1 d2 : R) (q : matrix C) (i j : nat) :
  (0 < n1)%Z -> (0 < n2)%Z -> d1 <> 0 -> d2 <> 0 ->
  shape q (Z.to_nat n1) (Z.to_nat n2) ->
  (i < Z.to_nat n1)%nat -> (j < Z.to_nat n2)%nat ->
  getC (ifft2 q) i j =
    Cdivr (Csum (fun k => Csum (fun l =>
      Cmult (getC q k l)
            (cis (2 * PI * (IZR (bin n1 k) * (1 / (IZR n1 * d1))) * (INR i * d1) +
                  2 * PI * (IZR (bin n2 l) * (1 / (IZR n2 * d2))) * (INR j * d2))))
      (Z.to_nat n2)) (Z.to_nat n1))
      (INR (Z.to_nat n1) * INR (Z.to_nat n2)).
Proof.
  intros H1 H2 Hd1 Hd2 Hq Hi Hj.
  rewrite (get_ifft2 q _ _ i j Hq Hi Hj), dft_divr, Cdivr_Cdivr. f_equal.
  unfold dft. apply Csum_ext; intros k Hk. rewrite <- Csum_mult_r.
  apply Csum_ext; intros l Hl.
  destruct (twiddle_bin n1 d1 i k H1 Hd1 Hk) as [_ E1].
  destruct (twiddle_bin n2 d2 j l H2 Hd2 Hl) as [_ E2].
  rewrite (twiddle_sym 1 _ k i), (twiddle_sym 1 _ l j).
  rewrite E1, E2, <- Cmult_assoc, <- cis_plus. do 2 f_equal. ring.
Qed.

(** C8.  [ifft2(fft2(f)) = f] for every complex array [f] (of any shape),
    and [kx], [ky] are laid out in the bin order of that transform pair:
    entry [(k, l)] of [fft2(f)] is the sum of the samples [f[m][n]] against
    the plane wave [exp(-i (kx[k] m dx + ky[l] n dy))], entry [(i, j)] of
    [ifft2(F)] is the sum of the coefficients [F[k][l]] against
    [exp(+i (kx[k] i dx + ky[l] j dy))] divided by [Nx Ny], the 1D kernel
    [exp(-/+ 2 pi i m k / Nx)] of bin [k] is the plane wave of angular
    frequency [kx[k]] sampled at spacing [dx] (likewise along [y]), and
    [K2[k][l] = kx[k]^2 + ky[l]^2] is the squared wavenumber of that bin. *)
Theorem fft_pair_is_matched (c : config) (e : env) :
  setup c = inr e ->
  (forall (p : matrix C) (r s : nat), shape p r s -> ifft2 (fft2 p) = p) /\
  (forall (p : matrix C) k l,
     shape p (Z.to_nat (Nx c)) (Z.to_nat (Ny c)) ->
     (k < Z.to_nat (Nx c))%nat -> (l < Z.to_nat (Ny c))%nat ->
     getC (fft2 p) k l =
       Csum (fun m => Csum (fun n =>
         Cmult (getC p m n)
               (cis (- (nth k (kx e) 0 * (INR m * dx e) +
                        nth l (ky e) 0 * (INR n * dy e)))))
         (Z.to_nat (Ny c))) (Z.to_nat (Nx c))) /\
  (forall (q : matrix C) i j,
     shape q (Z.to_nat (Nx c)) (Z.to_nat (Ny c)) ->
     (i < Z.to_nat (Nx c))%nat -> (j < Z.to_nat (Ny c))%nat ->
     getC (ifft2 q) i j =
       Cdivr (Csum (fun k => Csum (fun l =>
         Cmult (getC q k l)
               (cis (nth k (kx e) 0 * (INR i * dx e) +
                     nth l (ky e) 0 * (INR j * dy e))))
         (Z.to_nat (Ny c))) (Z.to_nat (Nx c)))
         (INR (Z.to_nat (Nx c)) * INR (Z.to_nat (Ny c)))) /\
  (forall m k, (k < Z.to_nat (Nx c))%nat ->
     twiddle (-1) (Z.to_nat (Nx c)) m k = cis (- (nth k (kx e) 0 * (INR m * dx e))) /\
     twiddle 1 (Z.to_nat (Nx c)) m k = cis (nth k (kx e) 0 * (INR m * dx e))) /\
  (forall m k, (k < Z.to_nat (Ny c))%nat ->
     twiddle (-1) (Z.to_nat (Ny c)) m k = cis (- (nth k (ky e) 0 * (INR m * dy e))) /\
     twiddle 1 (Z.to_nat (Ny c)) m k = cis (nth k (ky e) 0 * (INR m * dy e))) /\
  (forall i j, (i < Z.to_nat (Nx c))%nat -> (j < Z.to_nat (Ny c))%nat ->
     getR (K2 e) i j = nth i (kx e) 0 ^ 2 + nth j (ky e) 0 ^ 2).
Proof.
  intros Hset. destruct (setup_kx c e Hset) as [Hkx Hky].
  destruct (setup_inr c e Hset) as (Hnx & Hny & HLx & HLy & Hdx & Hdy & _).
  assert (Hdx0 : dx e <> 0).
  { rewrite Hdx. intros H0. apply HLx. apply (Rmult_eq_reg_r (/ IZR (Nx c))).
    - unfold Rdiv in H0. rewrite H0. ring.
    - apply Rinv_neq_0_compat, not_0_IZR. lia. }
  assert (Hdy0 : dy e <> 0).
  { rewrite Hdy. intros H0. apply HLy. apply (Rmult_eq_reg_r (/ IZR (Ny c))).
    - unfold Rdiv in H0. rewrite H0. ring.
    - apply Rinv_neq_0_compat, not_0_IZR. lia. }
  split; [|split; [|split; [|split; [|split]]]].
  - intros p r s Hp. exact (ifft2_fft2 p r s Hp).
  - intros p k l Hp Hk Hl.
    rewrite (fft2_plane_waves (Nx c) (Ny c) (dx e) (dy e) p k l Hnx Hny Hdx0 Hdy0 Hp Hk Hl).
    apply Csum_ext; intros m Hm. apply Csum_ext; intros n Hn.
    now rewrite (Hkx k Hk), (Hky l Hl).
  - intros q i j Hq Hi Hj.
    rewrite (ifft2_plane_waves (Nx c) (Ny c) (dx e) (dy e) q i j Hnx Hny Hdx0 Hdy0 Hq Hi Hj).
    f_equal. apply Csum_ext; intros k Hk. apply Csum_ext; intros l Hl.
    now rewrite (Hkx k Hk), (Hky l Hl).
  - intros m k Hk. rewrite (Hkx k Hk). exact (twiddle_bin (Nx c) (dx e) m k Hnx Hdx0 Hk).
  - intros m k Hk. rewrite (Hky k Hk). exact (twiddle_bin (Ny c) (dy e) m k Hny Hdy0 Hk).
  - intros i j Hi Hj. exact (setup_K2 c e i j Hset Hi Hj).
Qed.

Lemma fft_pair_witness :
  exists e,
    setup default_config = inr e /\
    ifft2 (fft2 [[Cone; Ci]; [C0; Cone]]) = [[Cone; Ci]; [C0; Cone]] /\
    getC (fft2 (build2 256 256 (fun _ _ => Ci))) 255 7 =
      Csum (fun m => Csum (fun n =>
        Cmult (getC (build2 256 256 (fun _ _ => Ci)) m n)
              (cis (- (nth 255 (kx e) 0 * (INR m * dx e) +
                       nth 7 (ky e) 0 * (INR n * dy e))))) 256) 256 /\
    twiddle (-1) 256 5 255 = cis (- (nth 255 (kx e) 0 * (INR 5 * dx e))).
Proof.
  destruct default_setup as [e He]. exists e. split; [assumption|].
  destruct (fft_pair_is_matched default_config e He) as (Hrt & Hf & _ & Hx & _).
  split; [|split].
  - apply (Hrt _ 2%nat 2%nat). split; [reflexivity|]. repeat constructor.
  - apply (Hf _ 255%nat 7%nat); [apply shape_build2 | |]; apply Nat.ltb_lt; reflexivity.
  - apply (Hx 5%nat 255%nat). apply Nat.ltb_lt. reflexivity.
Defined.

(** ** Non-finite fields *)

Lemma half_step_NonFinite (c : config) (pot : np (matrix R)) :
  half_step c pot NonFinite = NonFinite.
Proof. now destruct pot. Qed.

Lemma step_NonFinite (c : config) (e : env) : step c e NonFinite = NonFinite.
Proof.
  unfold step, evolve. rewrite half_step_NonFinite. simpl.
  now rewrite half_step_NonFinite.
Qed.

Lemma step_NonFinite_potential (c : config) (e : env) (w : np (matrix C)) :
  V e = NonFinite -> step c e w = NonFinite.
Proof. intros HV. unfold step, evolve. rewrite HV. reflexivity. Qed.

(** Once the field holds inf/nan it does so after every later pass. *)
Lemma psi_at_NonFinite (c : config) (e : env) (t k : nat) :
  psi_at c e t = NonFinite -> psi_at c e (t + k) = NonFinite.
Proof.
  intros H. induction k as [|k IH].
  - now rewrite Nat.add_0_r.
  - rewrite Nat.add_succ_r. simpl. rewrite IH. apply step_NonFinite.
Qed.

Lemma bad_divisor_NonFinite (c : config) (e : env) (t : nat) :
  setup c = inr e -> divisor c e t = None \/ divisor c e t = Some 0 ->
  psi_at c e t = NonFinite.
Proof.
  intros Hset Hd. rewrite (psi_at_normalize c e t Hset). unfold divisor in Hd.
  destruct (before_norm c e t) as [p|]; [|reflexivity].
  unfold normalize; simpl. destruct Hd as [-> | ->]; [reflexivity|].
  destruct (Req_dec_T 0 0); [reflexivity | contradiction].
Qed.

(** C5, as the script behaves.  The time loop has no check and raises
    nothing: after a successful setup the program always returns the density
    of the field left by all [steps] passes.  A renormalisation whose divisor
    is zero or nan leaves a non-finite field without any error, and a field
    that is non-finite at some step boundary stays so through every later
    pass and reaches the output density. *)
Theorem loop_never_aborts (c : config) (e : env) :
  setup c = inr e ->
  run c = inr (density (psi_at c e (Z.to_nat (steps c)))) /\
  run c <> inl NumericalInstability /\
  (forall t, divisor c e t = None \/ divisor c e t = Some 0 ->
     psi_at c e t = NonFinite) /\
  (forall t k, psi_at c e t = NonFinite -> psi_at c e (t + k) = NonFinite) /\
  (forall t, (t <= Z.to_nat (steps c))%nat -> psi_at c e t = NonFinite ->
     run c = inr NonFinite).
Proof.
  intros Hset. rewrite (run_setup_ok c e Hset).
  split; [reflexivity|]. split; [discriminate|]. split; [|split].
  - intros t Hd. now apply bad_divisor_NonFinite.
  - intros t k. apply psi_at_NonFinite.
  - intros t Ht Hbad.
    replace (Z.to_nat (steps c)) with (t + (Z.to_nat (steps c) - t))%nat by lia.
    now rewrite (psi_at_NonFinite c e t _ Hbad).
Qed.

Lemma zero_period_setup :
  exists e, setup zero_period_config = inr e /\ V e = NonFinite /\
            exists p, psi e = Finite p.
Proof.
  destruct (setup_ok zero_period_config) as [e He]; simpl; try lia; try lra.
  exists e. split; [assumption|].
  destruct (setup_inr zero_period_config e He)
    as (_ & _ & _ & _ & _ & _ & _ & _ & _ & _ & HV & _).
  split.
  - rewrite HV. unfold potential. simpl a.
    destruct (Req_dec_T 0 0); [reflexivity | contradiction].
  - destruct (setup_steps_pos zero_period_config e He) as [Hdx Hdy]; [simpl; lra | simpl; lra |].
    destruct (gaussian_norm zero_period_config e He) as (p0 & n & Hg & _ & _ & Hn & Hpos).
    { simpl; lra. }
    { now apply Rmult_lt_0_compat. }
    exists (mmap (fun z => Cdivr z n) p0).
    change (psi e) with (psi_at zero_period_config e 0).
    rewrite (psi_at_normalize _ e 0 He). unfold before_norm. rewrite Hg.
    apply (normalize_unit (dx e) (dy e) p0 n Hn). lra.
Qed.

Lemma loop_never_aborts_witness :
  exists e,
    setup zero_period_config = inr e /\
    psi_at zero_period_config e 1 = NonFinite /\
    run zero_period_config = inr NonFinite.
Proof.
  destruct zero_period_setup as (e & He & HV & _). exists e.
  assert (H1 : psi_at zero_period_config e 1 = NonFinite)
    by (simpl; now apply step_NonFinite_potential).
  split; [assumption|]. split; [assumption|].
  destruct (loop_never_aborts zero_period_config e He) as (_ & _ & _ & _ & Hout).
  apply (Hout 1%nat); [|assumption].
  apply Nat.leb_le. reflexivity.
Defined.

(** ** The loop body as a Strang step *)

Lemma Cexp_phase (r d : R) :
  Cexp (Cdivr (Cscale (Cmult (Copp Ci) (RtoC r)) d) 2) = cis (- r * d / 2).
Proof.
  unfold Cexp, Cdivr, Cscale, Cmult, Copp, Ci, RtoC, cis, Re, Im; cbn [fst snd].
  replace ((- 0 * r - - (1) * 0) * d / 2) with 0 by (unfold Rdiv; ring).
  replace ((- 0 * 0 + - (1) * r) * d / 2) with (- r * d / 2) by (unfold Rdiv; ring).
  rewrite exp_0. f_equal; ring.
Qed.

Lemma shape_phase (c : config) (A : matrix R) (r s : nat) :
  shape A r s -> shape (phase c A) r s.
Proof. intros H. unfold phase. now do 4 apply shape_mmap. Qed.

Lemma get_phase (c : config) (A : matrix R) (r s i j : nat) :
  shape A r s -> (i < r)%nat -> (j < s)%nat ->
  getC (phase c A) i j = cis (- getR A i j * dt c / 2).
Proof.
  intros HA Hi Hj. unfold phase, getC, getR.
  rewrite (get_mmap Cexp C0 C0 _ r s i j) by (auto; now do 3 apply shape_mmap).
  rewrite (get_mmap _ C0 C0 _ r s i j) by (auto; now do 2 apply shape_mmap).
  rewrite (get_mmap _ C0 C0 _ r s i j) by (auto; now apply shape_mmap).
  rewrite (get_mmap _ 0 C0 _ r s i j) by auto.
  apply Cexp_phase.
Qed.

Lemma shape_abs2 (p : matrix C) (r s : nat) : shape p r s -> shape (abs2 p) r s.
Proof. intros H. unfold abs2. now do 2 apply shape_mmap. Qed.

Lemma get_abs2 (p : matrix C) (r s i j : nat) :
  shape p r s -> (i < r)%nat -> (j < s)%nat ->
  getR (abs2 p) i j = Cmod (getC p i j) ^ 2.
Proof.
  intros Hp Hi Hj. unfold abs2, getR, getC.
  rewrite (get_mmap _ 0 0 _ r s i j) by (auto; now apply shape_mmap).
  now rewrite (get_mmap Cmod C0 0 _ r s i j) by auto.
Qed.

Lemma shape_dims {A : Type} (m : matrix A) (r s : nat) :
  shape m r s -> shape m (length m) (ncols m) /\ length m = r /\ ((0 < r)%nat -> ncols m = s).
Proof.
  intros Hm. destruct (Nat.eq_dec r 0) as [->|Hr].
  - destruct Hm as [Hlen _]. destruct m; [|discriminate].
    repeat split; auto; try constructor. intros; lia.
  - rewrite (shape_ncols m r s Hm) by lia. destruct Hm as [Hlen Hrows].
    rewrite Hlen. repeat split; auto.
Qed.

Lemma half_step_strang (c : config) (vv : matrix R) (p : matrix C) (r s : nat) :
  shape vv r s -> shape p r s ->
  half_step c (Finite vv) (Finite p) = Finite (strang_half c vv p).
Proof.
  intros Hv Hp. unfold half_step; simpl. f_equal.
  destruct (shape_dims p r s Hp) as (Hd & Hlen & Hcols).
  assert (Hnl : shape (mmap2 Rplus vv (mmap (fun u => g c * u) (abs2 p))) r s)
    by (apply shape_mmap2; [assumption | now apply shape_mmap, shape_abs2]).
  apply (matrix_ext C0 _ _ r s).
  - apply shape_mmap2; [assumption | now apply shape_phase].
  - unfold strang_half. destruct (Nat.eq_dec r 0) as [->|Hr].
    + rewrite Hlen. split; [reflexivity | constructor].
    + rewrite Hlen, Hcols by lia. apply shape_build2.
  - intros i j Hi Hj. unfold strang_half. rewrite Hlen, Hcols by lia.
    rewrite get_build2 by assumption.
    rewrite (get_mmap2 Cmult C0 C0 C0 _ _ r s i j Hp (shape_phase c _ r s Hnl) Hi Hj).
    change (get C0 (phase c ?A) i j) with (getC (phase c A) i j).
    rewrite (get_phase c _ r s i j Hnl Hi Hj). unfold getR.
    rewrite (get_mmap2 Rplus 0 0 0 _ _ r s i j Hv
               (shape_mmap _ _ r s (shape_abs2 p r s Hp)) Hi Hj).
    rewrite (get_mmap _ 0 0 _ r s i j (shape_abs2 p r s Hp) Hi Hj).
    change (get 0 (abs2 p) i j) with (getR (abs2 p) i j).
    rewrite (get_abs2 p r s i j Hp Hi Hj). reflexivity.
Qed.

Lemma kinetic_strang (c : config) (k2 : matrix R) (p : matrix C) (r s : nat) :
  shape k2 r s -> shape p r s ->
  kinetic c k2 (Finite p) = Finite (strang_kinetic c k2 p).
Proof.
  intros Hk Hp. unfold kinetic; simpl. unfold strang_kinetic. do 2 f_equal.
  destruct (shape_dims p r s Hp) as (Hd & Hlen & Hcols).
  apply (matrix_ext C0 _ _ r s).
  - apply shape_mmap2; [now apply shape_fft2 | now apply shape_phase].
  - destruct (Nat.eq_dec r 0) as [->|Hr].
    + rewrite Hlen. split; [reflexivity | constructor].
    + rewrite Hlen, Hcols by lia. apply shape_build2.
  - intros i j Hi Hj. rewrite Hlen, Hcols by lia.
    rewrite get_build2 by assumption.
    rewrite (get_mmap2 Cmult C0 C0 C0 _ _ r s i j
               (shape_fft2 p r s Hp) (shape_phase c _ r s Hk) Hi Hj).
    change (get C0 (phase c k2) i j) with (getC (phase c k2) i j).
    now rewrite (get_phase c k2 r s i j Hk Hi Hj).
Qed.

Lemma shape_strang_half (c : config) (vv : matrix R) (p : matrix C) (r s : nat) :
  shape p r s -> shape (strang_half c vv p) r s.
Proof.
  intros Hp. destruct (shape_dims p r s Hp) as (Hd & Hlen & Hcols).
  unfold strang_half. destruct (Nat.eq_dec r 0) as [->|Hr].
  - rewrite Hlen. split; [reflexivity | constructor].
  - rewrite Hlen, Hcols by lia. apply shape_build2.
Qed.

Lemma shape_strang_kinetic (c : config) (k2 : matrix R) (p : matrix C) (r s : nat) :
  shape p r s -> shape (strang_kinetic c k2 p) r s.
Proof.
  intros Hp. destruct (shape_dims p r s Hp) as (Hd & Hlen & Hcols).
  unfold strang_kinetic. apply shape_ifft2. destruct (Nat.eq_dec r 0) as [->|Hr].
  - rewrite Hlen. split; [reflexivity | constructor].
  - rewrite Hlen, Hcols by lia. apply shape_build2.
Qed.

Lemma V_Finite_shape (c : config) (e : env) (vv : matrix R) :
  setup c = inr e -> V e = Finite vv ->
  a c <> 0 /\ shape vv (Z.to_nat (Nx c)) (Z.to_nat (Ny c)).
Proof.
  intros Hset HV. destruct (Req_dec_T (a c) 0) as [Ha|Ha].
  - exfalso. destruct (setup_inr c e Hset)
      as (_ & _ & _ & _ & _ & _ & _ & _ & _ & _ & HV' & _).
    rewrite HV' in HV. unfold potential in HV.
    destruct (Req_dec_T (a c) 0); [discriminate | contradiction].
  - split; [assumption|].
    destruct (potential_entries c e Hset Ha) as (vv' & HV' & Hs & _).
    rewrite HV in HV'. inversion HV'. now subst.
Qed.

Lemma gaussian_shape (c : config) (gX gY : matrix R) (p0 : matrix C) (r s : nat) :
  gaussian c gX gY = Finite p0 -> shape gX r s -> shape gY r s -> shape p0 r s.
Proof.
  unfold gaussian. cbv zeta. intros H HX HY.
  destruct (Req_dec_T (2 * sigma c ^ 2) 0);
    [destruct (has_zero _); [discriminate|] |];
    inversion H; apply shape_mmap; apply shape_mmap2; now apply shape_mmap.
Qed.

Lemma evolve_strang (c : config) (e : env) (vv : matrix R) (p : matrix C) :
  setup c = inr e -> V e = Finite vv ->
  shape p (Z.to_nat (Nx c)) (Z.to_nat (Ny c)) ->
  evolve c e (Finite p) =
  Finite (strang_half c vv (strang_kinetic c (K2 e) (strang_half c vv p))).
Proof.
  intros Hset HV Hp.
  destruct (V_Finite_shape c e vv Hset HV) as [_ Hv].
  destruct (setup_shapes c e Hset) as (_ & _ & _ & _ & _ & _ & HK).
  unfold evolve. rewrite HV.
  rewrite (half_step_strang c vv p _ _ Hv Hp).
  rewrite (kinetic_strang c (K2 e) _ _ _ HK (shape_strang_half c vv p _ _ Hp)).
  apply (half_step_strang c vv _ _ _ Hv).
  apply shape_strang_kinetic. now apply shape_strang_half.
Qed.

Lemma evolve_Finite (c : config) (e : env) (w : np (matrix C)) (q : matrix C) :
  evolve c e w = Finite q -> exists vv p, V e = Finite vv /\ w = Finite p.
Proof.
  unfold evolve. destruct (V e) as [vv|]; [|discriminate].
  destruct w as [p|]; [|discriminate]. intros _. now exists vv, p.
Qed.

(** Every finite field at a step boundary has the shape of the grid. *)
Lemma psi_at_shape (c : config) (e : env) (t : nat) (p : matrix C) :
  setup c = inr e -> psi_at c e t = Finite p ->
  shape p (Z.to_nat (Nx c)) (Z.to_nat (Ny c)).
Proof.
  intros Hset. revert p. induction t as [|t IH]; intros p Hp.
  - rewrite (psi_at_normalize c e 0 Hset) in Hp. apply normalize_Finite in Hp.
    destruct Hp as (p0 & n & Hg & _ & _ & ->). unfold before_norm in Hg.
    destruct (setup_shapes c e Hset) as (_ & _ & SX & SY & _).
    apply shape_mmap. exact (gaussian_shape c _ _ p0 _ _ Hg SX SY).
  - simpl in Hp. unfold step in Hp. apply normalize_Finite in Hp.
    destruct Hp as (p1 & n & Hev & _ & _ & ->). apply shape_mmap.
    destruct (evolve_Finite c e _ p1 Hev) as (vv & p' & HV & Hw).
    rewrite Hw in Hev. rewrite (evolve_strang c e vv p' Hset HV (IH p' Hw)) in Hev.
    inversion Hev. apply shape_strang_half, shape_strang_kinetic, shape_strang_half.
    exact (IH p' Hw).
Qed.


(** ** Reflection symmetry through the transforms *)

Lemma neg_Z (n l : nat) :
  (l < n)%nat -> exists q, Z.of_nat (neg n l) = (- Z.of_nat l + Z.of_nat n * q)%Z.
Proof.
  intros Hl. destruct l as [|l].
  - rewrite neg_0. exists 0%Z. lia.
  - rewrite neg_pos by lia. exists 1%Z. lia.
Qed.

(** Reversing the samples (and scaling them by [z]) sends bin [k] of the
    forward transform to bin [-k], up to the factor [z W^(-k)]. *)
Lemma dft_reflect (n : nat) (f h : nat -> C) (z : C) (k : nat) :
  (forall m, (m < n)%nat -> h m = Cmult z (f (n - 1 - m)%nat)) -> (k < n)%nat ->
  dft (-1) n h (neg n k) = Cmult (Cmult z (W n (- Z.of_nat k))) (dft (-1) n f k).
Proof.
  intros Hh Hk. destruct (neg_Z n k Hk) as [q Hq]. unfold dft.
  rewrite <- Csum_mult_l.
  rewrite <- (Csum_rev (fun m => Cmult (Cmult z (W n (- Z.of_nat k)))
                                  (Cmult (f m) (twiddle (-1) n m k))) n).
  apply Csum_ext. intros m Hm. rewrite (Hh m Hm).
  rewrite !twiddle_neg.
  rewrite (W_congr n (- (Z.of_nat m * Z.of_nat (neg n k)))
             (- Z.of_nat k + - (Z.of_nat (n - 1 - m) * Z.of_nat k))
             (Z.of_nat k - Z.of_nat m * q)) by nia.
  rewrite W_plus. cring.
Qed.

(** The converse for the inverse transform: data that are mirrored up to
    [z W^(-l)] in frequency give samples that are reversed up to [z]. *)
Lemma idft_reflect (n : nat) (G G' : nat -> C) (z : C) (j : nat) :
  (forall l, (l < n)%nat ->
     G' (neg n l) = Cmult (Cmult z (W n (- Z.of_nat l))) (G l)) -> (j < n)%nat ->
  dft 1 n G' (n - 1 - j) = Cmult z (dft 1 n G j).
Proof.
  intros HG Hj. unfold dft.
  rewrite <- (Csum_neg (fun l => Cmult (G' l) (twiddle 1 n l (n - 1 - j))) n).
  rewrite <- Csum_mult_l. apply Csum_ext. intros l Hl.
  rewrite (HG l Hl). destruct (neg_Z n l Hl) as [q Hq].
  rewrite !twiddle_pos.
  rewrite (W_congr n (Z.of_nat (neg n l) * Z.of_nat (n - 1 - j))
             (Z.of_nat l + Z.of_nat l * Z.of_nat j)
             (q * Z.of_nat (n - 1 - j) - Z.of_nat l)) by nia.
  rewrite W_plus.
  rewrite <- (Cmult_1_l (G l)) at 2. rewrite <- (W_0 n).
  replace 0%Z with (- Z.of_nat l + Z.of_nat l)%Z by lia. rewrite W_plus. cring.
Qed.

Lemma get_strang_kinetic (c : config) (k2 : matrix R) (p : matrix C) (r s i j : nat) :
  shape p r s -> (i < r)%nat -> (j < s)%nat ->
  getC (strang_kinetic c k2 p) i j =
  kinetic_entry r s (getC p) (fun k l => cis (- getR k2 k l * dt c / 2)) i j.
Proof.
  intros Hp Hi Hj. destruct (shape_dims p r s Hp) as (_ & Hlen & Hcols).
  unfold strang_kinetic. rewrite Hlen, Hcols by lia.
  rewrite (get_ifft2 _ r s i j (shape_build2 r s _) Hi Hj).
  unfold kinetic_entry. f_equal. apply dft_ext. intros k Hk. f_equal.
  apply dft_ext. intros l Hl. unfold getC at 1. rewrite get_build2 by assumption.
  now rewrite (get_fft2 p r s k l Hp Hk Hl).
Qed.

Lemma sub_sub_id (n i : nat) : (i < n)%nat -> (n - 1 - (n - 1 - i) = i)%nat.
Proof. lia. Qed.

(** The kinetic step of a symmetric field with an even multiplier is
    symmetric. *)
Lemma kinetic_entry_symmetric (r s : nat) (P Mu : nat -> nat -> C) :
  symmetric r s P -> even r s Mu -> symmetric r s (kinetic_entry r s P Mu).
Proof.
  intros HP HMu i j Hi Hj.
  set (A := fun m l => dft (-1) s (fun n => P m n) l).
  set (B := fun k l => dft (-1) r (fun m => A m l) k).
  set (G := fun k l => Cmult (B k l) (Mu k l)).
  set (H := fun k j' => dft 1 s (fun l => G k l) j').
  assert (HA : forall m l, (m < r)%nat -> (l < s)%nat ->
            A (r - 1 - m)%nat (neg s l) = Cmult (Cmult Cone (W s (- Z.of_nat l))) (A m l)).
  { intros m l Hm Hl. unfold A. apply dft_reflect; [|assumption].
    intros n Hn. rewrite Cmult_1_l. rewrite <- (HP m (s - 1 - n)%nat) by lia.
    now rewrite sub_sub_id. }
  assert (HB : forall k l, (k < r)%nat -> (l < s)%nat ->
            B (neg r k) (neg s l) =
            Cmult (Cmult (W s (- Z.of_nat l)) (W r (- Z.of_nat k))) (B k l)).
  { intros k l Hk Hl. unfold B. apply dft_reflect; [|assumption].
    intros m Hm. rewrite <- (sub_sub_id r m Hm) at 1.
    rewrite HA by lia. now rewrite Cmult_1_l. }
  assert (HG : forall k l, (k < r)%nat -> (l < s)%nat ->
            G (neg r k) (neg s l) =
            Cmult (Cmult (W r (- Z.of_nat k)) (W s (- Z.of_nat l))) (G k l)).
  { intros k l Hk Hl. unfold G. rewrite HB, HMu by assumption. cring. }
  assert (HH : forall k j', (k < r)%nat -> (j' < s)%nat ->
            H (neg r k) (s - 1 - j')%nat = Cmult (W r (- Z.of_nat k)) (H k j')).
  { intros k j' Hk Hj'. unfold H. apply idft_reflect; [|assumption].
    intros l Hl. now apply HG. }
  unfold kinetic_entry.
  change (Cdivr (dft 1 r (fun k => Cdivr (H k (s - 1 - j)%nat) (INR s)) (r - 1 - i)) (INR r) =
          Cdivr (dft 1 r (fun k => Cdivr (H k j) (INR s)) i) (INR r)).
  f_equal. rewrite <- (Cmult_1_l (dft 1 r _ i)).
  apply idft_reflect; [|assumption].
  intros k Hk. rewrite HH by assumption.
  rewrite <- Cdivr_mult_r. f_equal. cring.
Qed.

(** ** Symmetry of the grid, the potential and the multiplier *)

Lemma bin_neg (n : Z) (k : nat) :
  (0 < n)%Z -> (k < Z.to_nat n)%nat ->
  bin n (neg (Z.to_nat n) k) = (- bin n k)%Z \/ bin n (neg (Z.to_nat n) k) = bin n k.
Proof.
  intros Hn Hk. destruct k as [|k].
  - rewrite neg_0. now right.
  - rewrite neg_pos by lia. unfold bin.
    replace (Z.of_nat (Z.to_nat n - S k)) with (n - Z.of_nat (S k))%Z by lia.
    destruct (Z.ltb_spec (n - Z.of_nat (S k)) ((n - 1) / 2 + 1));
      destruct (Z.ltb_spec (Z.of_nat (S k)) ((n - 1) / 2 + 1));
      Z.div_mod_to_equations; lia.
Qed.

Lemma K2_even (c : config) (e : env) :
  setup c = inr e -> even (Z.to_nat (Nx c)) (Z.to_nat (Ny c)) (getR (K2 e)).
Proof.
  intros Hset k l Hk Hl.
  destruct (setup_inr c e Hset) as (Hnx & Hny & _).
  destruct (setup_kx c e Hset) as [Hkx Hky].
  assert (Hnk : (neg (Z.to_nat (Nx c)) k < Z.to_nat (Nx c))%nat) by (apply neg_lt; lia).
  assert (Hnl : (neg (Z.to_nat (Ny c)) l < Z.to_nat (Ny c))%nat) by (apply neg_lt; lia).
  rewrite (setup_K2 c e _ _ Hset Hnk Hnl), (setup_K2 c e k l Hset Hk Hl).
  rewrite (Hkx _ Hnk), (Hkx k Hk), (Hky _ Hnl), (Hky l Hl).
  destruct (bin_neg (Nx c) k Hnx Hk) as [-> | ->];
    destruct (bin_neg (Ny c) l Hny Hl) as [-> | ->];
    rewrite ?opp_IZR; ring.
Qed.

Lemma grid_reflect (c : config) (e : env) (i j : nat) :
  setup c = inr e -> (i < Z.to_nat (Nx c))%nat -> (j < Z.to_nat (Ny c))%nat ->
  (getR (X e) (Z.to_nat (Nx c) - 1 - i) (Z.to_nat (Ny c) - 1 - j) = - getR (X e) i j \/
   getR (X e) (Z.to_nat (Nx c) - 1 - i) (Z.to_nat (Ny c) - 1 - j) = getR (X e) i j) /\
  (getR (Y e) (Z.to_nat (Nx c) - 1 - i) (Z.to_nat (Ny c) - 1 - j) = - getR (Y e) i j \/
   getR (Y e) (Z.to_nat (Nx c) - 1 - i) (Z.to_nat (Ny c) - 1 - j) = getR (Y e) i j).
Proof.
  intros Hset Hi Hj.
  destruct (setup_inr c e Hset) as (_ & _ & _ & _ & _ & _ & Hx & Hy & HX & HY & _).
  destruct (setup_shapes c e Hset) as (Lx' & Ly' & _).
  destruct (get_meshgrid (x e) (y e) i j) as [G1 G2]; [lia | lia |].
  destruct (get_meshgrid (x e) (y e) (Z.to_nat (Nx c) - 1 - i) (Z.to_nat (Ny c) - 1 - j))
    as [G3 G4]; [lia | lia |].
  rewrite HX, HY, G1, G2, G3, G4.
  replace (- Lx c / 2) with (- (Lx c / 2)) in Hx by (unfold Rdiv; ring).
  replace (- Ly c / 2) with (- (Ly c / 2)) in Hy by (unfold Rdiv; ring).
  split.
  - exact (linspace_reflect _ _ _ i Hx Hi).
  - exact (linspace_reflect _ _ _ j Hy Hj).
Qed.

Lemma V_symmetric (c : config) (e : env) (vv : matrix R) :
  setup c = inr e -> V e = Finite vv ->
  symmetric (Z.to_nat (Nx c)) (Z.to_nat (Ny c)) (getR vv).
Proof.
  intros Hset HV i j Hi Hj.
  destruct (V_Finite_shape c e vv Hset HV) as [Ha _].
  destruct (potential_entries c e Hset Ha) as (vv' & HV' & _ & Hval).
  rewrite HV in HV'. inversion HV'; subst vv'.
  rewrite !Hval by lia. unfold V_at.
  destruct (grid_reflect c e i j Hset Hi Hj) as [[-> | ->] [-> | ->]]; trivial;
    repeat match goal with
           | |- context [cos (PI * - ?u / ?p)] =>
               replace (PI * - u / p) with (- (PI * u / p)) by (unfold Rdiv; ring);
               rewrite cos_neg
           end; reflexivity.
Qed.

Lemma gaussian_entries (c : config) (gX gY : matrix R) (p0 : matrix C) (r s : nat) :
  gaussian c gX gY = Finite p0 -> shape gX r s -> shape gY r s ->
  (forall i j, (i < r)%nat -> (j < s)%nat -> getC p0 i j = C0) \/
  (forall i j, (i < r)%nat -> (j < s)%nat ->
     getC p0 i j = RtoC (exp (- (getR gX i j ^ 2 + getR gY i j ^ 2) / (2 * sigma c ^ 2)))).
Proof.
  unfold gaussian. cbv zeta. intros H HX HY.
  assert (Hr2 : shape (mmap2 Rplus (mmap (fun v => v ^ 2) gX) (mmap (fun v => v ^ 2) gY)) r s)
    by (apply shape_mmap2; now apply shape_mmap).
  destruct (Req_dec_T (2 * sigma c ^ 2) 0).
  - destruct (has_zero _); [discriminate|]. inversion H. left. intros i j Hi Hj.
    unfold getC. now rewrite (get_mmap _ 0 C0 _ r s i j Hr2 Hi Hj).
  - inversion H. right. intros i j Hi Hj. unfold getC, getR.
    rewrite (get_mmap _ 0 C0 _ r s i j Hr2 Hi Hj).
    rewrite (get_mmap2 Rplus 0 0 0 _ _ r s i j
               (shape_mmap _ _ r s HX) (shape_mmap _ _ r s HY) Hi Hj).
    rewrite (get_mmap _ 0 0 _ r s i j HX Hi Hj).
    now rewrite (get_mmap _ 0 0 _ r s i j HY Hi Hj).
Qed.

Lemma gaussian_symmetric (c : config) (e : env) (p0 : matrix C) :
  setup c = inr e -> gaussian c (X e) (Y e) = Finite p0 ->
  symmetric (Z.to_nat (Nx c)) (Z.to_nat (Ny c)) (getC p0).
Proof.
  intros Hset Hg i j Hi Hj.
  destruct (setup_shapes c e Hset) as (_ & _ & SX & SY & _).
  destruct (gaussian_entries c _ _ p0 _ _ Hg SX SY) as [Hall|Hall].
  - now rewrite !Hall by lia.
  - rewrite !Hall by lia.
    destruct (grid_reflect c e i j Hset Hi Hj) as [[-> | ->] [-> | ->]];
      do 2 f_equal; unfold Rdiv; ring.
Qed.

(** ** Symmetry through one pass *)

Lemma scaled_symmetric (p : matrix C) (n : R) (r s : nat) :
  shape p r s -> symmetric r s (getC p) ->
  symmetric r s (getC (mmap (fun z => Cdivr z n) p)).
Proof.
  intros Hp Hsym i j Hi Hj. unfold getC.
  rewrite (get_mmap _ C0 C0 p r s) by (auto; lia).
  rewrite (get_mmap _ C0 C0 p r s i j) by auto.
  f_equal. now apply Hsym.
Qed.

Lemma get_strang_half (c : config) (vv : matrix R) (p : matrix C) (r s i j : nat) :
  shape p r s -> (i < r)%nat -> (j < s)%nat ->
  getC (strang_half c vv p) i j =
  Cmult (getC p i j) (cis (- (getR vv i j + g c * Cmod (getC p i j) ^ 2) * dt c / 2)).
Proof.
  intros Hp Hi Hj. destruct (shape_dims p r s Hp) as (_ & Hlen & Hcols).
  unfold strang_half, getC at 1. rewrite Hlen, Hcols by lia.
  now rewrite get_build2.
Qed.

Lemma strang_half_symmetric (c : config) (vv : matrix R) (p : matrix C) (r s : nat) :
  shape p r s -> symmetric r s (getR vv) -> symmetric r s (getC p) ->
  symmetric r s (getC (strang_half c vv p)).
Proof.
  intros Hp Hv Hsym i j Hi Hj.
  rewrite (get_strang_half c vv p r s _ _ Hp) by lia.
  rewrite (get_strang_half c vv p r s i j Hp Hi Hj).
  now rewrite Hv, Hsym.
Qed.

Lemma strang_kinetic_symmetric (c : config) (k2 : matrix R) (p : matrix C) (r s : nat) :
  shape p r s -> even r s (getR k2) -> symmetric r s (getC p) ->
  symmetric r s (getC (strang_kinetic c k2 p)).
Proof.
  intros Hp Hk Hsym i j Hi Hj.
  rewrite (get_strang_kinetic c k2 p r s _ _ Hp) by lia.
  rewrite (get_strang_kinetic c k2 p r s i j Hp Hi Hj).
  apply kinetic_entry_symmetric; try assumption.
  intros k l Hk' Hl'. now rewrite Hk.
Qed.

(** The field is symmetric at every step boundary. *)
Lemma psi_at_symmetric (c : config) (e : env) (t : nat) (p : matrix C) :
  setup c = inr e -> psi_at c e t = Finite p ->
  symmetric (Z.to_nat (Nx c)) (Z.to_nat (Ny c)) (getC p).
Proof.
  intros Hset. revert p. induction t as [|t IH]; intros p Hp.
  - rewrite (psi_at_normalize c e 0 Hset) in Hp. apply normalize_Finite in Hp.
    destruct Hp as (p0 & n & Hg & _ & _ & ->). unfold before_norm in Hg.
    destruct (setup_shapes c e Hset) as (_ & _ & SX & SY & _).
    apply scaled_symmetric.
    + exact (gaussian_shape c _ _ p0 _ _ Hg SX SY).
    + exact (gaussian_symmetric c e p0 Hset Hg).
  - simpl in Hp. unfold step in Hp. apply normalize_Finite in Hp.
    destruct Hp as (p1 & n & Hev & _ & _ & ->).
    destruct (evolve_Finite c e _ p1 Hev) as (vv & p' & HV & Hw).
    assert (Hs' := psi_at_shape c e t p' Hset Hw).
    rewrite Hw in Hev. rewrite (evolve_strang c e vv p' Hset HV Hs') in Hev.
    inversion Hev; subst p1.
    assert (Hvs := V_symmetric c e vv Hset HV).
    apply scaled_symmetric.
    + now apply shape_strang_half, shape_strang_kinetic, shape_strang_half.
    + apply strang_half_symmetric; [| assumption |].
      * now apply shape_strang_kinetic, shape_strang_half.
      * apply strang_kinetic_symmetric.
        -- now apply shape_strang_half.
        -- now apply K2_even.
        -- apply strang_half_symmetric; auto.
Qed.

(** ** The forward transform undoes the inverse one *)

Lemma dft_inverse_fwd (n : nat) (f : nat -> C) (k : nat) :
  (k < n)%nat -> dft (-1) n (dft 1 n f) k = Cmult (RtoC (INR n)) (f k).
Proof.
  intros Hk. unfold dft.
  rewrite (Csum_ext _ (fun l => Csum (fun m =>
             Cmult (f m) (W n (Z.of_nat l * (Z.of_nat m - Z.of_nat k)))) n)).
  - rewrite Csum_swap.
    rewrite (Csum_ext _ (fun m =>
               Cmult (f m) (if (Z.of_nat m - Z.of_nat k =? 0)%Z then RtoC (INR n) else C0))).
    + rewrite (Csum_single _ n k Hk).
      * rewrite Z.sub_diag. simpl. apply Cmult_comm.
      * intros i Hi Hne. destruct (Z.eqb_spec (Z.of_nat i - Z.of_nat k) 0); [lia|].
        apply Cmult_0_r.
    + intros m Hm. rewrite Csum_mult_l. f_equal. apply W_orthogonal. lia.
  - intros l Hl. rewrite <- Csum_mult_r. apply Csum_ext. intros m Hm.
    rewrite twiddle_neg, twiddle_pos, <- Cmult_assoc, <- W_plus. do 2 f_equal. lia.
Qed.

Lemma get_fft2_ifft2 (q : matrix C) (r s k l : nat) :
  shape q r s -> (k < r)%nat -> (l < s)%nat ->
  getC (fft2 (ifft2 q)) k l = getC q k l.
Proof.
  intros Hq Hk Hl.
  rewrite (get_fft2 _ r s k l (shape_ifft2 q r s Hq) Hk Hl).
  rewrite (dft_ext (-1) r _ (fun m => Cdivr (dft 1 r (fun k' => getC q k' l) m) (INR r))).
  - rewrite dft_divr, dft_inverse_fwd by assumption. apply Cdivr_cancel. lia.
  - intros m Hm.
    rewrite (dft_ext (-1) s _ (fun n =>
               Cdivr (dft 1 r (fun k' => Cdivr (dft 1 s (fun l' => getC q k' l') n) (INR s)) m)
                     (INR r)))
      by (intros n Hn; now apply get_ifft2).
    rewrite dft_divr. f_equal. rewrite dft_swap. apply dft_ext. intros k' Hk'.
    rewrite dft_divr, dft_inverse_fwd by assumption. apply Cdivr_cancel. lia.
Qed.

(** ** Fields that vanish everywhere *)

Lemma dft_zero (sg : R) (n : nat) (f : nat -> C) (k : nat) :
  (forall m, (m < n)%nat -> f m = C0) -> dft sg n f k = C0.
Proof.
  intros H. unfold dft. rewrite (Csum_ext _ (fun _ => C0)).
  - apply Csum_zero.
  - intros m Hm. rewrite H by assumption. apply Cmult_0_l.
Qed.

Lemma fft2_vanishes (p : matrix C) (r s : nat) :
  shape p r s -> vanishes r s p -> vanishes r s (fft2 p).
Proof.
  intros Hp Hz k l Hk Hl. rewrite (get_fft2 p r s k l Hp Hk Hl).
  apply dft_zero. intros m Hm. apply dft_zero. intros n Hn. now apply Hz.
Qed.

Lemma ifft2_vanishes (p : matrix C) (r s : nat) :
  shape p r s -> vanishes r s p -> vanishes r s (ifft2 p).
Proof.
  intros Hp Hz i j Hi Hj. rewrite (get_ifft2 p r s i j Hp Hi Hj).
  rewrite dft_zero; [apply Cdivr_0|]. intros k Hk.
  rewrite dft_zero; [apply Cdivr_0|]. intros l Hl. now apply Hz.
Qed.

Lemma Cmod_sqr_zero (z : C) : Cmod z ^ 2 = 0 -> z = C0.
Proof.
  rewrite Cmod_sqr. destruct z as [u v]. unfold Re, Im, C0; simpl. intros H.
  assert (u = 0) by nra. assert (v = 0) by nra. now subst.
Qed.

Lemma Cmult_cis_zero (z : C) (t : R) : Cmult z (cis t) = C0 -> z = C0.
Proof.
  intros H. apply Cmod_sqr_zero.
  assert (Hm : Cmod (Cmult z (cis t)) ^ 2 = 0).
  { rewrite H, Cmod_sqr. unfold C0, Re, Im; simpl. ring. }
  rewrite Cmod_sqr_mult, Cmod_sqr_cis in Hm. lra.
Qed.

Lemma strang_half_vanishes (c : config) (vv : matrix R) (p : matrix C) (r s : nat) :
  shape p r s -> vanishes r s (strang_half c vv p) -> vanishes r s p.
Proof.
  intros Hp Hz i j Hi Hj. specialize (Hz i j Hi Hj).
  rewrite (get_strang_half c vv p r s i j Hp Hi Hj) in Hz.
  exact (Cmult_cis_zero _ _ Hz).
Qed.

Lemma strang_kinetic_vanishes (c : config) (k2 : matrix R) (p : matrix C) (r s : nat) :
  shape p r s -> vanishes r s (strang_kinetic c k2 p) -> vanishes r s p.
Proof.
  intros Hp Hz. destruct (shape_dims p r s Hp) as (_ & Hlen & Hcols).
  destruct (Nat.eq_dec r 0) as [->|Hr]; [intros i j Hi; lia|].
  unfold strang_kinetic in Hz. rewrite Hlen, Hcols in Hz by lia.
  set (G := build2 r s (fun i j =>
              Cmult (getC (fft2 p) i j) (cis (- getR k2 i j * dt c / 2)))) in Hz.
  assert (HG : shape G r s) by apply shape_build2.
  assert (Hf : vanishes r s (fft2 p)).
  { intros k l Hk Hl.
    assert (H0 : getC G k l = C0).
    { rewrite <- (get_fft2_ifft2 G r s k l HG Hk Hl).
      exact (fft2_vanishes _ r s (shape_ifft2 G r s HG) Hz k l Hk Hl). }
    unfold G, getC at 1 in H0. rewrite get_build2 in H0 by assumption.
    exact (Cmult_cis_zero _ _ H0). }
  rewrite <- (ifft2_fft2 p r s Hp).
  apply ifft2_vanishes; [now apply shape_fft2 | assumption].
Qed.

Lemma Rsum_list_zero (l : list R) :
  (forall v, In v l -> 0 <= v) -> Rsum_list l = 0 -> forall v, In v l -> v = 0.
Proof.
  induction l as [|u l IH]; simpl; intros Hpos Hsum v Hv; [contradiction|].
  assert (Hu : 0 <= u) by (apply Hpos; auto).
  assert (Hl : 0 <= Rsum_list l) by (apply Rsum_list_nonneg; intros; apply Hpos; auto).
  destruct Hv as [<-|Hv]; [lra|]. apply IH; auto. lra.
Qed.

Lemma abs2_sum_zero (p : matrix C) (r s : nat) :
  shape p r s -> np_sum (abs2 p) = 0 -> vanishes r s p.
Proof.
  intros Hp Hsum i j Hi Hj. apply Cmod_sqr_zero.
  rewrite <- (get_abs2 p r s i j Hp Hi Hj).
  assert (Ha : shape (abs2 p) r s) by now apply shape_abs2.
  assert (Hrow : In (nth i (abs2 p) []) (abs2 p)) by (apply nth_In; destruct Ha; lia).
  assert (Hin : In (getR (abs2 p) i j) (nth i (abs2 p) [])).
  { unfold getR, get. apply nth_In. now rewrite (shape_row _ r s i Ha Hi). }
  assert (Hnn : forall row, In row (abs2 p) -> forall v, In v row -> 0 <= v).
  { intros row Hr v Hv. unfold abs2 in Hr.
    apply in_mmap in Hr. destruct Hr as [r1 [Hr1 ->]].
    apply in_mmap in Hr1. destruct Hr1 as [r2 [_ ->]].
    rewrite map_map in Hv. apply in_map_iff in Hv. destruct Hv as [z [<- _]].
    apply Cmod_sqr_nonneg. }
  apply (Rsum_list_zero (nth i (abs2 p) [])); [now apply Hnn | | assumption].
  apply (Rsum_list_zero (map Rsum_list (abs2 p))).
  - intros v Hv. apply in_map_iff in Hv. destruct Hv as [row [<- Hr]].
    apply Rsum_list_nonneg. now apply Hnn.
  - exact Hsum.
  - now apply in_map.
Qed.

Lemma Rsum_list_all_zero (l : list R) : (forall v, In v l -> v = 0) -> Rsum_list l = 0.
Proof.
  induction l as [|u l IH]; simpl; intros H; [reflexivity|].
  rewrite (H u) by auto. rewrite IH by auto. ring.
Qed.

Lemma vanishes_sum_zero (p : matrix C) (r s : nat) :
  shape p r s -> vanishes r s p -> np_sum (abs2 p) = 0.
Proof.
  intros Hp Hz. assert (Ha : shape (abs2 p) r s) by now apply shape_abs2.
  apply Rsum_list_all_zero. intros v Hv.
  apply in_map_iff in Hv. destruct Hv as [row [<- Hrow]].
  apply Rsum_list_all_zero. intros u Hu.
  apply (In_nth _ _ []) in Hrow. destruct Hrow as (i & Hi & <-).
  destruct Ha as [Hlen Hrows]. rewrite Hlen in Hi.
  assert (Ha : shape (abs2 p) r s) by (split; assumption).
  apply (In_nth _ _ 0) in Hu. destruct Hu as (j & Hj & <-).
  rewrite (shape_row _ r s i Ha Hi) in Hj.
  change (getR (abs2 p) i j = 0). rewrite (get_abs2 p r s i j Hp Hi Hj).
  rewrite (Hz i j Hi Hj), Cmod_sqr. unfold C0, Re, Im; simpl. ring.
Qed.

(** ** One pass of the loop, step by step *)

(** C2.  Every pass of the loop, on any finite field [p] of the grid's
    shape, is in this order: (1) the half step [p exp(-i (V + g |p|^2) dt / 2)]
    with the density of the field it receives; (2) forward transform,
    multiplication by [exp(-i K2 dt / 2)], inverse transform; (3) the same
    half step again, now with the density of the field the kinetic step
    returned, giving [q]; (4) the division of every entry of [q] by
    [sqrt(sum |q|^2 dx dy)], which leaves inf/nan when that radicand is not
    positive.  The field after pass [t + 1] is this applied to the field
    after pass [t]. *)
Theorem every_pass_is_a_strang_step (c : config) (e : env)
        (vv : matrix R) (p : matrix C) :
  setup c = inr e -> V e = Finite vv ->
  shape p (Z.to_nat (Nx c)) (Z.to_nat (Ny c)) ->
  exists q,
    q = strang_half c vv (strang_kinetic c (K2 e) (strang_half c vv p)) /\
    shape q (Z.to_nat (Nx c)) (Z.to_nat (Ny c)) /\
    (0 < np_sum (abs2 q) * dx e * dy e ->
     exists r,
       step c e (Finite p) = Finite r /\
       shape r (Z.to_nat (Nx c)) (Z.to_nat (Ny c)) /\
       forall i j, (i < Z.to_nat (Nx c))%nat -> (j < Z.to_nat (Ny c))%nat ->
         getC r i j = Cdivr (getC q i j) (sqrt (np_sum (abs2 q) * dx e * dy e))) /\
    (np_sum (abs2 q) * dx e * dy e <= 0 -> step c e (Finite p) = NonFinite) /\
    (forall u i j, shape u (Z.to_nat (Nx c)) (Z.to_nat (Ny c)) ->
       (i < Z.to_nat (Nx c))%nat -> (j < Z.to_nat (Ny c))%nat ->
       getC (strang_half c vv u) i j =
         Cmult (getC u i j) (cis (- (getR vv i j + g c * Cmod (getC u i j) ^ 2) * dt c / 2)) /\
       strang_kinetic c (K2 e) u =
         ifft2 (build2 (Z.to_nat (Nx c)) (Z.to_nat (Ny c)) (fun k l =>
                  Cmult (getC (fft2 u) k l) (cis (- getR (K2 e) k l * dt c / 2))))) /\
    (forall t, psi_at c e (S t) = step c e (psi_at c e t)).
Proof.
  intros Hset HV Hp.
  set (q := strang_half c vv (strang_kinetic c (K2 e) (strang_half c vv p))).
  assert (Hq : shape q (Z.to_nat (Nx c)) (Z.to_nat (Ny c)))
    by now apply shape_strang_half, shape_strang_kinetic, shape_strang_half.
  assert (Hstep : step c e (Finite p) = normalize (dx e) (dy e) (Finite q))
    by (unfold step; now rewrite (evolve_strang c e vv p Hset HV Hp)).
  exists q. split; [reflexivity|]. split; [assumption|]. split; [|split; [|split]].
  - intros Hpos. exists (mmap (fun z => Cdivr z (sqrt (np_sum (abs2 q) * dx e * dy e))) q).
    split; [|split].
    + rewrite Hstep. unfold normalize; simpl. unfold norm_of, np_sqrt.
      destruct (Rlt_dec (np_sum (abs2 q) * dx e * dy e) 0) as [Hlt|_]; [lra|].
      destruct (Req_dec_T (sqrt (np_sum (abs2 q) * dx e * dy e)) 0) as [H0|_]; [|reflexivity].
      exfalso. generalize (sqrt_lt_R0 _ Hpos). lra.
    + now apply shape_mmap.
    + intros i j Hi Hj. unfold getC. now rewrite (get_mmap _ C0 C0 q _ _ i j Hq Hi Hj).
  - intros Hneg. rewrite Hstep. unfold normalize; simpl. unfold norm_of, np_sqrt.
    destruct (Rlt_dec (np_sum (abs2 q) * dx e * dy e) 0) as [Hlt|Hge]; [reflexivity|].
    assert (H0 : np_sum (abs2 q) * dx e * dy e = 0) by lra.
    rewrite H0, sqrt_0. destruct (Req_dec_T 0 0); [reflexivity | contradiction].
  - intros u i j Hu Hi Hj.
    destruct (shape_dims u _ _ Hu) as (_ & Hlen & Hcols). split.
    + unfold strang_half, getC at 1. rewrite Hlen, Hcols by lia.
      now rewrite get_build2.
    + unfold strang_kinetic. now rewrite Hlen, Hcols by lia.
  - intros t. reflexivity.
Qed.

Lemma ones_evolved_norm_pos (c : config) (e : env) (vv : matrix R) :
  setup c = inr e -> V e = Finite vv -> 0 < dx e * dy e ->
  0 < np_sum (abs2 (strang_half c vv (strang_kinetic c (K2 e)
        (strang_half c vv (build2 (Z.to_nat (Nx c)) (Z.to_nat (Ny c)) (fun _ _ => Cone))))))
      * dx e * dy e.
Proof.
  intros Hset HV Hd. destruct (setup_inr c e Hset) as (Hnx & Hny & _).
  set (p := build2 (Z.to_nat (Nx c)) (Z.to_nat (Ny c)) (fun _ _ => Cone)).
  assert (Hp : shape p (Z.to_nat (Nx c)) (Z.to_nat (Ny c))) by apply shape_build2.
  assert (Hh := shape_strang_half c vv p _ _ Hp).
  assert (Hk := shape_strang_kinetic c (K2 e) _ _ _ Hh).
  assert (Hq := shape_strang_half c vv _ _ _ Hk).
  assert (Hsum : 0 < np_sum (abs2 (strang_half c vv (strang_kinetic c (K2 e)
                                     (strang_half c vv p))))).
  { destruct (Rle_lt_or_eq_dec _ _ (abs2_nonneg (strang_half c vv (strang_kinetic c (K2 e)
                                     (strang_half c vv p))))) as [Hlt|Heq]; [assumption|].
    exfalso. symmetry in Heq.
    assert (Hz : vanishes (Z.to_nat (Nx c)) (Z.to_nat (Ny c)) p).
    { apply (strang_half_vanishes c vv); [assumption|].
      apply (strang_kinetic_vanishes c (K2 e)); [assumption|].
      apply (strang_half_vanishes c vv); [assumption|].
      now apply abs2_sum_zero. }
    assert (H0 := Hz 0%nat 0%nat ltac:(lia) ltac:(lia)).
    unfold p, getC in H0. rewrite get_build2 in H0 by lia.
    apply (f_equal fst) in H0. simpl in H0. lra. }
  rewrite Rmult_assoc. now apply Rmult_lt_0_compat.
Qed.

Lemma strang_step_witness :
  exists e vv q r,
    setup default_config = inr e /\ V e = Finite vv /\
    q = strang_half default_config vv
          (strang_kinetic default_config (K2 e)
             (strang_half default_config vv (build2 256 256 (fun _ _ => Cone)))) /\
    step default_config e (Finite (build2 256 256 (fun _ _ => Cone))) = Finite r /\
    getC r 3 200 = Cdivr (getC q 3 200) (sqrt (np_sum (abs2 q) * dx e * dy e)).
Proof.
  destruct default_setup as [e He].
  assert (Ha : a default_config <> 0) by (simpl; lra).
  destruct (potential_entries default_config e He Ha) as (vv & HV & _).
  destruct (setup_steps_pos default_config e He) as [Hdx Hdy]; [simpl; lra | simpl; lra |].
  assert (Hd : 0 < dx e * dy e) by now apply Rmult_lt_0_compat.
  assert (Hpos := ones_evolved_norm_pos default_config e vv He HV Hd).
  destruct (every_pass_is_a_strang_step default_config e vv
              (build2 256 256 (fun _ _ => Cone)) He HV (shape_build2 256 256 _))
    as (q & Hq & _ & Hfin & _).
  subst q. destruct (Hfin Hpos) as (r & Hr & _ & Hval).
  eexists e, vv, _, r. split; [exact He|]. split; [exact HV|].
  split; [reflexivity|]. split; [exact Hr|].
  apply (Hval 3%nat 200%nat); apply Nat.ltb_lt; reflexivity.
Defined.

(** ** The loop on a well-formed configuration *)

Lemma norm_of_pos (hx hy : R) (p : matrix C) :
  0 < np_sum (abs2 p) -> 0 < hx * hy ->
  exists n, norm_of hx hy p = Some n /\ 0 < n.
Proof.
  intros Hs Hh. assert (Hl : 0 < np_sum (abs2 p) * hx * hy).
  { rewrite Rmult_assoc. now apply Rmult_lt_0_compat. }
  exists (sqrt (np_sum (abs2 p) * hx * hy)). split.
  - unfold norm_of, np_sqrt. destruct (Rlt_dec _ 0); [lra | reflexivity].
  - now apply sqrt_lt_R0.
Qed.

(** In exact arithmetic the divisor never vanishes when [a] and [sigma] are
    nonzero and [dx dy > 0]: the field is finite, of unit norm, at every step
    boundary. *)
Lemma psi_at_finite (c : config) (e : env) (t : nat) :
  setup c = inr e -> a c <> 0 -> sigma c <> 0 -> 0 < dx e * dy e ->
  exists p, psi_at c e t = Finite p /\ l2 (dx e) (dy e) p = 1.
Proof.
  intros Hset Ha Hs Hd. induction t as [|t IH].
  - destruct (gaussian_norm c e Hset Hs Hd) as (p0 & n & Hg & _ & _ & Hn & Hpos).
    rewrite (psi_at_normalize c e 0 Hset). unfold before_norm. rewrite Hg.
    exists (mmap (fun z => Cdivr z n) p0).
    apply (normalize_unit (dx e) (dy e) p0 n Hn). lra.
  - destruct IH as (p & Hp & Hone).
    destruct (potential_entries c e Hset Ha) as (vv & HV & _).
    assert (Hsh := psi_at_shape c e t p Hset Hp).
    set (q := strang_half c vv (strang_kinetic c (K2 e) (strang_half c vv p))).
    assert (Hq : shape q (Z.to_nat (Nx c)) (Z.to_nat (Ny c)))
      by now apply shape_strang_half, shape_strang_kinetic, shape_strang_half.
    assert (Hsum : 0 < np_sum (abs2 q)).
    { destruct (Rle_lt_or_eq_dec _ _ (abs2_nonneg q)) as [Hlt|Heq]; [assumption|].
      exfalso. symmetry in Heq.
      assert (Hz : vanishes (Z.to_nat (Nx c)) (Z.to_nat (Ny c)) p).
      { apply (strang_half_vanishes c vv); [assumption|].
        apply (strang_kinetic_vanishes c (K2 e)); [now apply shape_strang_half|].
        apply (strang_half_vanishes c vv);
          [now apply shape_strang_kinetic, shape_strang_half|].
        now apply abs2_sum_zero. }
      unfold l2 in Hone. rewrite (vanishes_sum_zero p _ _ Hsh Hz) in Hone. lra. }
    destruct (norm_of_pos (dx e) (dy e) q Hsum Hd) as (n & Hn & Hpos).
    exists (mmap (fun z => Cdivr z n) q).
    simpl. rewrite Hp. unfold step. rewrite (evolve_strang c e vv p Hset HV Hsh).
    apply (normalize_unit (dx e) (dy e) q n Hn). lra.
Qed.

Lemma default_run_finite :
  exists e p,
    setup default_config = inr e /\
    psi_at default_config e 2000 = Finite p /\
    l2 (dx e) (dy e) p = 1 /\
    run default_config = inr (Finite (abs2 p)).
Proof.
  destruct default_setup as [e He].
  destruct (setup_steps_pos default_config e He) as [Hdx Hdy]; [simpl; lra | simpl; lra |].
  destruct (psi_at_finite default_config e 2000 He) as (p & Hp & Hone).
  { simpl; lra. }
  { simpl; lra. }
  { now apply Rmult_lt_0_compat. }
  exists e, p. repeat split; try assumption.
  rewrite (run_setup_ok _ e He).
  change (Z.to_nat (steps default_config)) with 2000%nat. now rewrite Hp.
Qed.

Lemma unit_norm_witness :
  exists e n,
    setup default_config = inr e /\ divisor default_config e 2000 = Some n /\ n <> 0 /\
    exists p, psi_at default_config e 2000 = Finite p /\ l2 (dx e) (dy e) p = 1.
Proof.
  destruct default_run_finite as (e & p & He & Hp & _).
  assert (Hn := Hp). rewrite (psi_at_normalize _ e 2000 He) in Hn.
  apply normalize_Finite in Hn. destruct Hn as (p1 & n & Hb & Hn & Hn0 & _).
  assert (Hdiv : divisor default_config e 2000 = Some n).
  { unfold divisor. now rewrite Hb. }
  exists e, n. repeat split; auto.
  exact (unit_norm_at_every_step_boundary default_config e 2000 n He Hdiv Hn0).
Defined.

(** ** Breakdown without an error *)

Lemma has_zero_false (m : matrix R) (r s : nat) :
  shape m r s ->
  (forall i j, (i < r)%nat -> (j < s)%nat -> getR m i j <> 0) ->
  has_zero m = false.
Proof.
  intros Hm Hnz. destruct (has_zero m) eqn:Hz; [|reflexivity]. exfalso.
  unfold has_zero in Hz. apply existsb_exists in Hz. destruct Hz as (row & Hrow & Hz).
  apply existsb_exists in Hz. destruct Hz as (v & Hv & Hz).
  destruct (Req_dec_T v 0) as [Hv0|]; [|discriminate].
  apply (In_nth _ _ []) in Hrow. destruct Hrow as (i & Hi & <-).
  assert (Hi' : (i < r)%nat) by (destruct Hm; lia).
  apply (In_nth _ _ 0) in Hv. destruct Hv as (j & Hj & <-).
  rewrite (shape_row m r s i Hm Hi') in Hj.
  exact (Hnz i j Hi' Hj Hv0).
Qed.

(** With [sigma = 0] on the script's grid (which has no point at the
    origin) the Gaussian is zero everywhere, the divisor of the initial
    normalisation is exactly zero, and the field is nan from then on. *)
Lemma zero_sigma_zero_divisor :
  exists e,
    setup zero_sigma_config = inr e /\
    divisor zero_sigma_config e 0 = Some 0 /\
    psi_at zero_sigma_config e 0 = NonFinite /\
    run zero_sigma_config = inr NonFinite.
Proof.
  destruct (setup_ok zero_sigma_config) as [e He]; simpl; try lia; try lra.
  exists e.
  destruct (setup_inr zero_sigma_config e He)
    as (_ & _ & _ & _ & _ & _ & Hx & Hy & HX & HY & _).
  destruct (setup_shapes zero_sigma_config e He) as (Lx' & Ly' & SX & SY & _).
  simpl in Hx, Hy.
  set (r2 := mmap2 Rplus (mmap (fun v => v ^ 2) (X e)) (mmap (fun v => v ^ 2) (Y e))).
  assert (Sr2 : shape r2 256 256) by (apply shape_mmap2; now apply shape_mmap).
  assert (Hx0 : forall i, (i < 256)%nat -> nth i (x e) 0 <> 0).
  { intros i Hi H0.
    rewrite (linspace_nth _ _ 256 _ i ltac:(lia) Hx) in H0 by exact Hi.
    assert (H2 : IZR (2 * Z.of_nat i) = IZR 255).
    { rewrite mult_IZR, <- INR_IZR_INZ. simpl (256 - 1)%Z in H0. lra. }
    apply eq_IZR in H2. lia. }
  assert (Hg : gaussian zero_sigma_config (X e) (Y e) = Finite (mmap (fun _ => C0) r2)).
  { unfold gaussian. cbv zeta. fold r2.
    destruct (Req_dec_T (2 * sigma zero_sigma_config ^ 2) 0) as [_|Hne];
      [|exfalso; apply Hne; simpl; ring].
    rewrite (has_zero_false r2 256 256 Sr2); [reflexivity|].
    intros i j Hi Hj. unfold r2, getR.
    rewrite (get_mmap2 Rplus 0 0 0 _ _ _ _ i j
               (shape_mmap _ _ _ _ SX) (shape_mmap _ _ _ _ SY) Hi Hj).
    rewrite (get_mmap _ 0 0 _ _ _ i j SX Hi Hj).
    rewrite (get_mmap _ 0 0 _ _ _ i j SY Hi Hj).
    destruct (get_meshgrid (x e) (y e) i j) as [G1 _];
      [rewrite Lx'; exact Hi | rewrite Ly'; exact Hj |].
    rewrite HX. unfold getR in G1. rewrite G1.
    assert (Hxi := Hx0 i Hi).
    assert (0 < nth i (x e) 0 ^ 2)
      by (destruct (Rtotal_order (nth i (x e) 0) 0) as [Hn|[Hn|Hn]]; [nra | contradiction | nra]).
    generalize (pow2_ge_0 (get 0 (Y e) i j)). lra. }
  assert (Hdiv : divisor zero_sigma_config e 0 = Some 0).
  { unfold divisor, before_norm. rewrite Hg. unfold norm_of.
    rewrite (vanishes_sum_zero (mmap (fun _ => C0) r2) 256 256).
    - unfold np_sqrt. destruct (Rlt_dec _ 0) as [Hlt|_]; [exfalso; lra|].
      f_equal. replace (0 * dx e * dy e) with 0 by ring. apply sqrt_0.
    - now apply shape_mmap.
    - intros i j Hi Hj. unfold getC. now rewrite (get_mmap _ 0 C0 _ _ _ i j Sr2 Hi Hj). }
  assert (H0 : psi_at zero_sigma_config e 0 = NonFinite)
    by (apply bad_divisor_NonFinite; auto).
  split; [assumption|]. split; [assumption|]. split; [assumption|].
  rewrite (run_setup_ok _ e He).
  change (Z.to_nat (steps zero_sigma_config)) with (0 + 2000)%nat.
  now rewrite (psi_at_NonFinite _ e 0 2000 H0).
Qed.

(** C5 fails as stated: with [a = 0] the potential is nan, the field (finite
    and normalised after initialisation) holds nan from the first pass on,
    and the program still returns a density, which is nan, not an error.
    Likewise a divisor that is exactly zero (here with [sigma = 0], at the
    initial normalisation) is divided by without any error. *)
Lemma nan_reaches_the_output :
  (exists e p,
     setup zero_period_config = inr e /\
     psi_at zero_period_config e 0 = Finite p /\
     psi_at zero_period_config e 1 = NonFinite /\
     divisor zero_period_config e 1 = None /\
     run zero_period_config = inr NonFinite /\
     run zero_period_config <> inl NumericalInstability) /\
  (exists e,
     setup zero_sigma_config = inr e /\
     divisor zero_sigma_config e 0 = Some 0 /\
     psi_at zero_sigma_config e 0 = NonFinite /\
     run zero_sigma_config = inr NonFinite).
Proof.
  split; [|exact zero_sigma_zero_divisor].
  destruct zero_period_setup as (e & He & HV & p & Hp). exists e, p.
  assert (H1 : psi_at zero_period_config e 1 = NonFinite)
    by (simpl; now apply step_NonFinite_potential).
  assert (Hrun : run zero_period_config = inr NonFinite).
  { rewrite (run_setup_ok _ e He).
    change (Z.to_nat (steps zero_period_config)) with (1 + 1999)%nat.
    now rewrite (psi_at_NonFinite _ e 1 1999 H1). }
  split; [assumption|]. split; [exact Hp|]. split; [assumption|]. split; [|split].
  - unfold divisor, before_norm, evolve. rewrite HV. reflexivity.
  - assumption.
  - rewrite Hrun. discriminate.
Qed.

(** ** Symmetry of the output *)

(** C9.  The density the program returns is an [Nx] by [Ny] array that is
    invariant under the point reflection of the grid: entry
    [(Nx-1-i, Ny-1-j)] equals entry [(i, j)], and (with more than one point
    along an axis) grid point [Nx-1-i] is the mirror image [-x[i]] of grid
    point [i], likewise along [y]. *)
Theorem output_density_is_symmetric (c : config) (e : env) (d : matrix R) :
  setup c = inr e -> run c = inr (Finite d) ->
  shape d (Z.to_nat (Nx c)) (Z.to_nat (Ny c)) /\
  (forall i j, (i < Z.to_nat (Nx c))%nat -> (j < Z.to_nat (Ny c))%nat ->
     getR d (Z.to_nat (Nx c) - 1 - i) (Z.to_nat (Ny c) - 1 - j) = getR d i j) /\
  (forall i, (1 < Nx c)%Z -> (i < Z.to_nat (Nx c))%nat ->
     nth (Z.to_nat (Nx c) - 1 - i) (x e) 0 = - nth i (x e) 0) /\
  (forall j, (1 < Ny c)%Z -> (j < Z.to_nat (Ny c))%nat ->
     nth (Z.to_nat (Ny c) - 1 - j) (y e) 0 = - nth j (y e) 0).
Proof.
  intros Hset Hrun.
  destruct (setup_inr c e Hset) as (_ & _ & _ & _ & _ & _ & Hx & Hy & _).
  rewrite (run_setup_ok c e Hset) in Hrun.
  destruct (psi_at c e (Z.to_nat (steps c))) as [p|] eqn:Hp; [|discriminate].
  simpl in Hrun. inversion Hrun; subst d.
  assert (Hsh := psi_at_shape c e _ p Hset Hp).
  split; [|split; [|split]].
  - now apply shape_abs2.
  - assert (Hsym := psi_at_symmetric c e _ p Hset Hp).
    intros i j Hi Hj.
    rewrite (get_abs2 p _ _ _ _ Hsh) by lia.
    rewrite (get_abs2 p _ _ i j Hsh Hi Hj). now rewrite Hsym.
  - intros i H1 Hi.
    assert (Hd : IZR (Nx c - 1) <> 0) by (apply not_0_IZR; lia).
    rewrite (linspace_nth _ _ _ _ _ H1 Hx) by lia.
    rewrite (linspace_nth _ _ _ _ i H1 Hx) by lia.
    rewrite !minus_INR by lia. rewrite (INR_IZR_INZ (Z.to_nat (Nx c))), Z2Nat.id by lia.
    rewrite minus_IZR in *. simpl (INR 1). field. exact Hd.
  - intros j H1 Hj.
    assert (Hd : IZR (Ny c - 1) <> 0) by (apply not_0_IZR; lia).
    rewrite (linspace_nth _ _ _ _ _ H1 Hy) by lia.
    rewrite (linspace_nth _ _ _ _ j H1 Hy) by lia.
    rewrite !minus_INR by lia. rewrite (INR_IZR_INZ (Z.to_nat (Ny c))), Z2Nat.id by lia.
    rewrite minus_IZR in *. simpl (INR 1). field. exact Hd.
Qed.

Lemma symmetric_density_witness :
  exists e p,
    setup default_config = inr e /\
    run default_config = inr (Finite (abs2 p)) /\
    shape (abs2 p) 256 256 /\
    getR (abs2 p) (256 - 1 - 3) (256 - 1 - 200) = getR (abs2 p) 3 200 /\
    nth (256 - 1 - 3) (x e) 0 = - nth 3 (x e) 0.
Proof.
  destruct default_run_finite as (e & p & He & _ & _ & Hrun). exists e, p.
  split; [assumption|]. split; [assumption|].
  destruct (output_density_is_symmetric default_config e (abs2 p) He Hrun)
    as (Hs & Hd & Hx & _).
  split; [exact Hs|]. split.
  - apply (Hd 3%nat 200%nat); apply Nat.ltb_lt; reflexivity.
  - apply (Hx 3%nat); [apply Z.ltb_lt | apply Nat.ltb_lt]; reflexivity.
Defined.

(** * Further properties of the script *)

(** ** Real sums and the entries of an array *)

Lemma Rsum_ext (f h : nat -> R) (n : nat) :
  (forall i, (i < n)%nat -> f i = h i) -> Rsum f n = Rsum h n.
Proof.
  induction n as [|n IH]; intros H; simpl; [reflexivity|].
  rewrite IH by (intros; apply H; lia). rewrite H by lia. reflexivity.
Qed.

Lemma Rsum_scale (k : R) (f : nat -> R) (n : nat) :
  Rsum (fun i => k * f i) n = k * Rsum f n.
Proof. induction n as [|n IH]; simpl; [ring | rewrite IH; ring]. Qed.

Lemma Rsum_plus (f h : nat -> R) (n : nat) :
  Rsum (fun i => f i + h i) n = Rsum f n + Rsum h n.
Proof. induction n as [|n IH]; simpl; [ring | rewrite IH; ring]. Qed.

Lemma Rsum_zero (n : nat) : Rsum (fun _ => 0) n = 0.
Proof. induction n as [|n IH]; simpl; [reflexivity | rewrite IH; ring]. Qed.

Lemma Rsum_swap (f : nat -> nat -> R) (n m : nat) :
  Rsum (fun i => Rsum (fun j => f i j) m) n = Rsum (fun j => Rsum (fun i => f i j) n) m.
Proof.
  induction n as [|n IH]; simpl.
  - now rewrite Rsum_zero.
  - rewrite IH. now rewrite <- Rsum_plus.
Qed.

Lemma Rsum_shift (f : nat -> R) (n : nat) :
  Rsum f (S n) = f 0%nat + Rsum (fun i => f (S i)) n.
Proof.
  induction n as [|n IH]; [simpl; ring|].
  change (Rsum f (S (S n))) with (Rsum f (S n) + f (S n)).
  rewrite IH. simpl. ring.
Qed.

Lemma Rsum_list_Rsum (l : list R) :
  Rsum_list l = Rsum (fun j => nth j l 0) (length l).
Proof.
  induction l as [|u l IH]; [reflexivity|].
  change (length (u :: l)) with (S (length l)). rewrite Rsum_shift.
  simpl. now rewrite IH.
Qed.

(** [np.sum] as a double sum over the indices. *)
Lemma np_sum_Rsum (m : matrix R) (r s : nat) :
  shape m r s ->
  np_sum m = Rsum (fun i => Rsum (fun j => getR m i j) s) r.
Proof.
  intros Hm. unfold np_sum. rewrite Rsum_list_Rsum, length_map.
  destruct Hm as [Hlen Hrows]. rewrite Hlen. apply Rsum_ext. intros i Hi.
  rewrite (nth_map_in Rsum_list [] 0) by lia.
  rewrite Rsum_list_Rsum.
  assert (Hm : shape m r s) by (split; assumption).
  now rewrite (shape_row m r s i Hm Hi).
Qed.

Lemma abs2_Rsum (p : matrix C) (r s : nat) :
  shape p r s ->
  np_sum (abs2 p) = Rsum (fun i => Rsum (fun j => Cmod (getC p i j) ^ 2) s) r.
Proof.
  intros Hp. rewrite (np_sum_Rsum _ r s (shape_abs2 p r s Hp)).
  apply Rsum_ext. intros i Hi. apply Rsum_ext. intros j Hj.
  exact (get_abs2 p r s i j Hp Hi Hj).
Qed.

(** ** Parseval's identity *)

Lemma Re_Csum (f : nat -> C) (n : nat) : Re (Csum f n) = Rsum (fun i => Re (f i)) n.
Proof.
  induction n as [|n IH]; [reflexivity|]. simpl. rewrite <- IH. reflexivity.
Qed.

Lemma Cconj_Csum (f : nat -> C) (n : nat) :
  Cconj (Csum f n) = Csum (fun i => Cconj (f i)) n.
Proof.
  induction n as [|n IH]; simpl.
  - unfold Cconj, C0, Re, Im; simpl. f_equal. ring.
  - rewrite <- IH. unfold Cconj. cring.
Qed.

Lemma Cconj_mult (z w : C) : Cconj (Cmult z w) = Cmult (Cconj z) (Cconj w).
Proof. unfold Cconj. cring. Qed.

Lemma Re_mult_conj (z : C) : Re (Cmult z (Cconj z)) = Cmod z ^ 2.
Proof. rewrite Cmod_sqr. unfold Cconj, Cmult, Re, Im; simpl. ring. Qed.

Lemma Cconj_twiddle_neg (n m k : nat) : Cconj (twiddle (-1) n m k) = twiddle 1 n m k.
Proof.
  unfold twiddle, Cconj, cis, Re, Im; simpl.
  replace (1 * (2 * PI * (INR m * INR k) / INR n))
    with (- (-1 * (2 * PI * (INR m * INR k) / INR n))) by ring.
  now rewrite cos_neg, sin_neg.
Qed.

Lemma Cconj_twiddle_pos (n m k : nat) : Cconj (twiddle 1 n m k) = twiddle (-1) n m k.
Proof.
  unfold twiddle, Cconj, cis, Re, Im; simpl.
  replace (-1 * (2 * PI * (INR m * INR k) / INR n))
    with (- (1 * (2 * PI * (INR m * INR k) / INR n))) by ring.
  now rewrite cos_neg, sin_neg.
Qed.


(** Parseval for a transform [sa] whose kernel is conjugate to that of [sb]
    and which [sb] inverts up to the factor [n]. *)
Lemma parseval_from_inverse (sa sb : R) (n : nat) (f : nat -> C) :
  (forall m k, Cconj (twiddle sa n m k) = twiddle sb n m k) ->
  (forall h k, (k < n)%nat -> dft sb n (dft sa n h) k = Cmult (RtoC (INR n)) (h k)) ->
  Rsum (fun k => Cmod (dft sa n f k) ^ 2) n = INR n * Rsum (fun m => Cmod (f m) ^ 2) n.
Proof.
  intros Hconj Hinv.
  assert (HC : Csum (fun k => Cmult (dft sa n f k) (Cconj (dft sa n f k))) n =
               Cmult (RtoC (INR n)) (Csum (fun m => Cmult (f m) (Cconj (f m))) n)).
  { rewrite (Csum_ext _ (fun k => Csum (fun m =>
               Cmult (Cconj (f m)) (Cmult (dft sa n f k) (twiddle sb n k m))) n)).
    - rewrite Csum_swap. rewrite <- Csum_mult_l. apply Csum_ext. intros m Hm.
      rewrite Csum_mult_l. fold (dft sb n (dft sa n f) m). rewrite Hinv by assumption. cring.
    - intros k Hk. unfold dft at 2. rewrite Cconj_Csum, <- Csum_mult_l.
      apply Csum_ext. intros m Hm.
      rewrite Cconj_mult, Hconj, (twiddle_sym sb n m k). cring. }
  apply (f_equal Re) in HC. rewrite Re_Csum in HC.
  rewrite (Rsum_ext _ (fun k => Cmod (dft sa n f k) ^ 2)) in HC
    by (intros; apply Re_mult_conj).
  rewrite HC. unfold Cmult, RtoC, Re, Im; cbn [fst snd].
  change (fst (Csum ?F n)) with (Re (Csum F n)). rewrite Re_Csum.
  rewrite (Rsum_ext _ (fun m => Cmod (f m) ^ 2)) by (intros; apply Re_mult_conj).
  ring.
Qed.

Lemma parseval_fwd (n : nat) (f : nat -> C) :
  Rsum (fun k => Cmod (dft (-1) n f k) ^ 2) n = INR n * Rsum (fun m => Cmod (f m) ^ 2) n.
Proof.
  apply (parseval_from_inverse (-1) 1).
  - intros. apply Cconj_twiddle_neg.
  - intros. now apply dft_inverse.
Qed.

Lemma parseval_inv (n : nat) (f : nat -> C) :
  Rsum (fun k => Cmod (dft 1 n f k) ^ 2) n = INR n * Rsum (fun m => Cmod (f m) ^ 2) n.
Proof.
  apply (parseval_from_inverse 1 (-1)).
  - intros. apply Cconj_twiddle_pos.
  - intros. now apply dft_inverse_fwd.
Qed.

Lemma parseval2_fwd (r s : nat) (P : nat -> nat -> C) :
  Rsum (fun k => Rsum (fun l =>
          Cmod (dft (-1) r (fun m => dft (-1) s (fun n => P m n) l) k) ^ 2) s) r =
  INR r * INR s * Rsum (fun m => Rsum (fun n => Cmod (P m n) ^ 2) s) r.
Proof.
  rewrite Rsum_swap.
  rewrite (Rsum_ext _ (fun l => INR r *
             Rsum (fun m => Cmod (dft (-1) s (fun n => P m n) l) ^ 2) r))
    by (intros l _; apply (parseval_fwd r (fun m => dft (-1) s (fun n => P m n) l))).
  rewrite Rsum_scale, Rsum_swap.
  rewrite (Rsum_ext _ (fun m => INR s * Rsum (fun n => Cmod (P m n) ^ 2) s))
    by (intros m _; apply (parseval_fwd s (fun n => P m n))).
  rewrite Rsum_scale. ring.
Qed.

Lemma parseval2_inv (r s : nat) (Q : nat -> nat -> C) :
  (0 < r)%nat -> (0 < s)%nat ->
  Rsum (fun i => Rsum (fun j =>
          Cmod (Cdivr (dft 1 r (fun k =>
                         Cdivr (dft 1 s (fun l => Q k l) j) (INR s)) i) (INR r)) ^ 2) s) r =
  / (INR r * INR s) * Rsum (fun k => Rsum (fun l => Cmod (Q k l) ^ 2) s) r.
Proof.
  intros Hr Hs.
  assert (Hr0 : INR r <> 0) by (apply not_0_INR; lia).
  assert (Hs0 : INR s <> 0) by (apply not_0_INR; lia).
  rewrite Rsum_swap.
  rewrite (Rsum_ext _ (fun j => / INR r *
             Rsum (fun k => Cmod (Cdivr (dft 1 s (fun l => Q k l) j) (INR s)) ^ 2) r)).
  - rewrite Rsum_scale, Rsum_swap.
    rewrite (Rsum_ext _ (fun k => / INR s * Rsum (fun l => Cmod (Q k l) ^ 2) s)).
    + rewrite Rsum_scale. now field.
    + intros k _.
      rewrite (Rsum_ext _ (fun j => / INR s ^ 2 * Cmod (dft 1 s (fun l => Q k l) j) ^ 2))
        by (intros j _; rewrite Cmod_sqr_divr by assumption; unfold Rdiv; ring).
      rewrite Rsum_scale, parseval_inv. now field.
  - intros j _.
    rewrite (Rsum_ext _ (fun i => / INR r ^ 2 *
               Cmod (dft 1 r (fun k => Cdivr (dft 1 s (fun l => Q k l) j) (INR s)) i) ^ 2))
      by (intros i _; rewrite Cmod_sqr_divr by assumption; unfold Rdiv; ring).
    rewrite Rsum_scale.
    rewrite (parseval_inv r (fun k => Cdivr (dft 1 s (fun l => Q k l) j) (INR s))).
    now field.
Qed.

(** [fft2] is the unnormalised transform: it multiplies the sum of squared
    moduli by the number of entries. *)
Lemma fft2_parseval (p : matrix C) (r s : nat) :
  shape p r s ->
  np_sum (abs2 (fft2 p)) = INR r * INR s * np_sum (abs2 p).
Proof.
  intros Hp. rewrite (abs2_Rsum _ r s (shape_fft2 p r s Hp)), (abs2_Rsum p r s Hp).
  rewrite <- parseval2_fwd. apply Rsum_ext. intros k Hk. apply Rsum_ext. intros l Hl.
  now rewrite (get_fft2 p r s k l Hp Hk Hl).
Qed.

Lemma ifft2_parseval (q : matrix C) (r s : nat) :
  shape q r s -> (0 < r)%nat -> (0 < s)%nat ->
  np_sum (abs2 (ifft2 q)) = / (INR r * INR s) * np_sum (abs2 q).
Proof.
  intros Hq Hr Hs.
  rewrite (abs2_Rsum _ r s (shape_ifft2 q r s Hq)), (abs2_Rsum q r s Hq).
  rewrite <- (parseval2_inv r s (getC q) Hr Hs).
  apply Rsum_ext. intros i Hi. apply Rsum_ext. intros j Hj.
  now rewrite (get_ifft2 q r s i j Hq Hi Hj).
Qed.

(** ** Norm through one pass *)

Lemma strang_half_abs2 (c : config) (vv : matrix R) (p : matrix C) (r s : nat) :
  shape p r s -> abs2 (strang_half c vv p) = abs2 p.
Proof.
  intros Hp. apply (matrix_ext 0 _ _ r s).
  - now apply shape_abs2, shape_strang_half.
  - now apply shape_abs2.
  - intros i j Hi Hj. change (getR (abs2 (strang_half c vv p)) i j = getR (abs2 p) i j).
    rewrite (get_abs2 _ r s i j (shape_strang_half c vv p r s Hp) Hi Hj).
    rewrite (get_abs2 p r s i j Hp Hi Hj).
    rewrite (get_strang_half c vv p r s i j Hp Hi Hj).
    rewrite Cmod_sqr_mult, Cmod_sqr_cis. ring.
Qed.

Lemma strang_kinetic_norm (c : config) (k2 : matrix R) (p : matrix C) (r s : nat) :
  shape p r s -> (0 < r)%nat -> (0 < s)%nat ->
  np_sum (abs2 (strang_kinetic c k2 p)) = np_sum (abs2 p).
Proof.
  intros Hp Hr Hs. destruct (shape_dims p r s Hp) as (_ & Hlen & Hcols).
  unfold strang_kinetic. rewrite Hlen, Hcols by lia.
  set (G := build2 r s (fun i j =>
              Cmult (getC (fft2 p) i j) (cis (- getR k2 i j * dt c / 2)))).
  assert (HG : shape G r s) by apply shape_build2.
  rewrite (ifft2_parseval G r s HG Hr Hs).
  assert (HGp : np_sum (abs2 G) = np_sum (abs2 (fft2 p))).
  { rewrite (abs2_Rsum G r s HG), (abs2_Rsum _ r s (shape_fft2 p r s Hp)).
    apply Rsum_ext. intros i Hi. apply Rsum_ext. intros j Hj.
    unfold G, getC at 1. rewrite get_build2 by assumption.
    rewrite Cmod_sqr_mult, Cmod_sqr_cis. ring. }
  rewrite HGp, (fft2_parseval p r s Hp).
  field. split; apply not_0_INR; lia.
Qed.

Lemma setup_cell_pos (c : config) (e : env) :
  setup c = inr e -> 0 < Lx c * Ly c -> 0 < dx e * dy e.
Proof.
  intros Hset HL.
  destruct (setup_inr c e Hset) as (Hnx & Hny & _ & _ & -> & -> & _).
  assert (0 < IZR (Nx c)) by (apply IZR_lt; lia).
  assert (0 < IZR (Ny c)) by (apply IZR_lt; lia).
  replace (Lx c / IZR (Nx c) * (Ly c / IZR (Ny c)))
    with (Lx c * Ly c * / (IZR (Nx c) * IZR (Ny c))) by (field; lra).
  apply Rmult_lt_0_compat; [assumption|].
  apply Rinv_0_lt_compat. now apply Rmult_lt_0_compat.
Qed.

Lemma evolve_norm (c : config) (e : env) (vv : matrix R) (p : matrix C) :
  setup c = inr e -> V e = Finite vv ->
  shape p (Z.to_nat (Nx c)) (Z.to_nat (Ny c)) ->
  exists q, evolve c e (Finite p) = Finite q /\
            shape q (Z.to_nat (Nx c)) (Z.to_nat (Ny c)) /\
            np_sum (abs2 q) = np_sum (abs2 p).
Proof.
  intros Hset HV Hp. destruct (setup_inr c e Hset) as (Hnx & Hny & _).
  exists (strang_half c vv (strang_kinetic c (K2 e) (strang_half c vv p))).
  split; [now apply evolve_strang|]. split.
  - now apply shape_strang_half, shape_strang_kinetic, shape_strang_half.
  - rewrite (strang_half_abs2 c vv _ _ _
               (shape_strang_kinetic c (K2 e) _ _ _ (shape_strang_half c vv p _ _ Hp))).
    rewrite (strang_kinetic_norm c (K2 e) _ _ _ (shape_strang_half c vv p _ _ Hp)) by lia.
    now rewrite (strang_half_abs2 c vv p _ _ Hp).
Qed.

Lemma mmap_divr_one (p : matrix C) : mmap (fun z => Cdivr z 1) p = p.
Proof.
  unfold mmap. rewrite <- (map_id p) at 2. apply map_ext. intros row.
  rewrite <- (map_id row) at 2. apply map_ext. intros [u v].
  unfold Cdivr, Re, Im; simpl. f_equal; field.
Qed.

(** ** The initial norm *)

(** Every point of an axis lies between its two ends. *)
Lemma linspace_within (h : R) (num : Z) (l : list R) (i : nat) :
  (0 < num)%Z -> linspace (- h / 2) (h / 2) num = inr l -> (i < Z.to_nat num)%nat ->
  nth i l 0 ^ 2 <= (h / 2) ^ 2.
Proof.
  intros Hnum Hl Hi. destruct (Z.eq_dec num 1) as [H1|H1].
  - subst num. rewrite linspace_one in Hl. inversion Hl; subst l.
    assert (i = 0%nat) by (simpl in Hi; lia). subst i. simpl. lra.
  - assert (Hgt : (1 < num)%Z) by lia.
    rewrite (linspace_nth _ _ _ _ i Hgt Hl Hi).
    assert (Hd : 0 < IZR (num - 1)) by (apply IZR_lt; lia).
    assert (Hi' : INR i <= IZR (num - 1)).
    { rewrite INR_IZR_INZ. apply IZR_le. lia. }
    assert (H0 : 0 <= INR i) by apply pos_INR.
    set (t := INR i / IZR (num - 1)).
    assert (Ht0 : 0 <= t) by (unfold t; apply Rmult_le_pos; [lra | left; now apply Rinv_0_lt_compat]).
    assert (Ht1 : t <= 1).
    { unfold t. apply (Rmult_le_reg_r (IZR (num - 1))); [assumption|].
      unfold Rdiv. rewrite Rmult_assoc, Rinv_l by lra. lra. }
    replace (- h / 2 + INR i * ((h / 2 - - h / 2) / IZR (num - 1)))
      with (h * (t - 1 / 2)) by (unfold t; field; lra).
    assert (Hq : (t - 1 / 2) ^ 2 <= (1 / 2) ^ 2) by nra.
    replace ((h * (t - 1 / 2)) ^ 2) with (h ^ 2 * (t - 1 / 2) ^ 2) by ring.
    replace ((h / 2) ^ 2) with (h ^ 2 * (1 / 2) ^ 2) by field.
    apply Rmult_le_compat_l; [apply pow2_ge_0 | assumption].
Qed.

Lemma Rsum_ge (f : nat -> R) (n : nat) (m : R) :
  (forall i, (i < n)%nat -> m <= f i) -> INR n * m <= Rsum f n.
Proof.
  induction n as [|n IH]; intros Hf.
  - simpl. lra.
  - rewrite S_INR. simpl.
    assert (H1 := IH (fun i Hi => Hf i (Nat.lt_lt_succ_r _ _ Hi))).
    assert (H2 := Hf n (Nat.lt_succ_diag_r n)). lra.
Qed.

(** C10, as the script computes it in exact arithmetic.  With [sigma > 0]
    on a grid the setup accepts and [Lx Ly > 0], the initial field is an
    [Nx] by [Ny] array whose every entry is
    [exp(-(X^2 + Y^2) / (2 sigma^2))], a strictly positive real; the
    initialisation norm is a strictly positive number, the square root of
    [sum |psi|^2 dx dy], and the normalising division of line 35 yields a
    finite field.  When moreover [Lx^2 + Ly^2 <= 800 sigma^2], every entry
    is at least [exp(-100)] and the squared norm at least
    [exp(-200) Lx Ly]. *)
Theorem initial_norm_positive (c : config) (e : env) :
  setup c = inr e -> 0 < sigma c -> 0 < Lx c * Ly c ->
  exists p0 n,
    gaussian c (X e) (Y e) = Finite p0 /\
    shape p0 (Z.to_nat (Nx c)) (Z.to_nat (Ny c)) /\
    (forall i j, (i < Z.to_nat (Nx c))%nat -> (j < Z.to_nat (Ny c))%nat ->
       getC p0 i j =
       RtoC (exp (- (getR (X e) i j ^ 2 + getR (Y e) i j ^ 2) / (2 * sigma c ^ 2))) /\
       0 < Re (getC p0 i j) /\ Im (getC p0 i j) = 0) /\
    divisor c e 0 = Some n /\ 0 < n /\
    n ^ 2 = np_sum (abs2 p0) * dx e * dy e /\
    psi e = Finite (mmap (fun z => Cdivr z n) p0) /\
    (Lx c ^ 2 + Ly c ^ 2 <= 800 * sigma c ^ 2 ->
     (forall i j, (i < Z.to_nat (Nx c))%nat -> (j < Z.to_nat (Ny c))%nat ->
        exp (- 100) <= Re (getC p0 i j)) /\
     exp (- 200) * (Lx c * Ly c) <= n ^ 2).
Proof.
  intros Hset Hs HL.
  assert (Hd := setup_cell_pos c e Hset HL).
  destruct (gaussian_norm c e Hset) as (p0 & n & Hg & Hshape & Hval & Hn & Hpos);
    [lra | assumption |].
  destruct (norm_of_Some _ _ _ _ Hn) as [Hl2 Hsqrt]. unfold l2 in Hl2, Hsqrt.
  assert (Hn2 : n ^ 2 = np_sum (abs2 p0) * dx e * dy e).
  { rewrite Hsqrt. simpl. rewrite Rmult_1_r. now apply sqrt_sqrt. }
  exists p0, n. split; [assumption|]. split; [assumption|].
  split; [|split; [|split; [|split; [|split]]]].
  - intros i j Hi Hj. rewrite (Hval i j Hi Hj). cunfold.
    repeat split; auto. apply exp_pos.
  - unfold divisor, before_norm. now rewrite Hg.
  - assumption.
  - assumption.
  - change (psi e) with (psi_at c e 0). rewrite (psi_at_normalize c e 0 Hset).
    unfold before_norm. rewrite Hg.
    apply (normalize_unit (dx e) (dy e) p0 n Hn). lra.
  - intros Hwide.
    destruct (setup_inr c e Hset)
      as (Hnx & Hny & _ & _ & Hdx & Hdy & Hx & Hy & HX & HY & _).
    destruct (setup_shapes c e Hset) as (Lx' & Ly' & _).
    assert (Hlow : forall i j, (i < Z.to_nat (Nx c))%nat -> (j < Z.to_nat (Ny c))%nat ->
                     exp (- 100) <= Re (getC p0 i j)).
    { intros i j Hi Hj. rewrite (Hval i j Hi Hj). unfold RtoC, Re; cbn [fst].
      destruct (get_meshgrid (x e) (y e) i j) as [EX EY]; [lia | lia |].
      rewrite HX, HY, EX, EY.
      assert (Bx := linspace_within (Lx c) (Nx c) (x e) i Hnx Hx Hi).
      assert (By := linspace_within (Ly c) (Ny c) (y e) j Hny Hy Hj).
      assert (Hs2 : 0 < 2 * sigma c ^ 2) by nra.
      destruct (Rle_lt_or_eq_dec (- 100)
                  (- (nth i (x e) 0 ^ 2 + nth j (y e) 0 ^ 2) / (2 * sigma c ^ 2)))
        as [Hlt|Heq].
      - apply (Rmult_le_reg_r (2 * sigma c ^ 2)); [assumption|].
        unfold Rdiv. rewrite Rmult_assoc, Rinv_l by lra. nra.
      - left. now apply exp_increasing.
      - rewrite <- Heq. right. reflexivity. }
    split; [exact Hlow|].
    rewrite Hn2, (abs2_Rsum p0 _ _ Hshape).
    assert (Hsum : INR (Z.to_nat (Nx c)) * (INR (Z.to_nat (Ny c)) * exp (- 200)) <=
                   Rsum (fun i => Rsum (fun j => Cmod (getC p0 i j) ^ 2) (Z.to_nat (Ny c)))
                        (Z.to_nat (Nx c))).
    { apply Rsum_ge. intros i Hi. apply Rsum_ge. intros j Hj.
      assert (Hre := Hlow i j Hi Hj). rewrite Cmod_sqr, (Hval i j Hi Hj) in *.
      unfold RtoC, Re, Im in *; cbn [fst snd] in *.
      replace (- 200) with (- 100 + - 100) by lra. rewrite exp_plus.
      assert (0 < exp (- 100)) by apply exp_pos. nra. }
    rewrite !INR_IZR_INZ, !Z2Nat.id in Hsum by lia.
    assert (HNx : 0 < IZR (Nx c)) by (apply IZR_lt; lia).
    assert (HNy : 0 < IZR (Ny c)) by (apply IZR_lt; lia).
    replace (exp (- 200) * (Lx c * Ly c))
      with (IZR (Nx c) * (IZR (Ny c) * exp (- 200)) * (dx e * dy e))
      by (rewrite Hdx, Hdy; field; lra).
    rewrite (Rmult_assoc _ (dx e) (dy e)).
    apply Rmult_le_compat_r; [lra | exact Hsum].
Qed.

Lemma initial_norm_positive_witness :
  exists e,
    setup default_config = inr e /\
    exists p0 n,
      gaussian default_config (X e) (Y e) = Finite p0 /\
      shape p0 256 256 /\
      (forall i j, (i < 256)%nat -> (j < 256)%nat ->
         getC p0 i j =
         RtoC (exp (- (getR (X e) i j ^ 2 + getR (Y e) i j ^ 2) / (2 * 1 ^ 2))) /\
         exp (- 100) <= Re (getC p0 i j)) /\
      divisor default_config e 0 = Some n /\ 0 < n /\
      exp (- 200) * (10 * 10) <= n ^ 2 /\
      psi e = Finite (mmap (fun z => Cdivr z n) p0).
Proof.
  destruct default_setup as [e He]. exists e. split; [assumption|].
  destruct (initial_norm_positive default_config e He)
    as (p0 & n & Hg & Hsh & Hval & Hdiv & Hpos & _ & Hpsi & Hwide);
    [simpl; lra | simpl; lra |].
  destruct Hwide as [Hlow Hn2]; [simpl; lra|].
  exists p0, n. split; [exact Hg|]. split; [exact Hsh|]. split.
  - intros i j Hi Hj. split; [apply (Hval i j Hi Hj) | apply (Hlow i j Hi Hj)].
  - split; [exact Hdiv|]. split; [exact Hpos|]. split; [exact Hn2 | exact Hpsi].
Defined.

(** C10 fails as stated: with [sigma = 1 > 0] and the extent along [x] given
    as [-10] (the script's other constants unchanged), setup raises nothing,
    the initial field is the same positive Gaussian, but
    [sum |psi|^2 dx dy] is negative: its square root is nan, and so is the
    whole field after the division of line 35. *)
Lemma negative_extent_gives_nan_norm :
  0 < sigma negative_Lx_config /\
  exists e p0,
    setup negative_Lx_config = inr e /\
    gaussian negative_Lx_config (X e) (Y e) = Finite p0 /\
    (forall i j, (i < 256)%nat -> (j < 256)%nat -> 0 < Re (getC p0 i j)) /\
    np_sum (abs2 p0) * dx e * dy e < 0 /\
    divisor negative_Lx_config e 0 = None /\
    psi e = NonFinite.
Proof.
  split; [simpl; lra|].
  destruct (setup_ok negative_Lx_config) as [e He]; simpl; try lia; try lra.
  destruct (gaussian_sum_pos negative_Lx_config e He) as (p0 & Hg & _ & Hval & Hsum);
    [simpl; lra|].
  destruct (setup_inr negative_Lx_config e He) as (_ & _ & _ & _ & Hdx & Hdy & _).
  simpl in Hdx, Hdy.
  assert (Hneg : np_sum (abs2 p0) * dx e * dy e < 0).
  { rewrite Hdx, Hdy. nra. }
  assert (Hdiv : norm_of (dx e) (dy e) p0 = None).
  { unfold norm_of, np_sqrt. destruct (Rlt_dec _ 0); [reflexivity | contradiction]. }
  exists e, p0. split; [assumption|]. split; [assumption|]. split; [|split; [|split]].
  - intros i j Hi Hj. rewrite (Hval i j Hi Hj). unfold RtoC, Re; cbn [fst]. apply exp_pos.
  - exact Hneg.
  - unfold divisor, before_norm. now rewrite Hg.
  - change (psi e) with (psi_at negative_Lx_config e 0).
    rewrite (psi_at_normalize _ e 0 He). unfold before_norm. rewrite Hg.
    unfold normalize; simpl. now rewrite Hdiv.
Qed.

(** ** The script's constants as a configuration with fewer steps *)

Lemma default_setup_facts :
  exists e,
    setup default_config = inr e /\ 0 < dx e * dy e /\
    exists vv p, V e = Finite vv /\ psi e = Finite p /\
                 shape p 256 256 /\ l2 (dx e) (dy e) p = 1.
Proof.
  destruct default_setup as [e He]. exists e. split; [assumption|].
  assert (Hd : 0 < dx e * dy e) by (apply (setup_cell_pos default_config e He); simpl; lra).
  split; [assumption|].
  assert (Ha : a default_config <> 0) by (simpl; lra).
  destruct (potential_entries default_config e He Ha) as (vv & HV & _).
  destruct (psi_at_finite default_config e 0 He Ha) as (p & Hp & Hone);
    [simpl; lra | assumption |].
  exists vv, p. repeat split; try assumption.
  - exact (proj1 (psi_at_shape default_config e 0 p He Hp)).
  - exact (proj2 (psi_at_shape default_config e 0 p He Hp)).
Qed.

(** X4.  A potential/nonlinear half step (lines 46 and 54) multiplies every
    entry by a number of modulus 1: it leaves [np.abs(psi)**2] unchanged,
    entry by entry. *)
Theorem half_step_keeps_the_density (c : config) (e : env) (vv : matrix R) (p : matrix C) :
  setup c = inr e -> V e = Finite vv ->
  shape p (Z.to_nat (Nx c)) (Z.to_nat (Ny c)) ->
  exists q, half_step c (V e) (Finite p) = Finite q /\ abs2 q = abs2 p.
Proof.
  intros Hset HV Hp. destruct (V_Finite_shape c e vv Hset HV) as [_ Hv].
  exists (strang_half c vv p). split.
  - rewrite HV. exact (half_step_strang c vv p _ _ Hv Hp).
  - exact (strang_half_abs2 c vv p _ _ Hp).
Qed.

Lemma half_step_keeps_the_density_witness :
  exists e vv p q,
    setup default_config = inr e /\ V e = Finite vv /\ psi e = Finite p /\
    half_step default_config (V e) (Finite p) = Finite q /\ abs2 q = abs2 p.
Proof.
  destruct default_setup_facts as (e & He & _ & vv & p & HV & Hp & Hsh & _).
  destruct (half_step_keeps_the_density default_config e vv p He HV Hsh) as (q & Hq & Habs).
  exists e, vv, p, q. auto.
Defined.

(** X5.  The kinetic step (lines 49-51: [fft2], multiplication by
    [exp(-i K2 dt / 2)], [ifft2]) preserves the sum of squared moduli
    [np.sum(np.abs(psi)**2)] exactly, and the shape of the field. *)
Theorem kinetic_step_keeps_the_norm (c : config) (e : env) (p : matrix C) :
  setup c = inr e -> shape p (Z.to_nat (Nx c)) (Z.to_nat (Ny c)) ->
  exists q, kinetic c (K2 e) (Finite p) = Finite q /\
            shape q (Z.to_nat (Nx c)) (Z.to_nat (Ny c)) /\
            np_sum (abs2 q) = np_sum (abs2 p).
Proof.
  intros Hset Hp. destruct (setup_inr c e Hset) as (Hnx & Hny & _).
  destruct (setup_shapes c e Hset) as (_ & _ & _ & _ & _ & _ & HK).
  exists (strang_kinetic c (K2 e) p). split; [|split].
  - exact (kinetic_strang c (K2 e) p _ _ HK Hp).
  - now apply shape_strang_kinetic.
  - apply (strang_kinetic_norm c (K2 e) p _ _ Hp); lia.
Qed.

Lemma kinetic_step_keeps_the_norm_witness :
  exists e p q,
    setup default_config = inr e /\ psi e = Finite p /\
    kinetic default_config (K2 e) (Finite p) = Finite q /\
    np_sum (abs2 q) = np_sum (abs2 p).
Proof.
  destruct default_setup_facts as (e & He & _ & vv & p & HV & Hp & Hsh & _).
  destruct (kinetic_step_keeps_the_norm default_config e p He Hsh) as (q & Hq & _ & Hn).
  exists e, p, q. auto.
Defined.

(** X6.  [np.fft.fft2] is unnormalised and [np.fft.ifft2] carries the whole
    factor: on an [r x s] array the forward transform multiplies the sum of
    squared moduli by [r s], the inverse one divides it by [r s]. *)
Theorem fft2_scales_the_norm (p : matrix C) (r s : nat) :
  shape p r s -> (0 < r)%nat -> (0 < s)%nat ->
  np_sum (abs2 (fft2 p)) = INR r * INR s * np_sum (abs2 p) /\
  np_sum (abs2 (ifft2 p)) = np_sum (abs2 p) / (INR r * INR s).
Proof.
  intros Hp Hr Hs. split.
  - exact (fft2_parseval p r s Hp).
  - rewrite (ifft2_parseval p r s Hp Hr Hs). unfold Rdiv. ring.
Qed.

Lemma fft2_scales_the_norm_witness :
  np_sum (abs2 (fft2 [[Cone; Ci]; [C0; Cone]])) =
    INR 2 * INR 2 * np_sum (abs2 [[Cone; Ci]; [C0; Cone]]) /\
  np_sum (abs2 (ifft2 [[Cone; Ci]; [C0; Cone]])) =
    np_sum (abs2 [[Cone; Ci]; [C0; Cone]]) / (INR 2 * INR 2).
Proof.
  apply (fft2_scales_the_norm _ 2 2); [|lia|lia].
  split; [reflexivity|]. repeat constructor.
Defined.

(** X12.  The transform pair is matched in the other order too:
    [fft2(ifft2(q)) = q] for every complex array. *)
Theorem fft2_undoes_ifft2 (q : matrix C) (r s : nat) :
  shape q r s -> fft2 (ifft2 q) = q.
Proof.
  intros Hq. apply (matrix_ext C0 _ _ r s).
  - now apply shape_fft2, shape_ifft2.
  - assumption.
  - intros i j Hi Hj. exact (get_fft2_ifft2 q r s i j Hq Hi Hj).
Qed.

Lemma fft2_undoes_ifft2_witness :
  fft2 (ifft2 [[Cone; Ci]; [C0; Cone]]) = [[Cone; Ci]; [C0; Cone]].
Proof.
  apply (fft2_undoes_ifft2 _ 2 2). split; [reflexivity|]. repeat constructor.
Defined.

(** ** The renormalisation inside the loop *)

Lemma unit_norm_divisor (hx hy : R) (p : matrix C) :
  l2 hx hy p = 1 ->
  norm_of hx hy p = Some 1 /\ normalize hx hy (Finite p) = Finite p.
Proof.
  intros Hone. unfold l2 in Hone.
  assert (Hn : norm_of hx hy p = Some 1).
  { unfold norm_of, np_sqrt. rewrite Hone.
    destruct (Rlt_dec 1 0); [lra|]. now rewrite sqrt_1. }
  split; [assumption|].
  unfold normalize; simpl. rewrite Hn.
  destruct (Req_dec_T 1 0); [lra|]. now rewrite mmap_divr_one.
Qed.

Lemma evolved_field_has_unit_norm (c : config) (e : env) (t : nat) :
  setup c = inr e -> a c <> 0 -> sigma c <> 0 -> 0 < Lx c * Ly c ->
  exists q, evolve c e (psi_at c e t) = Finite q /\ l2 (dx e) (dy e) q = 1.
Proof.
  intros Hset Ha Hs HL. assert (Hd := setup_cell_pos c e Hset HL).
  destruct (psi_at_finite c e t Hset Ha Hs Hd) as (p & Hp & Hone).
  destruct (potential_entries c e Hset Ha) as (vv & HV & _).
  destruct (evolve_norm c e vv p Hset HV (psi_at_shape c e t p Hset Hp))
    as (q & Hq & _ & Hsum).
  exists q. rewrite Hp. split; [assumption|]. unfold l2 in *. now rewrite Hsum.
Qed.

Lemma step_is_evolve (c : config) (e : env) (t : nat) :
  setup c = inr e -> a c <> 0 -> sigma c <> 0 -> 0 < Lx c * Ly c ->
  psi_at c e (S t) = evolve c e (psi_at c e t).
Proof.
  intros Hset Ha Hs HL.
  destruct (evolved_field_has_unit_norm c e t Hset Ha Hs HL) as (q & Hq & Hone).
  simpl. unfold step. rewrite Hq.
  exact (proj2 (unit_norm_divisor (dx e) (dy e) q Hone)).
Qed.

(** X7.  In exact arithmetic, with [a] and [sigma] nonzero and [Lx Ly > 0],
    the field entering the renormalisation of lines 57-58 already has unit
    norm in every pass of the loop: [norm] is exactly 1 and the division
    changes nothing.  The renormalisation only ever corrects rounding. *)
Theorem loop_divisor_is_one (c : config) (e : env) (t : nat) :
  setup c = inr e -> a c <> 0 -> sigma c <> 0 -> 0 < Lx c * Ly c ->
  divisor c e (S t) = Some 1 /\
  psi_at c e (S t) = evolve c e (psi_at c e t).
Proof.
  intros Hset Ha Hs HL.
  destruct (evolved_field_has_unit_norm c e t Hset Ha Hs HL) as (q & Hq & Hone).
  split.
  - unfold divisor, before_norm. rewrite Hq.
    exact (proj1 (unit_norm_divisor (dx e) (dy e) q Hone)).
  - simpl. unfold step. rewrite Hq.
    exact (proj2 (unit_norm_divisor (dx e) (dy e) q Hone)).
Qed.

Lemma loop_divisor_is_one_witness :
  exists e,
    setup default_config = inr e /\
    divisor default_config e 2000 = Some 1 /\
    psi_at default_config e 2000 = evolve default_config e (psi_at default_config e 1999).
Proof.
  destruct default_setup as [e He]. exists e. split; [assumption|].
  apply (loop_divisor_is_one default_config e 1999 He); simpl; lra.
Defined.

(** X8.  In exact arithmetic, with [a] and [sigma] nonzero and [Lx Ly > 0],
    the program never breaks down: it returns a finite density of the
    grid's shape whose entries are all non-negative and whose integral
    [sum(density) dx dy] is 1. *)
Theorem run_returns_a_unit_density (c : config) (e : env) :
  setup c = inr e -> a c <> 0 -> sigma c <> 0 -> 0 < Lx c * Ly c ->
  exists d,
    run c = inr (Finite d) /\
    shape d (Z.to_nat (Nx c)) (Z.to_nat (Ny c)) /\
    (forall i j, (i < Z.to_nat (Nx c))%nat -> (j < Z.to_nat (Ny c))%nat ->
       0 <= getR d i j) /\
    np_sum d * dx e * dy e = 1.
Proof.
  intros Hset Ha Hs HL. assert (Hd := setup_cell_pos c e Hset HL).
  destruct (psi_at_finite c e (Z.to_nat (steps c)) Hset Ha Hs Hd) as (p & Hp & Hone).
  assert (Hsh := psi_at_shape c e _ p Hset Hp).
  exists (abs2 p). split; [|split; [|split]].
  - rewrite (run_setup_ok c e Hset), Hp. reflexivity.
  - now apply shape_abs2.
  - intros i j Hi Hj. rewrite (get_abs2 p _ _ i j Hsh Hi Hj). apply Cmod_sqr_nonneg.
  - exact Hone.
Qed.

Lemma run_returns_a_unit_density_witness :
  exists e d,
    setup default_config = inr e /\
    run default_config = inr (Finite d) /\
    shape d 256 256 /\
    0 <= getR d 3 200 /\
    np_sum d * dx e * dy e = 1.
Proof.
  destruct default_setup as [e He].
  destruct (run_returns_a_unit_density default_config e He) as (d & Hrun & Hsh & Hpos & Hone);
    [simpl; lra | simpl; lra | simpl; lra |].
  exists e, d. repeat split; try assumption; try apply Hsh.
  apply (Hpos 3%nat 200%nat); apply Nat.ltb_lt; reflexivity.
Defined.

(** ** Passes that change nothing, or less *)

(** A half step whose phase vanishes everywhere is the identity. *)
Lemma strang_half_id (c : config) (vv : matrix R) (p : matrix C) (r s : nat) :
  shape p r s ->
  (forall i j, (i < r)%nat -> (j < s)%nat ->
     (getR vv i j + g c * Cmod (getC p i j) ^ 2) * dt c = 0) ->
  strang_half c vv p = p.
Proof.
  intros Hp Hz. apply (matrix_ext C0 _ _ r s).
  - now apply shape_strang_half.
  - assumption.
  - intros i j Hi Hj. change (getC (strang_half c vv p) i j = getC p i j).
    rewrite (get_strang_half c vv p r s i j Hp Hi Hj).
    replace (- (getR vv i j + g c * Cmod (getC p i j) ^ 2) * dt c / 2)
      with (- ((getR vv i j + g c * Cmod (getC p i j) ^ 2) * dt c) / 2)
      by (unfold Rdiv; ring).
    rewrite (Hz i j Hi Hj).
    replace (- 0 / 2) with 0 by (unfold Rdiv; ring).
    rewrite cis_0. apply Cmult_1_r.
Qed.

Lemma strang_kinetic_id (c : config) (k2 : matrix R) (p : matrix C) (r s : nat) :
  shape p r s -> dt c = 0 -> strang_kinetic c k2 p = p.
Proof.
  intros Hp Hdt. destruct (shape_dims p r s Hp) as (_ & Hlen & Hcols).
  rewrite <- (ifft2_fft2 p r s Hp) at 2. unfold strang_kinetic. f_equal.
  apply (matrix_ext C0 _ _ r s).
  - destruct (Nat.eq_dec r 0) as [->|Hr].
    + rewrite Hlen. split; [reflexivity | constructor].
    + rewrite Hlen, Hcols by lia. apply shape_build2.
  - now apply shape_fft2.
  - intros i j Hi Hj. rewrite Hlen, Hcols by lia. rewrite get_build2 by assumption.
    rewrite Hdt. replace (- getR k2 i j * 0 / 2) with 0 by (unfold Rdiv; ring).
    rewrite cis_0. apply Cmult_1_r.
Qed.

(** X10.  With [dt = 0] (and [a], [sigma] nonzero, [Lx Ly > 0]) every pass
    of the loop returns the field it was given: after any number of passes
    [psi] is still the normalised initial Gaussian. *)
Theorem zero_dt_changes_nothing (c : config) (e : env) (t : nat) :
  setup c = inr e -> a c <> 0 -> sigma c <> 0 -> 0 < Lx c * Ly c -> dt c = 0 ->
  psi_at c e t = psi e.
Proof.
  intros Hset Ha Hs HL Hdt. induction t as [|t IH]; [reflexivity|].
  rewrite (step_is_evolve c e t Hset Ha Hs HL). rewrite IH.
  assert (Hd := setup_cell_pos c e Hset HL).
  destruct (psi_at_finite c e 0 Hset Ha Hs Hd) as (p & Hp & _).
  simpl in Hp. rewrite Hp.
  assert (Hsh := psi_at_shape c e 0 p Hset Hp).
  destruct (potential_entries c e Hset Ha) as (vv & HV & _).
  rewrite (evolve_strang c e vv p Hset HV Hsh). f_equal.
  rewrite (strang_half_id c vv p _ _ Hsh) by (intros; rewrite Hdt; ring).
  rewrite (strang_kinetic_id c (K2 e) p _ _ Hsh Hdt).
  apply (strang_half_id c vv p _ _ Hsh). intros; rewrite Hdt; ring.
Qed.

Lemma zero_dt_changes_nothing_witness :
  exists e,
    setup zero_dt_config = inr e /\ psi_at zero_dt_config e 2000 = psi e.
Proof.
  destruct (setup_ok zero_dt_config) as [e He]; simpl; try lia; try lra.
  exists e. split; [assumption|].
  apply (zero_dt_changes_nothing zero_dt_config e 2000 He); simpl; lra.
Defined.

(** X11.  With [g = 0] and [V0 = 0] (and [a], [sigma] nonzero, [Lx Ly > 0])
    both half steps and the renormalisation leave the field as it is: a
    pass of the loop is the kinetic step alone. *)
Theorem free_pass_is_the_kinetic_step (c : config) (e : env) (t : nat) :
  setup c = inr e -> a c <> 0 -> sigma c <> 0 -> 0 < Lx c * Ly c ->
  g c = 0 -> V0 c = 0 ->
  psi_at c e (S t) = kinetic c (K2 e) (psi_at c e t).
Proof.
  intros Hset Ha Hs HL Hg HV0.
  rewrite (step_is_evolve c e t Hset Ha Hs HL).
  assert (Hd := setup_cell_pos c e Hset HL).
  destruct (psi_at_finite c e t Hset Ha Hs Hd) as (p & Hp & _). rewrite Hp.
  assert (Hsh := psi_at_shape c e t p Hset Hp).
  destruct (potential_entries c e Hset Ha) as (vv & HV & _ & Hval).
  destruct (setup_shapes c e Hset) as (_ & _ & _ & _ & _ & _ & HK).
  assert (Hid : forall q, shape q (Z.to_nat (Nx c)) (Z.to_nat (Ny c)) ->
                          strang_half c vv q = q).
  { intros q Hq. apply (strang_half_id c vv q _ _ Hq). intros i j Hi Hj.
    rewrite (Hval i j Hi Hj), Hg. unfold V_at. rewrite HV0. ring. }
  rewrite (evolve_strang c e vv p Hset HV Hsh).
  rewrite (kinetic_strang c (K2 e) p _ _ HK Hsh). f_equal.
  rewrite (Hid p Hsh). apply Hid. now apply shape_strang_kinetic.
Qed.

Lemma free_pass_is_the_kinetic_step_witness :
  exists e,
    setup free_config = inr e /\
    psi_at free_config e 1 = kinetic free_config (K2 e) (psi_at free_config e 0).
Proof.
  destruct (setup_ok free_config) as [e He]; simpl; try lia; try lra.
  exists e. split; [assumption|].
  apply (free_pass_is_the_kinetic_step free_config e 0 He); simpl; lra.
Defined.

(** ** No pass at all *)

(** X9.  In exact arithmetic, with [sigma] nonzero and [Lx Ly > 0]: when
    [steps <= 0] the body of [for _ in range(steps)] never runs (whatever
    [a] is), and the output is the density of the normalised Gaussian,
    [exp(-(X^2 + Y^2) / sigma^2) / norm^2] at every grid point, [norm] being
    the positive divisor of line 35. *)
Theorem no_steps_returns_the_initial_density (c : config) (e : env) :
  setup c = inr e -> (steps c <= 0)%Z -> sigma c <> 0 -> 0 < Lx c * Ly c ->
  exists d n,
    run c = inr (Finite d) /\ divisor c e 0 = Some n /\ 0 < n /\
    forall i j, (i < Z.to_nat (Nx c))%nat -> (j < Z.to_nat (Ny c))%nat ->
      getR d i j =
      exp (- (getR (X e) i j ^ 2 + getR (Y e) i j ^ 2) / sigma c ^ 2) / n ^ 2.
Proof.
  intros Hset Hsteps Hs HL. assert (Hd := setup_cell_pos c e Hset HL).
  destruct (gaussian_norm c e Hset Hs Hd) as (p0 & n & Hg & Hsh & Hval & Hn & Hpos).
  assert (Hn0 : n <> 0) by lra.
  destruct (normalize_unit (dx e) (dy e) p0 n Hn Hn0) as [Hnorm _].
  exists (abs2 (mmap (fun z => Cdivr z n) p0)), n.
  split; [|split; [|split]].
  - rewrite (run_setup_ok c e Hset).
    replace (Z.to_nat (steps c)) with 0%nat by lia.
    rewrite (psi_at_normalize c e 0 Hset). unfold before_norm. now rewrite Hg, Hnorm.
  - unfold divisor, before_norm. now rewrite Hg.
  - assumption.
  - intros i j Hi Hj.
    rewrite (get_abs2 _ _ _ i j (shape_mmap _ p0 _ _ Hsh) Hi Hj).
    unfold getC. rewrite (get_mmap _ C0 C0 p0 _ _ i j Hsh Hi Hj).
    change (get C0 p0 i j) with (getC p0 i j).
    rewrite Cmod_sqr_divr by assumption. rewrite (Hval i j Hi Hj).
    rewrite Cmod_sqr. unfold RtoC, Re, Im; cbn [fst snd].
    set (u := getR (X e) i j ^ 2 + getR (Y e) i j ^ 2).
    replace (exp (- u / (2 * sigma c ^ 2)) * exp (- u / (2 * sigma c ^ 2)) + 0 * 0)
      with (exp (- u / (2 * sigma c ^ 2) + - u / (2 * sigma c ^ 2)))
      by (rewrite exp_plus; ring).
    do 2 f_equal. field. exact Hs.
Qed.

Lemma no_steps_returns_the_initial_density_witness :
  exists e d n,
    setup no_steps_config = inr e /\
    run no_steps_config = inr (Finite d) /\ divisor no_steps_config e 0 = Some n /\
    getR d 3 200 =
      exp (- (getR (X e) 3 200 ^ 2 + getR (Y e) 3 200 ^ 2) / 1 ^ 2) / n ^ 2.
Proof.
  destruct (setup_ok no_steps_config) as [e He]; simpl; try lia; try lra.
  destruct (no_steps_returns_the_initial_density no_steps_config e He)
    as (d & n & Hrun & Hdiv & _ & Hval); [simpl; lia | simpl; lra | simpl; lra |].
  exists e, d, n. repeat split; try assumption.
  apply (Hval 3%nat 200%nat); apply Nat.ltb_lt; reflexivity.
Defined.

(** ** The grid in general *)

Lemma axis_grid (h : R) (num : Z) (l : list R) :
  h <> 0 -> linspace (- h / 2) (h / 2) num = inr l ->
  length l = Z.to_nat num /\
  (num = 1%Z -> l = [- h / 2]) /\
  ((1 < num)%Z ->
   nth 0 l 0 = - h / 2 /\
   nth (Z.to_nat num - 1) l 0 = h / 2 /\
   (forall i, (S i < Z.to_nat num)%nat -> nth (S i) l 0 - nth i l 0 = h / IZR (num - 1)) /\
   h / IZR (num - 1) <> h / IZR num).
Proof.
  intros Hh Hl. split; [exact (proj2 (linspace_inr _ _ _ _ Hl))|]. split.
  - intros ->. rewrite linspace_one in Hl. now inversion Hl.
  - intros H1. destruct (linspace_spacing _ _ _ _ H1 Hl) as (H0 & Hlast & Hstep).
    assert (Hd : IZR (num - 1) <> 0) by (apply not_0_IZR; lia).
    assert (Hn : IZR num <> 0) by (apply not_0_IZR; lia).
    repeat split; try assumption.
    + intros i Hi. rewrite (Hstep i Hi). now field.
    + intros Heq. rewrite minus_IZR in *.
      assert (Hc : h * IZR num = h * (IZR num - 1)).
      { apply (Rmult_eq_reg_r (/ (IZR num - 1) * / IZR num)).
        - unfold Rdiv in Heq.
          replace (h * IZR num * (/ (IZR num - 1) * / IZR num))
            with (h * / (IZR num - 1)) by (field; split; assumption).
          replace (h * (IZR num - 1) * (/ (IZR num - 1) * / IZR num))
            with (h * / IZR num) by (field; split; assumption).
          exact Heq.
        - apply Rmult_integral_contrapositive. split; now apply Rinv_neq_0_compat. }
      assert (h = 0) by lra. contradiction.
Qed.

(** X1.  The coordinate arrays of lines 16-17 run over the closed interval:
    [x] has [Nx] entries; with [Nx >= 2] they go from [-Lx/2] to [+Lx/2]
    inclusive in equal steps of [Lx/(Nx-1)], which is never the [dx = Lx/Nx]
    of line 13; with [Nx = 1] the only entry is [-Lx/2].  Likewise [y]. *)
Theorem grid_runs_between_both_endpoints (c : config) (e : env) :
  setup c = inr e ->
  (length (x e) = Z.to_nat (Nx c) /\
   (Nx c = 1%Z -> x e = [- Lx c / 2]) /\
   ((1 < Nx c)%Z ->
    nth 0 (x e) 0 = - Lx c / 2 /\
    nth (Z.to_nat (Nx c) - 1) (x e) 0 = Lx c / 2 /\
    (forall i, (S i < Z.to_nat (Nx c))%nat ->
       nth (S i) (x e) 0 - nth i (x e) 0 = Lx c / IZR (Nx c - 1)) /\
    Lx c / IZR (Nx c - 1) <> dx e)) /\
  (length (y e) = Z.to_nat (Ny c) /\
   (Ny c = 1%Z -> y e = [- Ly c / 2]) /\
   ((1 < Ny c)%Z ->
    nth 0 (y e) 0 = - Ly c / 2 /\
    nth (Z.to_nat (Ny c) - 1) (y e) 0 = Ly c / 2 /\
    (forall j, (S j < Z.to_nat (Ny c))%nat ->
       nth (S j) (y e) 0 - nth j (y e) 0 = Ly c / IZR (Ny c - 1)) /\
    Ly c / IZR (Ny c - 1) <> dy e)).
Proof.
  intros Hset.
  destruct (setup_inr c e Hset) as (_ & _ & HLx & HLy & -> & -> & Hx & Hy & _).
  split.
  - exact (axis_grid (Lx c) (Nx c) (x e) HLx Hx).
  - exact (axis_grid (Ly c) (Ny c) (y e) HLy Hy).
Qed.

Lemma grid_runs_between_both_endpoints_witness :
  exists e,
    setup one_column_config = inr e /\
    x e = [- (10) / 2] /\
    nth 0 (y e) 0 = - (10) / 2 /\ nth 255 (y e) 0 = 10 / 2 /\
    nth 8 (y e) 0 - nth 7 (y e) 0 = 10 / 255 /\
    10 / 255 <> dy e.
Proof.
  destruct (setup_ok one_column_config) as [e He]; simpl; try lia; try lra.
  exists e. split; [assumption|].
  destruct (grid_runs_between_both_endpoints one_column_config e He)
    as ((_ & Hx1 & _) & (_ & _ & Hy)).
  split; [apply Hx1; reflexivity|].
  destruct Hy as (H0 & Hlast & Hstep & Hne); [apply Z.ltb_lt; reflexivity|].
  split; [exact H0|]. split; [exact Hlast|]. split; [|exact Hne].
  apply (Hstep 7%nat). apply Nat.ltb_lt. reflexivity.
Defined.

(** ** Parity of the wavenumbers *)

Lemma bin_facts (n : Z) (k : nat) :
  (0 < n)%Z -> (k < Z.to_nat n)%nat ->
  bin n 0 = 0%Z /\
  ((2 * Z.of_nat k)%Z <> n -> bin n (neg (Z.to_nat n) k) = (- bin n k)%Z) /\
  ((2 * Z.of_nat k)%Z = n -> neg (Z.to_nat n) k = k /\ bin n k = (- Z.of_nat k)%Z).
Proof.
  intros Hn Hk. split; [|split].
  - unfold bin. destruct (Z.ltb_spec (Z.of_nat 0) ((n - 1) / 2 + 1)); [reflexivity|].
    exfalso. simpl in *. Z.div_mod_to_equations. lia.
  - intros Hne. destruct k as [|k].
    + rewrite neg_0. unfold bin.
      destruct (Z.ltb_spec (Z.of_nat 0) ((n - 1) / 2 + 1)); [reflexivity|].
      exfalso. simpl in *. Z.div_mod_to_equations. lia.
    + rewrite neg_pos by lia. unfold bin.
      replace (Z.of_nat (Z.to_nat n - S k)) with (n - Z.of_nat (S k))%Z by lia.
      destruct (Z.ltb_spec (n - Z.of_nat (S k)) ((n - 1) / 2 + 1));
        destruct (Z.ltb_spec (Z.of_nat (S k)) ((n - 1) / 2 + 1));
        Z.div_mod_to_equations; lia.
  - intros Heq. destruct k as [|k]; [lia|]. split.
    + rewrite neg_pos by lia. lia.
    + unfold bin. destruct (Z.ltb_spec (Z.of_nat (S k)) ((n - 1) / 2 + 1));
        Z.div_mod_to_equations; lia.
Qed.

(** X3.  The wavenumbers of lines 38-41 are odd in the bin index and [K2]
    is even: [kx[0] = 0]; [kx[-k mod Nx] = -kx[k]] except in the Nyquist
    bin [k = Nx/2] of an even [Nx], which is its own opposite and holds the
    negative value [-pi/dx]; so [K2[-k mod Nx][-l mod Ny] = K2[k][l]], and
    [K2[0][0] = 0]. *)
Theorem wavenumbers_are_odd_and_K2_even (c : config) (e : env) :
  setup c = inr e ->
  nth 0 (kx e) 0 = 0 /\
  (forall k, (k < Z.to_nat (Nx c))%nat ->
     ((2 * Z.of_nat k)%Z <> Nx c ->
      nth (neg (Z.to_nat (Nx c)) k) (kx e) 0 = - nth k (kx e) 0) /\
     ((2 * Z.of_nat k)%Z = Nx c ->
      neg (Z.to_nat (Nx c)) k = k /\ nth k (kx e) 0 = - PI / dx e)) /\
  (forall k l, (k < Z.to_nat (Nx c))%nat -> (l < Z.to_nat (Ny c))%nat ->
     getR (K2 e) (neg (Z.to_nat (Nx c)) k) (neg (Z.to_nat (Ny c)) l) = getR (K2 e) k l) /\
  getR (K2 e) 0 0 = 0.
Proof.
  intros Hset. destruct (setup_inr c e Hset) as (Hnx & Hny & HLx & _ & Hdx & _).
  destruct (setup_kx c e Hset) as [Hkx Hky].
  assert (Hn0 : IZR (Nx c) <> 0) by (apply not_0_IZR; lia).
  assert (Hdx0 : dx e <> 0).
  { rewrite Hdx. intros H0. apply HLx. apply (Rmult_eq_reg_r (/ IZR (Nx c))).
    - unfold Rdiv in H0. rewrite H0. ring.
    - now apply Rinv_neq_0_compat. }
  assert (Hk0 : nth 0 (kx e) 0 = 0).
  { rewrite Hkx by lia. destruct (bin_facts (Nx c) 0 Hnx) as (-> & _); [lia|].
    simpl. unfold Rdiv. ring. }
  assert (Hl0 : nth 0 (ky e) 0 = 0).
  { rewrite Hky by lia. destruct (bin_facts (Ny c) 0 Hny) as (-> & _); [lia|].
    simpl. unfold Rdiv. ring. }
  split; [assumption|]. split; [|split].
  - intros k Hk. destruct (bin_facts (Nx c) k Hnx Hk) as (_ & Hodd & Hnyq). split.
    + intros Hne.
      assert (Hnk : (neg (Z.to_nat (Nx c)) k < Z.to_nat (Nx c))%nat) by (apply neg_lt; lia).
      rewrite (Hkx _ Hnk), (Hkx k Hk), (Hodd Hne).
      rewrite opp_IZR. ring.
    + intros Heq. destruct (Hnyq Heq) as [Hself Hbin]. split; [assumption|].
      rewrite (Hkx k Hk), Hbin, opp_IZR.
      assert (Hk2 : 2 * IZR (Z.of_nat k) = IZR (Nx c))
        by (rewrite <- Heq, mult_IZR; reflexivity).
      rewrite <- Hk2. field. split; [assumption|].
      intros H0. apply Hn0. rewrite <- Hk2, H0. ring.
  - exact (K2_even c e Hset).
  - rewrite (setup_K2 c e 0 0 Hset) by lia. rewrite Hk0, Hl0. ring.
Qed.

Lemma wavenumbers_are_odd_and_K2_even_witness :
  exists e,
    setup default_config = inr e /\
    nth 0 (kx e) 0 = 0 /\
    nth (neg 256 3) (kx e) 0 = - nth 3 (kx e) 0 /\
    nth 128 (kx e) 0 = - PI / dx e /\
    getR (K2 e) (neg 256 3) (neg 256 200) = getR (K2 e) 3 200.
Proof.
  destruct default_setup as [e He]. exists e. split; [assumption|].
  destruct (wavenumbers_are_odd_and_K2_even default_config e He) as (H0 & Hodd & Heven & _).
  split; [exact H0|]. split; [|split].
  - apply (proj1 (Hodd 3%nat ltac:(apply Nat.ltb_lt; reflexivity))). discriminate.
  - apply (proj2 (Hodd 128%nat ltac:(apply Nat.ltb_lt; reflexivity))). reflexivity.
  - apply (Heven 3%nat 200%nat); apply Nat.ltb_lt; reflexivity.
Defined.

(** ** Mirror symmetry about each axis *)

Lemma flip_lt (b : bool) (n i : nat) : (i < n)%nat -> (flip b n i < n)%nat.
Proof. destruct b; simpl; lia. Qed.

Lemma flip_flip (b : bool) (n i : nat) : (i < n)%nat -> flip b n (flip b n i) = i.
Proof. destruct b; simpl; lia. Qed.

Lemma flip_bin_lt (b : bool) (n k : nat) : (k < n)%nat -> (flip_bin b n k < n)%nat.
Proof. destruct b; simpl; [intros; apply neg_lt; lia | auto]. Qed.

Lemma dft_flip (b : bool) (n : nat) (f h : nat -> C) (z : C) (k : nat) :
  (forall m, (m < n)%nat -> h m = Cmult z (f (flip b n m))) -> (k < n)%nat ->
  dft (-1) n h (flip_bin b n k) = Cmult (Cmult z (flip_factor b n k)) (dft (-1) n f k).
Proof.
  destruct b; simpl; intros Hh Hk.
  - now apply dft_reflect.
  - rewrite Cmult_1_r, <- dft_scale. now apply dft_ext.
Qed.

Lemma idft_flip (b : bool) (n : nat) (G G' : nat -> C) (z : C) (j : nat) :
  (forall l, (l < n)%nat ->
     G' (flip_bin b n l) = Cmult (Cmult z (flip_factor b n l)) (G l)) -> (j < n)%nat ->
  dft 1 n G' (flip b n j) = Cmult z (dft 1 n G j).
Proof.
  destruct b; simpl; intros HG Hj.
  - now apply idft_reflect.
  - rewrite <- dft_scale. apply dft_ext. intros l Hl.
    rewrite (HG l Hl). now rewrite Cmult_1_r.
Qed.

(** The kinetic step keeps every mirror symmetry that the multiplier has in
    frequency. *)
Lemma kinetic_entry_mirrored (mx my : bool) (r s : nat) (P Mu : nat -> nat -> C) :
  mirrored mx my r s P ->
  (forall k l, (k < r)%nat -> (l < s)%nat ->
     Mu (flip_bin mx r k) (flip_bin my s l) = Mu k l) ->
  mirrored mx my r s (kinetic_entry r s P Mu).
Proof.
  intros HP HMu i j Hi Hj.
  set (A := fun m l => dft (-1) s (fun n => P m n) l).
  set (B := fun k l => dft (-1) r (fun m => A m l) k).
  set (G := fun k l => Cmult (B k l) (Mu k l)).
  set (H := fun k j' => dft 1 s (fun l => G k l) j').
  assert (HA : forall m l, (m < r)%nat -> (l < s)%nat ->
            A (flip mx r m) (flip_bin my s l) =
            Cmult (Cmult Cone (flip_factor my s l)) (A m l)).
  { intros m l Hm Hl. unfold A. apply dft_flip; [|assumption].
    intros n Hn. rewrite Cmult_1_l.
    rewrite <- (HP m (flip my s n) Hm (flip_lt my s n Hn)).
    now rewrite flip_flip. }
  assert (HB : forall k l, (k < r)%nat -> (l < s)%nat ->
            B (flip_bin mx r k) (flip_bin my s l) =
            Cmult (Cmult (flip_factor my s l) (flip_factor mx r k)) (B k l)).
  { intros k l Hk Hl. unfold B. apply dft_flip; [|assumption].
    intros m Hm. rewrite <- (flip_flip mx r m Hm) at 1.
    rewrite (HA _ l (flip_lt mx r m Hm) Hl). now rewrite Cmult_1_l. }
  assert (HG : forall k l, (k < r)%nat -> (l < s)%nat ->
            G (flip_bin mx r k) (flip_bin my s l) =
            Cmult (Cmult (flip_factor mx r k) (flip_factor my s l)) (G k l)).
  { intros k l Hk Hl. unfold G. rewrite HB, HMu by assumption. cring. }
  assert (HH : forall k j', (k < r)%nat -> (j' < s)%nat ->
            H (flip_bin mx r k) (flip my s j') = Cmult (flip_factor mx r k) (H k j')).
  { intros k j' Hk Hj'. unfold H. apply idft_flip; [|assumption].
    intros l Hl. now apply HG. }
  unfold kinetic_entry.
  change (Cdivr (dft 1 r (fun k => Cdivr (H k (flip my s j)) (INR s)) (flip mx r i)) (INR r) =
          Cdivr (dft 1 r (fun k => Cdivr (H k j) (INR s)) i) (INR r)).
  f_equal. rewrite <- (Cmult_1_l (dft 1 r _ i)).
  apply idft_flip; [|assumption].
  intros k Hk. rewrite HH by assumption.
  rewrite <- Cdivr_mult_r. f_equal. cring.
Qed.

Lemma bin_flip (b : bool) (n : Z) (k : nat) :
  (0 < n)%Z -> (k < Z.to_nat n)%nat ->
  bin n (flip_bin b (Z.to_nat n) k) = (- bin n k)%Z \/
  bin n (flip_bin b (Z.to_nat n) k) = bin n k.
Proof.
  destruct b; simpl; intros Hn Hk; [now apply bin_neg | now right].
Qed.

Lemma K2_flip (mx my : bool) (c : config) (e : env) (k l : nat) :
  setup c = inr e -> (k < Z.to_nat (Nx c))%nat -> (l < Z.to_nat (Ny c))%nat ->
  getR (K2 e) (flip_bin mx (Z.to_nat (Nx c)) k) (flip_bin my (Z.to_nat (Ny c)) l) =
  getR (K2 e) k l.
Proof.
  intros Hset Hk Hl.
  destruct (setup_inr c e Hset) as (Hnx & Hny & _).
  destruct (setup_kx c e Hset) as [Hkx Hky].
  assert (Hnk := flip_bin_lt mx _ k Hk). assert (Hnl := flip_bin_lt my _ l Hl).
  rewrite (setup_K2 c e _ _ Hset Hnk Hnl), (setup_K2 c e k l Hset Hk Hl).
  rewrite (Hkx _ Hnk), (Hkx k Hk), (Hky _ Hnl), (Hky l Hl).
  destruct (bin_flip mx (Nx c) k Hnx Hk) as [-> | ->];
    destruct (bin_flip my (Ny c) l Hny Hl) as [-> | ->];
    rewrite ?opp_IZR; ring.
Qed.

Lemma grid_flip (mx my : bool) (c : config) (e : env) (i j : nat) :
  setup c = inr e -> (i < Z.to_nat (Nx c))%nat -> (j < Z.to_nat (Ny c))%nat ->
  (getR (X e) (flip mx (Z.to_nat (Nx c)) i) (flip my (Z.to_nat (Ny c)) j) = - getR (X e) i j \/
   getR (X e) (flip mx (Z.to_nat (Nx c)) i) (flip my (Z.to_nat (Ny c)) j) = getR (X e) i j) /\
  (getR (Y e) (flip mx (Z.to_nat (Nx c)) i) (flip my (Z.to_nat (Ny c)) j) = - getR (Y e) i j \/
   getR (Y e) (flip mx (Z.to_nat (Nx c)) i) (flip my (Z.to_nat (Ny c)) j) = getR (Y e) i j).
Proof.
  intros Hset Hi Hj.
  destruct (setup_inr c e Hset) as (_ & _ & _ & _ & _ & _ & Hx & Hy & HX & HY & _).
  destruct (setup_shapes c e Hset) as (Lx' & Ly' & _).
  destruct (get_meshgrid (x e) (y e) i j) as [G1 G2]; [lia | lia |].
  assert (Hfi := flip_lt mx _ i Hi). assert (Hfj := flip_lt my _ j Hj).
  destruct (get_meshgrid (x e) (y e) (flip mx (Z.to_nat (Nx c)) i) (flip my (Z.to_nat (Ny c)) j))
    as [G3 G4]; [lia | lia |].
  rewrite HX, HY, G1, G2, G3, G4.
  replace (- Lx c / 2) with (- (Lx c / 2)) in Hx by (unfold Rdiv; ring).
  replace (- Ly c / 2) with (- (Ly c / 2)) in Hy by (unfold Rdiv; ring).
  split.
  - destruct mx; simpl; [exact (linspace_reflect _ _ _ i Hx Hi) | now right].
  - destruct my; simpl; [exact (linspace_reflect _ _ _ j Hy Hj) | now right].
Qed.

Lemma V_mirrored (mx my : bool) (c : config) (e : env) (vv : matrix R) :
  setup c = inr e -> V e = Finite vv ->
  mirrored mx my (Z.to_nat (Nx c)) (Z.to_nat (Ny c)) (getR vv).
Proof.
  intros Hset HV i j Hi Hj.
  destruct (V_Finite_shape c e vv Hset HV) as [Ha _].
  destruct (potential_entries c e Hset Ha) as (vv' & HV' & _ & Hval).
  rewrite HV in HV'. inversion HV'; subst vv'.
  rewrite (Hval _ _ (flip_lt mx _ i Hi) (flip_lt my _ j Hj)), (Hval i j Hi Hj).
  unfold V_at.
  destruct (grid_flip mx my c e i j Hset Hi Hj) as [[-> | ->] [-> | ->]]; trivial;
    repeat match goal with
           | |- context [cos (PI * - ?u / ?p)] =>
               replace (PI * - u / p) with (- (PI * u / p)) by (unfold Rdiv; ring);
               rewrite cos_neg
           end; reflexivity.
Qed.

Lemma gaussian_mirrored (mx my : bool) (c : config) (e : env) (p0 : matrix C) :
  setup c = inr e -> gaussian c (X e) (Y e) = Finite p0 ->
  mirrored mx my (Z.to_nat (Nx c)) (Z.to_nat (Ny c)) (getC p0).
Proof.
  intros Hset Hg i j Hi Hj.
  destruct (setup_shapes c e Hset) as (_ & _ & SX & SY & _).
  assert (Hfi := flip_lt mx _ i Hi). assert (Hfj := flip_lt my _ j Hj).
  destruct (gaussian_entries c _ _ p0 _ _ Hg SX SY) as [Hall|Hall].
  - now rewrite (Hall _ _ Hfi Hfj), (Hall i j Hi Hj).
  - rewrite (Hall _ _ Hfi Hfj), (Hall i j Hi Hj).
    destruct (grid_flip mx my c e i j Hset Hi Hj) as [[-> | ->] [-> | ->]];
      do 2 f_equal; unfold Rdiv; ring.
Qed.

Lemma psi_at_mirrored (mx my : bool) (c : config) (e : env) (t : nat) (p : matrix C) :
  setup c = inr e -> psi_at c e t = Finite p ->
  mirrored mx my (Z.to_nat (Nx c)) (Z.to_nat (Ny c)) (getC p).
Proof.
  intros Hset. revert p. induction t as [|t IH]; intros p Hp.
  - rewrite (psi_at_normalize c e 0 Hset) in Hp. apply normalize_Finite in Hp.
    destruct Hp as (p0 & n & Hg & _ & _ & ->). unfold before_norm in Hg.
    destruct (setup_shapes c e Hset) as (_ & _ & SX & SY & _).
    assert (Hsh := gaussian_shape c _ _ p0 _ _ Hg SX SY).
    intros i j Hi Hj. unfold getC.
    rewrite (get_mmap _ C0 C0 p0 _ _ _ _ Hsh (flip_lt mx _ i Hi) (flip_lt my _ j Hj)).
    rewrite (get_mmap _ C0 C0 p0 _ _ i j Hsh Hi Hj). f_equal.
    exact (gaussian_mirrored mx my c e p0 Hset Hg i j Hi Hj).
  - simpl in Hp. unfold step in Hp. apply normalize_Finite in Hp.
    destruct Hp as (p1 & n & Hev & _ & _ & ->).
    destruct (evolve_Finite c e _ p1 Hev) as (vv & p' & HV & Hw).
    assert (Hs' := psi_at_shape c e t p' Hset Hw).
    rewrite Hw in Hev. rewrite (evolve_strang c e vv p' Hset HV Hs') in Hev.
    inversion Hev; subst p1. clear Hev.
    assert (Hvs := V_mirrored mx my c e vv Hset HV).
    assert (Hhalf : forall q, shape q (Z.to_nat (Nx c)) (Z.to_nat (Ny c)) ->
              mirrored mx my (Z.to_nat (Nx c)) (Z.to_nat (Ny c)) (getC q) ->
              mirrored mx my (Z.to_nat (Nx c)) (Z.to_nat (Ny c)) (getC (strang_half c vv q))).
    { intros q Hq Hm i j Hi Hj.
      rewrite (get_strang_half c vv q _ _ _ _ Hq (flip_lt mx _ i Hi) (flip_lt my _ j Hj)).
      rewrite (get_strang_half c vv q _ _ i j Hq Hi Hj).
      now rewrite (Hvs i j Hi Hj), (Hm i j Hi Hj). }
    assert (Hkin : forall q, shape q (Z.to_nat (Nx c)) (Z.to_nat (Ny c)) ->
              mirrored mx my (Z.to_nat (Nx c)) (Z.to_nat (Ny c)) (getC q) ->
              mirrored mx my (Z.to_nat (Nx c)) (Z.to_nat (Ny c))
                       (getC (strang_kinetic c (K2 e) q))).
    { intros q Hq Hm i j Hi Hj.
      rewrite (get_strang_kinetic c (K2 e) q _ _ _ _ Hq
                 (flip_lt mx _ i Hi) (flip_lt my _ j Hj)).
      rewrite (get_strang_kinetic c (K2 e) q _ _ i j Hq Hi Hj).
      apply kinetic_entry_mirrored; try assumption.
      intros k l Hk Hl. now rewrite (K2_flip mx my c e k l Hset Hk Hl). }
    set (q := strang_half c vv (strang_kinetic c (K2 e) (strang_half c vv p'))).
    assert (Hq : shape q (Z.to_nat (Nx c)) (Z.to_nat (Ny c)))
      by now apply shape_strang_half, shape_strang_kinetic, shape_strang_half.
    assert (Hqm : mirrored mx my (Z.to_nat (Nx c)) (Z.to_nat (Ny c)) (getC q)).
    { apply Hhalf; [now apply shape_strang_kinetic, shape_strang_half|].
      apply Hkin; [now apply shape_strang_half|].
      apply Hhalf; [assumption|]. now apply IH. }
    intros i j Hi Hj. unfold getC.
    rewrite (get_mmap _ C0 C0 q _ _ _ _ Hq (flip_lt mx _ i Hi) (flip_lt my _ j Hj)).
    rewrite (get_mmap _ C0 C0 q _ _ i j Hq Hi Hj). f_equal.
    exact (Hqm i j Hi Hj).
Qed.

(** X13.  The output density is an [Nx] by [Ny] array that is
    mirror-symmetric about each axis separately, not only under the point
    reflection: entry [(Nx-1-i, j)] equals entry [(i, j)], and entry
    [(i, Ny-1-j)] equals entry [(i, j)]. *)
Theorem output_density_is_mirror_symmetric (c : config) (e : env) (d : matrix R) :
  setup c = inr e -> run c = inr (Finite d) ->
  shape d (Z.to_nat (Nx c)) (Z.to_nat (Ny c)) /\
  forall i j, (i < Z.to_nat (Nx c))%nat -> (j < Z.to_nat (Ny c))%nat ->
    getR d (Z.to_nat (Nx c) - 1 - i) j = getR d i j /\
    getR d i (Z.to_nat (Ny c) - 1 - j) = getR d i j.
Proof.
  intros Hset Hrun.
  rewrite (run_setup_ok c e Hset) in Hrun.
  destruct (psi_at c e (Z.to_nat (steps c))) as [p|] eqn:Hp; [|discriminate].
  simpl in Hrun. inversion Hrun; subst d.
  assert (Hsh := psi_at_shape c e _ p Hset Hp).
  split; [now apply shape_abs2|]. intros i j Hi Hj.
  assert (Hmx := psi_at_mirrored true false c e _ p Hset Hp i j Hi Hj).
  assert (Hmy := psi_at_mirrored false true c e _ p Hset Hp i j Hi Hj).
  simpl in Hmx, Hmy. split.
  - rewrite (get_abs2 p _ _ (Z.to_nat (Nx c) - 1 - i) j Hsh) by lia.
    rewrite (get_abs2 p _ _ i j Hsh Hi Hj). now rewrite Hmx.
  - rewrite (get_abs2 p _ _ i (Z.to_nat (Ny c) - 1 - j) Hsh) by lia.
    rewrite (get_abs2 p _ _ i j Hsh Hi Hj). now rewrite Hmy.
Qed.

Lemma output_density_is_mirror_symmetric_witness :
  exists e p,
    setup default_config = inr e /\
    run default_config = inr (Finite (abs2 p)) /\
    shape (abs2 p) 256 256 /\
    getR (abs2 p) (256 - 1 - 3) 200 = getR (abs2 p) 3 200 /\
    getR (abs2 p) 3 (256 - 1 - 200) = getR (abs2 p) 3 200.
Proof.
  destruct default_run_finite as (e & p & He & _ & _ & Hrun). exists e, p.
  split; [assumption|]. split; [assumption|].
  destruct (output_density_is_mirror_symmetric default_config e (abs2 p) He Hrun)
    as [Hs Hm].
  split; [exact Hs|].
  apply (Hm 3%nat 200%nat); apply Nat.ltb_lt; reflexivity.
Defined.


(** ** Running a pass backwards *)

Lemma setup_reversed (c : config) : setup (reversed c) = setup c.
Proof. reflexivity. Qed.

Lemma strang_half_reversed (c : config) (vv : matrix R) (p : matrix C) (r s : nat) :
  shape p r s -> strang_half (reversed c) vv (strang_half c vv p) = p.
Proof.
  intros Hp. assert (Hq := shape_strang_half c vv p r s Hp).
  apply (matrix_ext C0 _ _ r s); [now apply shape_strang_half | assumption |].
  intros i j Hi Hj.
  change (getC (strang_half (reversed c) vv (strang_half c vv p)) i j = getC p i j).
  rewrite (get_strang_half (reversed c) vv _ r s i j Hq Hi Hj).
  rewrite (get_strang_half c vv p r s i j Hp Hi Hj).
  rewrite Cmod_sqr_mult, Cmod_sqr_cis, Rmult_1_r.
  rewrite <- Cmult_assoc, <- cis_plus. simpl (dt (reversed c)). simpl (g (reversed c)).
  replace (- (getR vv i j + g c * Cmod (getC p i j) ^ 2) * dt c / 2 +
           - (getR vv i j + g c * Cmod (getC p i j) ^ 2) * - dt c / 2)
    with 0 by (unfold Rdiv; ring).
  rewrite cis_0. apply Cmult_1_r.
Qed.

Lemma strang_kinetic_reversed (c : config) (k2 : matrix R) (p : matrix C) (r s : nat) :
  shape p r s -> (0 < r)%nat ->
  strang_kinetic (reversed c) k2 (strang_kinetic c k2 p) = p.
Proof.
  intros Hp Hr. destruct (shape_dims p r s Hp) as (_ & Hlen & Hcols).
  assert (Hq := shape_strang_kinetic c k2 p r s Hp).
  destruct (shape_dims _ r s Hq) as (_ & Hlen' & Hcols').
  unfold strang_kinetic at 1. rewrite Hlen', Hcols' by assumption.
  transitivity (ifft2 (fft2 p)); [|exact (ifft2_fft2 p r s Hp)]. f_equal.
  apply (matrix_ext C0 _ _ r s); [apply shape_build2 | now apply shape_fft2 |].
  intros i j Hi Hj. rewrite get_build2 by assumption.
  unfold strang_kinetic. rewrite Hlen, Hcols by assumption.
  change (get C0 (fft2 (ifft2 ?G)) i j) with (getC (fft2 (ifft2 G)) i j).
  rewrite (get_fft2_ifft2 _ r s i j (shape_build2 r s _) Hi Hj).
  unfold getC at 1. rewrite get_build2 by assumption.
  rewrite <- Cmult_assoc, <- cis_plus. simpl (dt (reversed c)).
  replace (- getR k2 i j * dt c / 2 + - getR k2 i j * - dt c / 2)
    with 0 by (unfold Rdiv; ring).
  rewrite cis_0. apply Cmult_1_r.
Qed.

(** X15.  The three unitary stages of a pass (lines 46-54) are reversible:
    applying them with the time step [-dt] to the field they produced with
    [dt] gives back the field they started from. *)
Theorem pass_is_reversible (c : config) (e : env) (vv : matrix R) (p : matrix C) :
  setup c = inr e -> V e = Finite vv ->
  shape p (Z.to_nat (Nx c)) (Z.to_nat (Ny c)) ->
  evolve (reversed c) e (evolve c e (Finite p)) = Finite p.
Proof.
  intros Hset HV Hp. destruct (setup_inr c e Hset) as (Hnx & Hny & _).
  assert (Hh := shape_strang_half c vv p _ _ Hp).
  assert (Hk := shape_strang_kinetic c (K2 e) _ _ _ Hh).
  assert (Hq := shape_strang_half c vv _ _ _ Hk).
  rewrite (evolve_strang c e vv p Hset HV Hp).
  assert (Hset' : setup (reversed c) = inr e) by (rewrite setup_reversed; exact Hset).
  rewrite (evolve_strang (reversed c) e vv _ Hset' HV Hq). f_equal.
  rewrite (strang_half_reversed c vv _ _ _ Hk).
  rewrite (strang_kinetic_reversed c (K2 e) _ _ _ Hh) by (simpl; lia).
  exact (strang_half_reversed c vv p _ _ Hp).
Qed.

Lemma pass_is_reversible_witness :
  exists e p,
    setup default_config = inr e /\ psi e = Finite p /\
    evolve (reversed default_config) e (evolve default_config e (Finite p)) = Finite p.
Proof.
  destruct default_setup_facts as (e & He & _ & vv & p & HV & Hp & Hsh & _).
  exists e, p. split; [assumption|]. split; [assumption|].
  exact (pass_is_reversible default_config e vv p He HV Hsh).
Defined.

(** ** Exchange of the two axes on a square grid *)

Lemma kinetic_entry_exchanged (r : nat) (P Mu : nat -> nat -> C) :
  exchanged r P -> exchanged r Mu -> exchanged r (kinetic_entry r r P Mu).
Proof.
  intros HP HMu i j Hi Hj.
  set (B := fun k l => dft (-1) r (fun m => dft (-1) r (fun n => P m n) l) k).
  set (G := fun k l => Cmult (B k l) (Mu k l)).
  assert (HB : forall k l, (k < r)%nat -> (l < r)%nat -> B l k = B k l).
  { intros k l Hk Hl. unfold B. rewrite dft_swap.
    apply dft_ext. intros m Hm. apply dft_ext. intros n Hn. now apply HP. }
  assert (HG : forall k l, (k < r)%nat -> (l < r)%nat -> G l k = G k l).
  { intros k l Hk Hl. unfold G. now rewrite HB, HMu. }
  unfold kinetic_entry.
  change (Cdivr (dft 1 r (fun k => Cdivr (dft 1 r (fun l => G k l) i) (INR r)) j) (INR r) =
          Cdivr (dft 1 r (fun k => Cdivr (dft 1 r (fun l => G k l) j) (INR r)) i) (INR r)).
  f_equal. rewrite !dft_divr. f_equal. rewrite dft_swap.
  apply dft_ext. intros l Hl. apply dft_ext. intros k Hk. now apply HG.
Qed.

Lemma square_grid (c : config) (e : env) :
  setup c = inr e -> Nx c = Ny c -> Lx c = Ly c ->
  x e = y e /\ kx e = ky e.
Proof.
  intros Hset HN HL.
  destruct (setup_inr c e Hset)
    as (_ & _ & _ & _ & Hdx & Hdy & Hx & Hy & _ & _ & _ & _ & Hkx & Hky & _).
  rewrite HN, HL in Hx. rewrite Hx in Hy. inversion Hy as [Hxy]. split; [reflexivity|].
  destruct Hkx as (fx & Hfx & ->). destruct Hky as (fy & Hfy & ->).
  rewrite Hdx, HN, HL, <- Hdy in Hfx. rewrite Hfx in Hfy. now inversion Hfy.
Qed.

Lemma psi_at_exchanged (c : config) (e : env) (t : nat) (p : matrix C) :
  setup c = inr e -> Nx c = Ny c -> Lx c = Ly c -> psi_at c e t = Finite p ->
  exchanged (Z.to_nat (Nx c)) (getC p).
Proof.
  intros Hset HN HL. destruct (square_grid c e Hset HN HL) as [Hxy Hk].
  destruct (setup_shapes c e Hset) as (Lx' & Ly' & SX & SY & _).
  destruct (setup_inr c e Hset) as (_ & _ & _ & _ & _ & _ & _ & _ & HX & HY & _).
  assert (HNn : Z.to_nat (Ny c) = Z.to_nat (Nx c)) by now rewrite HN.
  assert (Hgrid : forall i j, (i < Z.to_nat (Nx c))%nat -> (j < Z.to_nat (Nx c))%nat ->
            getR (X e) j i = getR (Y e) i j /\ getR (Y e) j i = getR (X e) i j).
  { intros i j Hi Hj.
    destruct (get_meshgrid (x e) (y e) i j) as [G1 G2]; [lia | lia |].
    destruct (get_meshgrid (x e) (y e) j i) as [G3 G4]; [lia | lia |].
    rewrite HX, HY, G1, G2, G3, G4, Hxy. split; reflexivity. }
  assert (HK : forall k l, (k < Z.to_nat (Nx c))%nat -> (l < Z.to_nat (Nx c))%nat ->
            getR (K2 e) l k = getR (K2 e) k l).
  { intros k l Hk' Hl'.
    rewrite (setup_K2 c e l k Hset) by lia. rewrite (setup_K2 c e k l Hset) by lia.
    rewrite Hk. ring. }
  revert p. induction t as [|t IH]; intros p Hp.
  - rewrite (psi_at_normalize c e 0 Hset) in Hp. apply normalize_Finite in Hp.
    destruct Hp as (p0 & n & Hg & _ & _ & ->). unfold before_norm in Hg.
    assert (Hsh := gaussian_shape c _ _ p0 _ _ Hg SX SY).
    intros i j Hi Hj. unfold getC.
    rewrite (get_mmap _ C0 C0 p0 _ _ j i Hsh) by lia.
    rewrite (get_mmap _ C0 C0 p0 _ _ i j Hsh) by lia. f_equal.
    change (getC p0 j i = getC p0 i j).
    destruct (gaussian_entries c _ _ p0 _ _ Hg SX SY) as [Hall|Hall].
    + rewrite (Hall j i) by lia. now rewrite (Hall i j) by lia.
    + rewrite (Hall j i) by lia. rewrite (Hall i j) by lia.
      destruct (Hgrid i j Hi Hj) as [-> ->]. do 2 f_equal. unfold Rdiv. ring.
  - simpl in Hp. unfold step in Hp. apply normalize_Finite in Hp.
    destruct Hp as (p1 & n & Hev & _ & _ & ->).
    destruct (evolve_Finite c e _ p1 Hev) as (vv & p' & HV & Hw).
    assert (Hs' := psi_at_shape c e t p' Hset Hw).
    rewrite Hw in Hev. rewrite (evolve_strang c e vv p' Hset HV Hs') in Hev.
    inversion Hev; subst p1. clear Hev.
    destruct (V_Finite_shape c e vv Hset HV) as [Ha _].
    destruct (potential_entries c e Hset Ha) as (vv' & HV' & _ & Hval).
    rewrite HV in HV'. inversion HV'; subst vv'.
    assert (Hvs : exchanged (Z.to_nat (Nx c)) (getR vv)).
    { intros i j Hi Hj. rewrite (Hval j i) by lia. rewrite (Hval i j) by lia.
      destruct (Hgrid i j Hi Hj) as [-> ->]. unfold V_at. ring. }
    assert (Hhalf : forall q, shape q (Z.to_nat (Nx c)) (Z.to_nat (Ny c)) ->
              exchanged (Z.to_nat (Nx c)) (getC q) ->
              exchanged (Z.to_nat (Nx c)) (getC (strang_half c vv q))).
    { intros q Hq Hm i j Hi Hj.
      rewrite (get_strang_half c vv q _ _ j i Hq) by lia.
      rewrite (get_strang_half c vv q _ _ i j Hq) by lia.
      now rewrite (Hvs i j Hi Hj), (Hm i j Hi Hj). }
    assert (Hkin : forall q, shape q (Z.to_nat (Nx c)) (Z.to_nat (Ny c)) ->
              exchanged (Z.to_nat (Nx c)) (getC q) ->
              exchanged (Z.to_nat (Nx c)) (getC (strang_kinetic c (K2 e) q))).
    { intros q Hq Hm i j Hi Hj.
      rewrite (get_strang_kinetic c (K2 e) q _ _ j i Hq) by lia.
      rewrite (get_strang_kinetic c (K2 e) q _ _ i j Hq) by lia.
      rewrite HNn. apply kinetic_entry_exchanged; try assumption.
      intros k l Hk' Hl'. now rewrite (HK k l Hk' Hl'). }
    set (q := strang_half c vv (strang_kinetic c (K2 e) (strang_half c vv p'))).
    assert (Hq : shape q (Z.to_nat (Nx c)) (Z.to_nat (Ny c)))
      by now apply shape_strang_half, shape_strang_kinetic, shape_strang_half.
    assert (Hqm : exchanged (Z.to_nat (Nx c)) (getC q)).
    { apply Hhalf; [now apply shape_strang_kinetic, shape_strang_half|].
      apply Hkin; [now apply shape_strang_half|].
      apply Hhalf; [assumption|]. now apply IH. }
    intros i j Hi Hj. unfold getC.
    rewrite (get_mmap _ C0 C0 q _ _ j i Hq) by lia.
    rewrite (get_mmap _ C0 C0 q _ _ i j Hq) by lia. f_equal.
    exact (Hqm i j Hi Hj).
Qed.

(** X14.  On a square grid ([Nx = Ny] and [Lx = Ly], as in the script) the
    output density is an [Nx] by [Nx] array that is symmetric under the
    exchange of [x] and [y]: [density[j][i] = density[i][j]]. *)
Theorem output_density_is_exchange_symmetric (c : config) (e : env) (d : matrix R) :
  setup c = inr e -> Nx c = Ny c -> Lx c = Ly c -> run c = inr (Finite d) ->
  shape d (Z.to_nat (Nx c)) (Z.to_nat (Nx c)) /\
  forall i j, (i < Z.to_nat (Nx c))%nat -> (j < Z.to_nat (Nx c))%nat ->
    getR d j i = getR d i j.
Proof.
  intros Hset HN HL Hrun.
  rewrite (run_setup_ok c e Hset) in Hrun.
  destruct (psi_at c e (Z.to_nat (steps c))) as [p|] eqn:Hp; [|discriminate].
  simpl in Hrun. inversion Hrun; subst d.
  assert (Hsh := psi_at_shape c e _ p Hset Hp).
  assert (HNn : Z.to_nat (Ny c) = Z.to_nat (Nx c)) by now rewrite HN.
  split; [rewrite <- HNn at 2; now apply shape_abs2|]. intros i j Hi Hj.
  rewrite (get_abs2 p _ _ j i Hsh) by lia.
  rewrite (get_abs2 p _ _ i j Hsh) by lia.
  now rewrite (psi_at_exchanged c e _ p Hset HN HL Hp i j Hi Hj).
Qed.

Lemma output_density_is_exchange_symmetric_witness :
  exists e p,
    setup default_config = inr e /\
    run default_config = inr (Finite (abs2 p)) /\
    shape (abs2 p) 256 256 /\
    getR (abs2 p) 200 3 = getR (abs2 p) 3 200.
Proof.
  destruct default_run_finite as (e & p & He & _ & _ & Hrun). exists e, p.
  split; [assumption|]. split; [assumption|].
  destruct (output_density_is_exchange_symmetric default_config e (abs2 p) He
              eq_refl eq_refl Hrun) as [Hs Hm].
  split; [exact Hs|].
  apply (Hm 3%nat 200%nat); apply Nat.ltb_lt; reflexivity.
Defined.
